(** * train_sim: the C implementation

    A shallow embedding of the C sources under [src/c]:
    - [summation.c]: [get_lut_index], [calc_linear_interpolation] and the
      rules [left_riemann], [mid_riemann], [right_riemann], [trapezoidal],
      [simpsons];
    - [summation.h], lines 61 to 340 (the text of [sim.c]): [main],
      [run_sim] and [run_sim_openmp];
    - [args.h] and [args.c]: [enum ALGO], [struct sim_args],
      [struct app_args], [app_args_init] and the [parse_*_arg] functions;
    - [ts.h] and [args.h], lines 40 to 221 (the text of [ts.c]): the
      arithmetic on [struct timespec], [struct timing] and
      [struct log_timer];
    with the properties the specification states about them, and further
    properties read off the code.

    Conventions of the embedding.
    - A C [double] is an exact rational in canonical form ([Qc]): every
      arithmetic operation is the mathematically exact one.  Rounding,
      infinities and NaN are outside the embedding, so an equation between
      doubles below is one of exact arithmetic.  The module [binary64]
      embeds [summation.c] once more on IEEE 754 binary64 numbers; the
      results that rounding changes are stated on it.
    - An [int32_t] is a [Z]; an operation whose result leaves the 32-bit
      range is undefined behaviour in C and ends the run as [Stuck], as
      does an access outside an allocated array.
    - Memory is a finite map from block names to arrays of doubles; a
      [struct lut_info] holds a length and the name of its array.
    - [exit(EXIT_FAILURE)] in [get_lut_index] ends the run as [Exit], with
      the index and the length its message prints.
    - The operating system (allocator, monotonic clock, OpenMP runtime) is
      an explicit oracle: the theorems quantify over it.  In the pipelines
      the timing statistics and their printing are left out; the functions
      of [ts.c] that compute them are embedded on their own. *)

From Stdlib Require Import ZArith QArith Qcanon Qround Lia Ascii.
From Stdlib Require Floats Uint63.
From stdpp Require Import base tactics numbers option list gmap strings.

Local Open Scope Z_scope.

(** ** Outcomes of a run *)

Inductive outcome (A : Type) : Type :=
  | Ret (a : A)
  | Exit (index len : Z)
  | Stuck.
Arguments Ret {A} a.
Arguments Exit {A} index len.
Arguments Stuck {A}.

Global Instance outcome_eq_dec {A} `{EqDecision A} : EqDecision (outcome A).
Proof. solve_decision. Defined.

Global Instance outcome_ret : MRet outcome := λ A a, Ret a.
Global Instance outcome_bind : MBind outcome := λ A B f o,
  match o with
  | Ret a => f a
  | Exit index len => Exit index len
  | Stuck => Stuck
  end.

(** ** 32-bit integers and doubles *)

Definition INT32_MIN : Z := -2147483648.
Definition INT32_MAX : Z := 2147483647.

Definition in_int32 (z : Z) : Prop := INT32_MIN ≤ z ≤ INT32_MAX.

(** [a + b] on [int32_t]: signed overflow is undefined. *)
Definition int32_add (a b : Z) : outcome Z :=
  if decide (in_int32 (a + b)) then Ret (a + b) else Stuck.

(** [floor(x)] of [math.h], as a double. *)
Definition floor (x : Qc) : Qc := Qc_of_Z (Qfloor x).

(** [(int32_t)x]: the fractional part is discarded (rounding toward zero);
    undefined when the integral part does not fit. *)
Definition trunc (x : Qc) : Z := Z.quot (Qnum x) (Z.pos (Qden x)).

Definition double_to_int32 (x : Qc) : outcome Z :=
  if decide (in_int32 (trunc x)) then Ret (trunc x) else Stuck.

(** [a / b] on doubles; a zero divisor gives an infinity or a NaN, which the
    embedding does not represent. *)
Definition fdiv (a b : Qc) : outcome Qc :=
  if decide (b = 0%Qc) then Stuck else Ret (a / b)%Qc.

(** ** Memory *)

Abbreviation loc := positive (only parsing).
Abbreviation mem := (gmap positive (list Qc)) (only parsing).

(** [struct lut_info { int32_t len; double* lut; }] *)
Record lut_info : Type := { len : Z; lut : loc }.

(** [p[i]] as an rvalue. *)
Definition load (m : mem) (p : loc) (i : Z) : outcome Qc :=
  match m !! p with
  | Some a =>
      if decide (0 ≤ i) then
        match a !! Z.to_nat i with
        | Some v => Ret v
        | None => Stuck
        end
      else Stuck
  | None => Stuck
  end.

(** [p[i] = v] *)
Definition store (m : mem) (p : loc) (i : Z) (v : Qc) : outcome mem :=
  match m !! p with
  | Some a =>
      if decide (0 ≤ i < Z.of_nat (length a)) then
        Ret (<[p := <[Z.to_nat i := v]> a]> m)
      else Stuck
  | None => Stuck
  end.

(** ** summation.c: table access and interpolation *)

(** [get_lut_index], lines 8 to 24. *)
Definition get_lut_index (m : mem) (info : lut_info) (index : Z) : outcome Qc :=
  if decide (index < 0 ∨ len info ≤ index) then Exit index (len info)
  else load m (lut info) index.

(** [calc_linear_interpolation], lines 28 to 52.  The [void* context] of
    the callback is the table descriptor together with the memory it
    points into. *)
Definition calc_linear_interpolation (context : mem * lut_info) (x : Qc) : outcome Qc :=
  let '(m, info) := context in
  if decide (floor x = x) then
    index ← double_to_int32 x;
    get_lut_index m info index
  else
    x0_index ← double_to_int32 x;
    x1_index ← int32_add x0_index 1;
    let x0 := Qc_of_Z x0_index in
    y0 ← get_lut_index m info x0_index;
    y1 ← get_lut_index m info x1_index;
    Ret (y0 + (x - x0) * (y1 - y0))%Qc.

(** ** Counted loops

    [for (i = lo; <test>; i += 1) body], where neither the body nor the test
    changes the counter or the bound: [trips] is the number of values of
    the counter, from [lo] upwards, that pass the test.  The increment after
    each trip is the [int32_t] one. *)

Fixpoint for_loop {S : Type} (body : Z → S → outcome S)
    (trips : nat) (i : Z) (s : S) : outcome S :=
  match trips with
  | O => Ret s
  | Datatypes.S k =>
      s' ← body i s;
      i' ← int32_add i 1;
      for_loop body k i' s'
  end.

(** [for (i = lo; i < hi; i += 1)] *)
Definition for_lt {S : Type} (lo hi : Z) (body : Z → S → outcome S) (s : S) : outcome S :=
  for_loop body (Z.to_nat (hi - lo)) lo s.

(** [for (i = lo; i <= hi; i += 1)] *)
Definition for_le {S : Type} (lo hi : Z) (body : Z → S → outcome S) (s : S) : outcome S :=
  for_loop body (Z.to_nat (hi + 1 - lo)) lo s.

(** ** summation.c: the five rules, lines 56 to 159

    In [trapezoidal] the C standard leaves the order of the two calls at
    the ends of the interval open; the embedding calls at [lower] first. *)

Section summation.
Context {C : Type}.
Local Open Scope Qc_scope.

(** The callback type [summation_cb]: a context and an abscissa. *)
Definition summation_cb : Type := C → Qc → outcome Qc.
(** The rule type [summation]: lower, upper, iterations, context, callback. *)
Definition summation : Type := Qc → Qc → Z → C → summation_cb → outcome Qc.

Definition left_riemann : summation := λ lower upper iterations context cb,
  step ← fdiv (upper - lower) (Qc_of_Z iterations);
  sum ← for_lt 0 iterations (λ iter sum,
    let x := lower + Qc_of_Z iter * step in
    r ← cb context x;
    Ret (sum + r)) 0;
  Ret (step * sum).

Definition mid_riemann : summation := λ lower upper iterations context cb,
  step ← fdiv (upper - lower) (Qc_of_Z iterations);
  let half_step := step / 2 in
  sum ← for_lt 0 iterations (λ iter sum,
    let x := (lower + Qc_of_Z iter * step) + half_step in
    r ← cb context x;
    Ret (sum + r)) 0;
  Ret (step * sum).

Definition right_riemann : summation := λ lower upper iterations context cb,
  step ← fdiv (upper - lower) (Qc_of_Z iterations);
  sum ← for_lt 0 iterations (λ iter sum,
    iter1 ← int32_add iter 1;
    let x := lower + Qc_of_Z iter1 * step in
    r ← cb context x;
    Ret (sum + r)) 0;
  Ret (step * sum).

Definition trapezoidal : summation := λ lower upper iterations context cb,
  step ← fdiv (upper - lower) (Qc_of_Z iterations);
  fl ← cb context lower;
  fu ← cb context upper;
  sum ← for_lt 1 iterations (λ iter sum,
    let x := lower + Qc_of_Z iter * step in
    r ← cb context x;
    Ret (sum + r)) ((fl + fu) / 2);
  Ret (step * sum).

Definition simpsons : summation := λ lower upper iterations context cb,
  step ← fdiv (upper - lower) (Qc_of_Z iterations);
  sum ← for_le 0 iterations (λ iter sum,
    let x := lower + Qc_of_Z iter * step in
    res ← cb context x;
    if decide (iter = 0 ∨ iter = iterations)%Z then Ret (sum + res)
    else if decide (Z.rem iter 2 = 1)%Z then Ret (sum + Qc_of_Z 4 * res)
    else Ret (sum + 2 * res)) 0;
  Ret (step * sum / Qc_of_Z 3).
End summation.
Arguments summation_cb : clear implicits.
Arguments summation : clear implicits.

(** ** args.h: the configuration *)

(** [enum ALGO] *)
Abbreviation LEFT_RIEMANN := 0%Z (only parsing).
Abbreviation MID_RIEMANN := 1%Z (only parsing).
Abbreviation RIGHT_RIEMANN := 2%Z (only parsing).
Abbreviation TRAPEZOIDAL := 3%Z (only parsing).
Abbreviation SIMPSONS := 4%Z (only parsing).

(** [struct sim_args] *)
Record sim_args : Type := {
  threads : Z;
  algo : Z;
  step : Z;
  iterations : Z
}.

(** ** The operating system as an oracle *)

Record os : Type := {
  (** whether [malloc] returns a block *)
  malloc_ok : bool;
  (** the indeterminate contents of a block fresh from [malloc] *)
  uninit : nat → Qc;
  (** whether [clock_gettime] succeeds at the start and at the end of
      benchmark iteration [c] *)
  clock_start_ok : Z → bool;
  clock_end_ok : Z → bool;
  (** how the OpenMP runtime distributes the iterations of the [k]-th
      parallel loop of benchmark iteration [c]: one list per thread, in the
      order the thread runs them *)
  omp_schedule : Z → nat → list (list Z)
}.

(** [malloc(n * sizeof(double))] for an [int32_t n]: a block no other
    pointer names, or [NULL].  A negative [n] converts to a size no
    allocator grants. *)
Definition malloc (w : os) (m : mem) (n : Z) : option (loc * mem) :=
  if malloc_ok w && bool_decide (0 ≤ n) then
    let p := fresh (dom m) in
    Some (p, <[p := uninit w <$> seq 0 (Z.to_nat n)]> m)
  else None.

Definition free (m : mem) (p : loc) : mem := delete p m.

(** A schedule of the iterations [lo <= sec < hi] on at most [threads]
    threads runs every iteration exactly once. *)
Definition omp_valid (threads lo hi : Z) (chunks : list (list Z)) : Prop :=
  1 ≤ Z.of_nat (length chunks) ≤ threads ∧ concat chunks ≡ₚ seqZ lo (hi - lo).

(** The iterations of one thread, in order. *)
Fixpoint for_each {S : Type} (body : Z → S → outcome S) (l : list Z) (s : S) : outcome S :=
  match l with
  | [] => Ret s
  | i :: l' => s' ← body i s; for_each body l' s'
  end.

(** [#pragma omp parallel for]: the iterations write disjoint slots and read
    only what no iteration writes, so each is taken as one step and the
    threads are run one after the other. *)
Definition omp_for {S : Type} (chunks : list (list Z))
    (body : Z → S → outcome S) (s : S) : outcome S :=
  for_each body (concat chunks) s.

(** [#pragma omp parallel for reduction(+:acc)]: every thread accumulates
    into a private copy that starts at zero; the copies are then added to
    the original variable. *)
Fixpoint omp_partials (chunks : list (list Z)) (body : Z → Qc → outcome Qc)
    : outcome (list Qc) :=
  match chunks with
  | [] => Ret []
  | chunk :: chunks' =>
      part ← for_each body chunk 0%Qc;
      parts ← omp_partials chunks' body;
      Ret (part :: parts)
  end.

Definition omp_for_reduction (chunks : list (list Z))
    (body : Z → Qc → outcome Qc) (acc : Qc) : outcome Qc :=
  parts ← omp_partials chunks body;
  Ret (foldl Qcplus acc parts).

(** ** sim.c (in summation.h): the two pipelines *)

(** The [switch] on [args->algo] at the head of both pipelines: any value
    without a [case] keeps the initial [left_riemann]. *)

Definition select_summation (algo : Z) : summation (mem * lut_info) :=
  match algo with
  | LEFT_RIEMANN => left_riemann
  | MID_RIEMANN => mid_riemann
  | RIGHT_RIEMANN => right_riemann
  | TRAPEZOIDAL => trapezoidal
  | SIMPSONS => simpsons
  | _ => left_riemann
  end.

(** What the last benchmark iteration prints: velocity, then position. *)
Record printed : Type := { velocity : Qc; position : Qc }.

Global Instance printed_eq_dec : EqDecision printed.
Proof. solve_decision. Defined.

(** The benchmark loop [for (int c = 0; c < args->iterations; c += 1)] of
    both pipelines; [pass] is the timed part of its body.  The timing
    statistics themselves are not modelled. *)
Fixpoint benchmark (w : os) (args : sim_args)
    (pass : Z → mem → outcome (mem * printed))
    (trips : nat) (c : Z) (m : mem) (out : option printed)
    : outcome (mem * option printed) :=
  match trips with
  | O => Ret (m, out)
  | Datatypes.S k =>
      if negb (clock_start_ok w c) then
        (* continue *)
        c' ← int32_add c 1;
        benchmark w args pass k c' m out
      else
        '(m', r) ← pass c m;
        if negb (clock_end_ok w c) then
          (* break *)
          Ret (m', out)
        else
          let out' := if decide (c = iterations args - 1) then Some r else out in
          c' ← int32_add c 1;
          benchmark w args pass k c' m' out'
  end.

(** The timed part of one benchmark iteration of [run_sim], lines 158 to
    182: the velocity loop, then the position loop. *)
Definition run_sim_pass (sum_cb : summation (mem * lut_info)) (args : sim_args)
    (info vel_lut : lut_info) (c : Z) (m : mem) : outcome (mem * printed) :=
  '(m, vel_final) ← for_lt 1 (len info) (λ sec '(m, vel_final),
      d ← sum_cb (Qc_of_Z (sec - 1)) (Qc_of_Z sec) (step args)
             (m, info) calc_linear_interpolation;
      let vel_final := (vel_final + d)%Qc in
      m ← store m (lut vel_lut) sec vel_final;
      Ret (m, vel_final)) (m, 0%Qc);
  pos_final ← for_lt 1 (len vel_lut) (λ sec pos_final,
      d ← sum_cb (Qc_of_Z (sec - 1)) (Qc_of_Z sec) (step args)
             (m, vel_lut) calc_linear_interpolation;
      Ret (pos_final + d)%Qc) 0%Qc;
  Ret (m, {| velocity := vel_final; position := pos_final |}).

(** [run_sim], lines 106 to 219. *)
Definition run_sim (w : os) (args : sim_args) (info : lut_info) (m : mem)
    : outcome (mem * option printed) :=
  match malloc w m (len info) with
  | None => Ret (m, None)
  | Some (p, m) =>
      let vel_lut := {| len := len info; lut := p |} in
      m ← store m (lut vel_lut) 0 0%Qc;
      let sum_cb := select_summation (algo args) in
      '(m, out) ← benchmark w args (run_sim_pass sum_cb args info vel_lut)
                    (Z.to_nat (iterations args)) 0 m None;
      Ret (free m (lut vel_lut), out)
  end.

(** The timed part of one benchmark iteration of [run_sim_openmp], lines
    273 to 303: the parallel loop of differences, the sequential loop of
    running totals, the parallel reduction for the position. *)
Definition run_sim_openmp_pass (w : os) (sum_cb : summation (mem * lut_info))
    (args : sim_args) (info vel_lut : lut_info) (c : Z) (m : mem)
    : outcome (mem * printed) :=
  m ← omp_for (omp_schedule w c 0) (λ sec m,
      d ← sum_cb (Qc_of_Z (sec - 1)) (Qc_of_Z sec) (step args)
             (m, info) calc_linear_interpolation;
      store m (lut vel_lut) sec d) m;
  '(m, vel_final) ← for_lt 0 (len vel_lut) (λ index '(m, vel_final),
      v ← load m (lut vel_lut) index;
      let vel_final := (vel_final + v)%Qc in
      m ← store m (lut vel_lut) index vel_final;
      Ret (m, vel_final)) (m, 0%Qc);
  pos_final ← omp_for_reduction (omp_schedule w c 1) (λ sec pos_final,
      d ← sum_cb (Qc_of_Z (sec - 1)) (Qc_of_Z sec) (step args)
             (m, vel_lut) calc_linear_interpolation;
      Ret (pos_final + d)%Qc) 0%Qc;
  Ret (m, {| velocity := vel_final; position := pos_final |}).

(** [run_sim_openmp], lines 221 to 340. *)
Definition run_sim_openmp (w : os) (args : sim_args) (info : lut_info) (m : mem)
    : outcome (mem * option printed) :=
  match malloc w m (len info) with
  | None => Ret (m, None)
  | Some (p, m) =>
      let vel_lut := {| len := len info; lut := p |} in
      m ← store m (lut vel_lut) 0 0%Qc;
      let sum_cb := select_summation (algo args) in
      '(m, out) ← benchmark w args (run_sim_openmp_pass w sum_cb args info vel_lut)
                    (Z.to_nat (iterations args)) 0 m None;
      Ret (free m (lut vel_lut), out)
  end.

(** ** Well-formed inputs *)

(** The table descriptor names an array of exactly [len] doubles, with
    [1 <= len] as an [int32_t]. *)
Definition lut_wf (m : mem) (info : lut_info) : Prop :=
  ∃ a, m !! lut info = Some a ∧ Z.of_nat (length a) = len info ∧
       1 ≤ len info ≤ INT32_MAX.

(** What [parse_threads_arg], [parse_step_arg], [parse_iterations_arg] and
    [parse_algo_arg] let through. *)
Definition args_wf (args : sim_args) : Prop :=
  1 ≤ threads args ≤ INT32_MAX ∧
  0 ≤ algo args ≤ 4 ∧
  1 ≤ step args ≤ INT32_MAX ∧
  1 ≤ iterations args ≤ INT32_MAX.

(** The runtime schedules both parallel loops of every benchmark iteration
    validly. *)
Definition os_wf (w : os) (args : sim_args) (info : lut_info) : Prop :=
  ∀ c k, omp_valid (threads args) 1 (len info) (omp_schedule w c k).

(** ** Predicates on memory and on the operating system *)

(** The memory between two benchmark iterations: the acceleration table,
    and a velocity buffer of the same length with zero in its first slot. *)
Definition pass_inv (info vel_lut : lut_info) (acc : list Qc) (m : mem) : Prop :=
  m !! lut info = Some acc ∧
  ∃ v, m !! lut vel_lut = Some v ∧ length v = length acc ∧ v !! 0%nat = Some 0%Qc.

(** No call of a pass reaches the counter overflow of [simpsons]: there is
    no interval to integrate, or the rule is another one, or the subdivision
    count is below [INT32_MAX]. *)
Definition no_overflow (args : sim_args) (info : lut_info) : Prop :=
  len info = 1 ∨ (algo args = SIMPSONS → step args < INT32_MAX).

(** [m'] differs from [m] in the block [p] at most. *)
Definition same_outside (p : loc) (m m' : mem) : Prop :=
  ∀ q, q ≠ p → m' !! q = m !! q.

(** Every system call of the run succeeds. *)
Definition os_ok (w : os) : Prop :=
  malloc_ok w = true ∧ ∀ c, clock_start_ok w c = true ∧ clock_end_ok w c = true.

(** ** What a pass computes

    The results of both pipelines, as functions of the table contents. *)

Definition Qcsum (l : list Qc) : Qc := foldr Qcplus 0%Qc l.

(** The value a call returns, zero when it does not return. *)
Definition value (o : outcome Qc) : Qc :=
  match o with
  | Ret v => v
  | _ => 0%Qc
  end.

(** The rule [algo] with [n] subdivisions over the interval [sec - 1, sec]
    of the table [tbl], interpolated. *)
Definition integral (algo n : Z) (tbl : list Qc) (sec : Z) : outcome Qc :=
  select_summation algo (Qc_of_Z (sec - 1)) (Qc_of_Z sec) n
    ({[ 1%positive := tbl ]}, {| len := Z.of_nat (length tbl); lut := 1%positive |})
    calc_linear_interpolation.

Definition delta (algo n : Z) (tbl : list Qc) (sec : Z) : Qc :=
  value (integral algo n tbl sec).

(** The running total of the intervals [1 .. k]. *)
Definition running (algo n : Z) (tbl : list Qc) (k : Z) : Qc :=
  Qcsum (delta algo n tbl <$> seqZ 1 k).

Definition velocity_table (algo n : Z) (tbl : list Qc) : list Qc :=
  running algo n tbl <$> seqZ 0 (Z.of_nat (length tbl)).

Definition final_velocity (algo n : Z) (tbl : list Qc) : Qc :=
  running algo n tbl (Z.of_nat (length tbl) - 1).

Definition final_position (algo n : Z) (tbl : list Qc) : Qc :=
  Qcsum (delta algo n (velocity_table algo n tbl) <$> seqZ 1 (Z.of_nat (length tbl) - 1)).

(** ** An example run

    Four seconds of acceleration [0, 1, 2, 3], Simpson's rule with two
    subdivisions, three benchmark iterations on two threads. *)

Definition example_os : os := {|
  malloc_ok := true;
  uninit := λ _, Qc_of_Z 7;
  clock_start_ok := λ _, true;
  clock_end_ok := λ _, true;
  omp_schedule := λ _ _, [[3]; [1; 2]]
|}.

Definition example_mem : mem := {[ 1%positive := Qc_of_Z <$> [0; 1; 2; 3] ]}.

Definition example_lut : lut_info := {| len := 4; lut := 1%positive |}.

Definition example_args : sim_args :=
  {| threads := 2; algo := SIMPSONS; step := 2; iterations := 3 |}.

(** The scenario of the specification: the same table, the left Riemann
    sum with one subdivision, one benchmark iteration, one thread. *)
Definition scenario_args : sim_args :=
  {| threads := 1; algo := LEFT_RIEMANN; step := 1; iterations := 1 |}.

(** A table of one sample. *)
Definition single_mem (x : Qc) : mem := {[ 1%positive := [x] ]}.

Definition single_lut : lut_info := {| len := 1; lut := 1%positive |}.

(** Simpson's rule with the largest subdivision count [parse_step_arg]
    accepts. *)
Definition overflow_args : sim_args :=
  {| threads := 2; algo := SIMPSONS; step := INT32_MAX; iterations := 1 |}.

(** A table of two samples, [1] and [3]. *)
Definition two_mem : mem := {[ 1%positive := [1%Qc; Qc_of_Z 3] ]}.

Definition two_lut : lut_info := {| len := 2; lut := 1%positive |}.

(** ** Integrands given in closed form *)

(** [f(x) = k] *)
Definition constant (k : Qc) : summation_cb unit := λ _ _, Ret k.

(** [f(x) = m * x + b] *)
Definition linear (m b : Qc) : summation_cb unit := λ _ x, Ret (m * x + b)%Qc.

(** The integral of [m * x + b] from [lower] to [upper]. *)
Definition linear_integral (m b lower upper : Qc) : Qc :=
  (m * (upper * upper - lower * lower) / 2 + b * (upper - lower))%Qc.

(** The weights of Simpson's sum as [simpsons] assigns them: 1 at both ends,
    4 at odd and 2 at even indices in between. *)
Definition interior_weight (i : Z) : Qc :=
  if decide (Z.rem i 2 = 1) then Qc_of_Z 4 else 2%Qc.

Definition simpson_weight (n i : Z) : Qc :=
  if decide (i = 0 ∨ i = n) then 1%Qc else interior_weight i.

(** ** ts.c (in args.h, lines 40 to 221): time arithmetic and statistics

    On the platform of the Makefile (gcc on Linux, LP64) [time_t] and
    [long] are 64-bit signed integers: an operation on them whose result
    leaves the 64-bit range is undefined and ends the run as [Stuck].  A
    conversion to [int32_t] reduces modulo [2^32], as gcc defines it, and
    [uint32_t] arithmetic wraps. *)

Definition INT64_MIN : Z := -9223372036854775808.
Definition INT64_MAX : Z := 9223372036854775807.

Definition in_int64 (z : Z) : Prop := INT64_MIN ≤ z ≤ INT64_MAX.

(** The result [z] of an operation on [long] or [time_t]. *)
Definition int64 (z : Z) : outcome Z :=
  if decide (in_int64 z) then Ret z else Stuck.

(** [(int32_t)z] for an integer [z]. *)
Definition to_int32 (z : Z) : Z := (z + 2147483648) mod 4294967296 - 2147483648.

(** [(uint32_t)z] *)
Definition to_uint32 (z : Z) : Z := z mod 4294967296.

(** [struct timespec] of [time.h] *)
Record timespec : Type := { tv_sec : Z; tv_nsec : Z }.

Global Instance timespec_eq_dec : EqDecision timespec.
Proof. solve_decision. Defined.

(** [struct timing] of [ts.h] *)
Record timing : Type := {
  min : timespec;
  max : timespec;
  total : timespec;
  count : Z
}.

(** [struct log_timer] of [ts.h] *)
Record log_timer : Type := { prev : timespec; dur : timespec }.

(** [time_diff], lines 120 to 131. *)
Definition time_diff (start end_ : timespec) : outcome timespec :=
  sec ← int64 (tv_sec end_ - tv_sec start);
  nsec ← int64 (tv_nsec end_ - tv_nsec start);
  if decide (nsec < 0) then
    sec ← int64 (sec - 1);
    nsec ← int64 (nsec + 1000000000);
    Ret {| tv_sec := sec; tv_nsec := nsec |}
  else Ret {| tv_sec := sec; tv_nsec := nsec |}.

(** [time_min], lines 133 to 149.  The third argument is the value the
    destination holds before the call; the result is the value it holds
    after.  All reads of [l] and [r] that decide the branch come before the
    writes, so the result is the same when the destination is [l] itself,
    as in [timing_update]. *)
Definition time_min (l r min : timespec) : timespec :=
  if decide (tv_sec l > tv_sec r) then r
  else if decide (tv_sec l < tv_sec r) then l
  else if decide (tv_nsec l > tv_nsec r) then r
  else if decide (tv_nsec l < tv_nsec r) then l
  else min.

(** [time_max], lines 151 to 167. *)
Definition time_max (l r max : timespec) : timespec :=
  if decide (tv_sec l < tv_sec r) then r
  else if decide (tv_sec l > tv_sec r) then l
  else if decide (tv_nsec l < tv_nsec r) then r
  else if decide (tv_nsec l > tv_nsec r) then l
  else max.

(** [time_add], lines 169 to 180.  [/] and [%] on [long] truncate toward
    zero. *)
Definition time_add (l r : timespec) : outcome timespec :=
  sec ← int64 (tv_sec l + tv_sec r);
  nsec ← int64 (tv_nsec l + tv_nsec r);
  if decide (nsec >= 1000000000) then
    sec ← int64 (sec + Z.quot nsec 1000000000);
    Ret {| tv_sec := sec; tv_nsec := Z.rem nsec 1000000000 |}
  else Ret {| tv_sec := sec; tv_nsec := nsec |}.

(** [time_div], lines 182 to 202: the return value and the value of the
    destination after the call.  [count] is a [uint32_t], which the
    divisions convert to [long]; [nanos] and [nanos_extra] are [int32_t]. *)
Definition time_div (l : timespec) (count : Z) (div : timespec)
    : outcome (Z * timespec) :=
  if decide (count ≠ 0) then
    let secs := Z.quot (tv_sec l) count in
    let secs_extra := Z.rem (tv_sec l) count in
    let nanos := to_int32 (Z.quot (tv_nsec l) count) in
    let nanos_extra := to_int32 (Z.rem (tv_nsec l) count) in
    t ← int64 (secs_extra * 1000000000);
    t ← int64 (t + nanos_extra);
    nanos ← int64 (nanos + Z.quot t count);
    let nanos := to_int32 nanos in
    if decide (nanos >= 1000000000) then Ret (2, div)
    else Ret (0, {| tv_sec := secs; tv_nsec := nanos |})
  else Ret (1, div).

(** [time_eq], lines 204 to 210. *)
Definition time_eq (l r : timespec) : Z :=
  if decide (tv_sec l = tv_sec r) then
    if decide (tv_nsec l = tv_nsec r) then 1 else 0
  else 0.

(** [time_ge], lines 212 to 220. *)
Definition time_ge (l r : timespec) : Z :=
  if decide (tv_sec l > tv_sec r) then 1
  else if decide (tv_sec l = tv_sec r) then
    if decide (tv_nsec l >= tv_nsec r) then 1 else 0
  else 0.

(** [timing_init], lines 44 to 52. *)
Definition timing_init : timing := {|
  min := {| tv_sec := 1000000000; tv_nsec := 0 |};
  max := {| tv_sec := 0; tv_nsec := 0 |};
  total := {| tv_sec := 0; tv_nsec := 0 |};
  count := 0
|}.

(** [timing_update], lines 54 to 61: the destination of [time_min],
    [time_max] and [time_add] is their first operand. *)
Definition timing_update (self : timing) (given : timespec) : outcome timing :=
  let mn := time_min (min self) given (min self) in
  let mx := time_max (max self) given (max self) in
  tot ← time_add (total self) given;
  Ret {| min := mn; max := mx; total := tot; count := to_uint32 (count self + 1) |}.

(** What [timing_print] writes to the standard output. *)
Inductive timing_report : Type :=
  | bad_nanos
  | min_max_avg_tot (mn mx avg tot : timespec)
  | total_only (tot : timespec).

(** [timing_print], lines 63 to 87.  [avg] is a local without an
    initial value, [uninit_avg] here; it is read only after [time_div] has
    written it. *)
Definition timing_print (uninit_avg : timespec) (self : timing) : outcome timing_report :=
  if decide (count self > 1) then
    '(code, avg) ← time_div (total self) (count self) uninit_avg;
    if decide (code ≠ 0) then Ret bad_nanos
    else Ret (min_max_avg_tot (min self) (max self) avg (total self))
  else Ret (total_only (total self)).

(** [clock_gettime(CLOCK_MONOTONIC, &t)]: the reading, or [None] when the
    call fails and leaves [t] as it was. *)
Abbreviation clock_reading := (option timespec) (only parsing).

(** [log_timer_init], lines 89 to 98: the return value and the timer. *)
Definition log_timer_init (now : clock_reading) (self : log_timer) : Z * log_timer :=
  match now with
  | None => (1, self)
  | Some now => (0, {| prev := now; dur := {| tv_sec := 10; tv_nsec := 0 |} |})
  end.

(** [log_timer_update], lines 100 to 118. *)
Definition log_timer_update (now : clock_reading) (self : log_timer)
    : outcome (Z * log_timer) :=
  match now with
  | None => Ret (-1, self)
  | Some now =>
      diff ← time_diff (prev self) now;
      if decide (time_ge diff (dur self) ≠ 0) then
        Ret (1, {| prev := now; dur := dur self |})
      else Ret (0, self)
  end.

(** The samples of a benchmark, recorded one after the other as the loops
    of [run_sim] and [run_sim_openmp] do. *)
Fixpoint timing_updates (self : timing) (samples : list timespec) : outcome timing :=
  match samples with
  | [] => Ret self
  | given :: samples' =>
      self' ← timing_update self given;
      timing_updates self' samples'
  end.

(** A duration in nanoseconds. *)
Definition to_ns (t : timespec) : Z := tv_sec t * 1000000000 + tv_nsec t.

(** The nanoseconds are those of a fraction of a second. *)
Definition normalized (t : timespec) : Prop := 0 ≤ tv_nsec t < 1000000000.

(** A reading of the monotonic clock, or a duration that is not negative. *)
Definition timespec_wf (t : timespec) : Prop :=
  0 ≤ tv_sec t ≤ INT64_MAX ∧ normalized t.

(** ** args.c: the command line

    A C string is the sequence of its characters before the terminating
    NUL.  [strtol] and [getopt_long] belong to the C library: the first is
    a parameter of the embedding, any function from the string and the
    value of [errno] before the call to the value returned, what is left of
    the string at [endptr] and the value of [errno] after the call; the
    second is the list of what its successive calls return.  The messages
    on the standard streams are left out. *)

(** The value of a [char] constant. *)
Definition char (c : ascii) : Z := Z.of_N (N_of_ascii c).

(** [strncmp] of [string.h]: at most [n] characters are compared, the end
    of a string counting as the character 0; the result is the difference
    of the first two characters that differ. *)
Fixpoint strncmp (s1 s2 : string) (n : nat) : Z :=
  match n with
  | O => 0
  | Datatypes.S n' =>
      match s1, s2 with
      | EmptyString, EmptyString => 0
      | EmptyString, String c2 _ => 0 - char c2
      | String c1 _, EmptyString => char c1 - 0
      | String c1 s1', String c2 s2' =>
          if decide (c1 = c2) then strncmp s1' s2' n' else char c1 - char c2
      end
  end.

(** No character of a C string is the NUL. *)
Fixpoint c_string (s : string) : Prop :=
  match s with
  | EmptyString => True
  | String c s' => c ≠ zero ∧ c_string s'
  end.

Definition LONG_MAX : Z := INT64_MAX.
Definition ERANGE : Z := 34.
Definition EINVAL : Z := 22.

(** [struct app_args]; a null [file_path] is [None]. *)
Record app_args : Type := { file_path : option string; sim : sim_args }.

(** What one call of [getopt_long] returns and leaves in [option_index]
    and in [optarg]. *)
Record getopt_result : Type := {
  opt : Z;
  option_index : Z;
  optarg : string
}.

Section args.
Context (strtol : string → Z → Z * string * Z).

(** [parse_l], lines 231 to 244: the return value, [*value] and [errno]. *)
Definition parse_l (str : string) (errno : Z) : Z * Z * Z :=
  let '(value, endptr, errno) := strtol str errno in
  if decide (endptr ≠ EmptyString) then (-1, value, errno)
  else if decide ((value = LONG_MAX ∧ errno = ERANGE) ∨ errno = EINVAL) then
    (-1, value, errno)
  else (0, value, errno).

(** [parse_threads_arg], lines 150 to 168: the return value, [*threads]
    and [errno]. *)
Definition parse_threads_arg (arg : string) (threads : Z) (errno : Z) : Z * Z * Z :=
  let '(r, parsed, errno) := parse_l arg errno in
  if decide (r ≠ 0) then (1, threads, errno)
  else if decide (parsed > INT32_MAX ∨ parsed < 1) then (1, threads, errno)
  else (0, to_int32 parsed, errno).

(** [parse_algo_arg], lines 170 to 188: the return value and [*algo]. *)
Definition parse_algo_arg (arg : string) (algo : Z) : Z * Z :=
  if decide (strncmp arg "left-riemann" 13 = 0) then (0, LEFT_RIEMANN)
  else if decide (strncmp arg "mid-riemann" 12 = 0) then (0, MID_RIEMANN)
  else if decide (strncmp arg "right-riemann" 14 = 0) then (0, RIGHT_RIEMANN)
  else if decide (strncmp arg "trapezoidal" 12 = 0) then (0, TRAPEZOIDAL)
  else if decide (strncmp arg "simpsons" 9 = 0) then (0, SIMPSONS)
  else (1, algo).

(** [parse_step_arg], lines 190 to 208. *)
Definition parse_step_arg (arg : string) (step : Z) (errno : Z) : Z * Z * Z :=
  let '(r, parsed, errno) := parse_l arg errno in
  if decide (r ≠ 0) then (1, step, errno)
  else if decide (parsed > INT32_MAX ∨ parsed < 1) then (1, step, errno)
  else (0, to_int32 parsed, errno).

(** [parse_iterations_arg], lines 210 to 229. *)
Definition parse_iterations_arg (arg : string) (iterations : Z) (errno : Z) : Z * Z * Z :=
  let '(r, parsed, errno) := parse_l arg errno in
  if decide (r ≠ 0) then (1, iterations, errno)
  else if decide (parsed > INT32_MAX ∨ parsed < 1) then (1, iterations, errno)
  else (0, to_int32 parsed, errno).

(** Assignments through [&self->sim.threads] and the like. *)
Definition set_threads (self : app_args) (v : Z) : app_args :=
  {| file_path := file_path self;
     sim := {| threads := v; algo := algo (sim self); step := step (sim self);
               iterations := iterations (sim self) |} |}.

Definition set_algo (self : app_args) (v : Z) : app_args :=
  {| file_path := file_path self;
     sim := {| threads := threads (sim self); algo := v; step := step (sim self);
               iterations := iterations (sim self) |} |}.

Definition set_step (self : app_args) (v : Z) : app_args :=
  {| file_path := file_path self;
     sim := {| threads := threads (sim self); algo := algo (sim self); step := v;
               iterations := iterations (sim self) |} |}.

Definition set_iterations (self : app_args) (v : Z) : app_args :=
  {| file_path := file_path self;
     sim := {| threads := threads (sim self); algo := algo (sim self);
               step := step (sim self); iterations := v |} |}.

(** The four option handlers of [app_args_init]: the parser is called on
    [optarg]; a return value other than 0 ends [app_args_init] with 1,
    told here by [inl]. *)
Definition handle_threads (self : app_args) (optarg : string) (errno : Z)
    : app_args + app_args * Z :=
  let '(r, v, errno) := parse_threads_arg optarg (threads (sim self)) errno in
  if decide (r ≠ 0) then inl (set_threads self v) else inr (set_threads self v, errno).

Definition handle_step (self : app_args) (optarg : string) (errno : Z)
    : app_args + app_args * Z :=
  let '(r, v, errno) := parse_step_arg optarg (step (sim self)) errno in
  if decide (r ≠ 0) then inl (set_step self v) else inr (set_step self v, errno).

Definition handle_iterations (self : app_args) (optarg : string) (errno : Z)
    : app_args + app_args * Z :=
  let '(r, v, errno) := parse_iterations_arg optarg (iterations (sim self)) errno in
  if decide (r ≠ 0) then inl (set_iterations self v)
  else inr (set_iterations self v, errno).

Definition handle_algo (self : app_args) (optarg : string) (errno : Z)
    : app_args + app_args * Z :=
  let '(r, v) := parse_algo_arg optarg (algo (sim self)) in
  if decide (r ≠ 0) then inl (set_algo self v) else inr (set_algo self v, errno).

(** The body of the [switch] of [app_args_init], lines 87 to 144, for one
    result of [getopt_long] other than -1: [inl] when the function
    returns 1, [inr] when the loop goes on. *)
Definition app_args_option (g : getopt_result) (self : app_args) (errno : Z)
    : app_args + app_args * Z :=
  if decide (opt g = 0) then
    if decide (option_index g = 0) then handle_threads self (optarg g) errno
    else if decide (option_index g = 1) then handle_step self (optarg g) errno
    else if decide (option_index g = 2) then handle_iterations self (optarg g) errno
    else if decide (option_index g = 3) then handle_algo self (optarg g) errno
    else if decide (option_index g = 4) then inl self
    else inr (self, errno)
  else if decide (opt g = char "t"%char) then handle_threads self (optarg g) errno
  else if decide (opt g = char "s"%char) then handle_step self (optarg g) errno
  else if decide (opt g = char "i"%char) then handle_iterations self (optarg g) errno
  else if decide (opt g = char "a"%char) then handle_algo self (optarg g) errno
  else if decide (opt g = char "h"%char) then inl self
  else inr (self, errno).

(** The loop [while (1)] of [app_args_init], lines 80 to 145, over the
    results of the successive calls of [getopt_long]; after the last of
    them the next call returns -1. *)
Fixpoint app_args_loop (results : list getopt_result) (self : app_args) (errno : Z)
    : Z * app_args :=
  match results with
  | [] => (0, self)
  | g :: results' =>
      if decide (opt g = -1) then (0, self)
      else
        match app_args_option g self errno with
        | inl self' => (1, self')
        | inr (self', errno') => app_args_loop results' self' errno'
        end
  end.

(** [app_args_init], lines 63 to 148: the return value and [*self]. *)
Definition app_args_init (results : list getopt_result) (errno : Z) : Z * app_args :=
  app_args_loop results
    {| file_path := None;
       sim := {| threads := 1; algo := 0; step := 10; iterations := 1 |} |}
    errno.

(** [main] of sim.c (summation.h, lines 81 to 104): the return value, the
    memory and what the run printed.  [TABLE_SIZE] and [ACCELERATION_DATA]
    of [table_lookup.h] are the descriptor [accel_lut] and the memory [m]. *)
Definition main (results : list getopt_result) (errno : Z) (w : os)
    (accel_lut : lut_info) (m : mem) : outcome (Z * mem * option printed) :=
  let '(r, args) := app_args_init results errno in
  if decide (r ≠ 0) then Ret (1, m, None)
  else if decide (threads (sim args) = 1) then
    '(m', out) ← run_sim w (sim args) accel_lut m;
    Ret (0, m', out)
  else
    '(m', out) ← run_sim_openmp w (sim args) accel_lut m;
    Ret (0, m', out).
End args.

(** What [app_args_init] keeps true of its structure. *)
Definition app_args_wf (self : app_args) : Prop :=
  file_path self = None ∧ args_wf (sim self).

(** An example command line, [sim -a trapezoidal -s 100 --threads 8], with
    what the C library's [strtol] does on its two numerals. *)
Definition example_strtol (str : string) (errno : Z) : Z * string * Z :=
  if decide (str = "100") then (100, EmptyString, errno)
  else if decide (str = "8") then (8, EmptyString, errno)
  else (0, str, errno).

Definition example_getopt : list getopt_result :=
  [ {| opt := char "a"; option_index := 0; optarg := "trapezoidal" |};
    {| opt := char "s"; option_index := 0; optarg := "100" |};
    {| opt := 0; option_index := 0; optarg := "8" |} ].

(** ** Further integrands and closed forms *)

(** An integrand that returns at every abscissa. *)
Definition pure_cb (f : Qc → Qc) : summation_cb unit := λ _ x, Ret (f x).

(** [f(x) = c3 * x^3 + c2 * x^2 + c1 * x + c0] *)
Definition cubic (c3 c2 c1 c0 : Qc) : summation_cb unit :=
  λ _ x, Ret (c3 * x * x * x + c2 * x * x + c1 * x + c0)%Qc.

(** An antiderivative of it. *)
Definition cubic_primitive (c3 c2 c1 c0 x : Qc) : Qc :=
  (c3 * x * x * x * x / Qc_of_Z 4 + c2 * x * x * x / Qc_of_Z 3
   + c1 * x * x / 2 + c0 * x)%Qc.

(** The sample of a table at an index. *)
Definition sample (tbl : list Qc) (i : Z) : Qc := default 0%Qc (tbl !! Z.to_nat i).

(** The abscissas at which [calc_linear_interpolation] returns a value on a
    table of [len] samples: above -1 and up to the last index, when the
    table has two samples or more; non-negative also, when it has one. *)
Definition interpolation_domain (info : lut_info) (x : Qc) : Prop :=
  (Qc_of_Z (-1) < x)%Qc ∧ (x ≤ Qc_of_Z (len info - 1))%Qc ∧
  ((x < 0)%Qc → 2 ≤ len info).

(** The area under the interpolated table between [sec - 1] and [sec], a
    trapezoid, and the rise of the table there. *)
Definition cell_area (tbl : list Qc) (sec : Z) : Qc :=
  ((sample tbl (sec - 1) + sample tbl sec) / 2)%Qc.

Definition cell_rise (tbl : list Qc) (sec : Z) : Qc :=
  (sample tbl sec - sample tbl (sec - 1))%Qc.

(** The area under the interpolated table from 0 to [k], and the table of
    these areas. *)
Definition area_running (tbl : list Qc) (k : Z) : Qc :=
  Qcsum (cell_area tbl <$> seqZ 1 k).

Definition area_table (tbl : list Qc) : list Qc :=
  area_running tbl <$> seqZ 0 (Z.of_nat (length tbl)).

(** How far a rule with [n] subdivisions is from the area of a cell of the
    interpolated table, as a multiple of the rise of the table over the
    cell. *)
Definition rule_bias (algo n : Z) : Qc :=
  if decide (algo = LEFT_RIEMANN) then (- (1) / (2 * Qc_of_Z n))%Qc
  else if decide (algo = RIGHT_RIEMANN) then (1 / (2 * Qc_of_Z n))%Qc
  else 0%Qc.

(** The cubic [A + B * i + C * i^2 + D * i^3] of a sample index and an
    antiderivative of it. *)
Definition index_cubic (A B C D : Qc) (i : Z) : Qc :=
  (A + B * Qc_of_Z i + C * Qc_of_Z i * Qc_of_Z i
   + D * Qc_of_Z i * Qc_of_Z i * Qc_of_Z i)%Qc.

Definition index_primitive (A B C D : Qc) (i : Z) : Qc :=
  (A * Qc_of_Z i + B * Qc_of_Z i * Qc_of_Z i / 2
   + C * Qc_of_Z i * Qc_of_Z i * Qc_of_Z i / (1 + 2)
   + D * Qc_of_Z i * Qc_of_Z i * Qc_of_Z i * Qc_of_Z i / (2 + 2))%Qc.

(** The rules that are exact on the interpolated table: the midpoint rule,
    the trapezoidal rule, and Simpson's rule with an even subdivision
    count. *)
Definition exact_rule (args : sim_args) : Prop :=
  algo args = MID_RIEMANN ∨ algo args = TRAPEZOIDAL ∨
  (algo args = SIMPSONS ∧ Z.even (step args) = true).

(** Whether the benchmark loop of [n] iterations reaches the two [printf]
    of its last iteration: no earlier iteration leaves the loop, which it
    does when its first reading of the clock succeeds and its second
    fails, and both readings of the last iteration succeed. *)
Definition clocks_from (w : os) (c n : Z) : bool :=
  forallb (λ j, implb (clock_start_ok w j) (clock_end_ok w j)) (seqZ c (n - 1 - c))
  && clock_start_ok w (n - 1) && clock_end_ok w (n - 1).

Definition prints (w : os) (args : sim_args) : bool :=
  malloc_ok w && clocks_from w 0 (iterations args).

(** The acceleration table of the example run. *)
Definition example_table : list Qc := Qc_of_Z <$> [0; 1; 2; 3].

(** An operating system whose clock fails once, at the end of the second
    of three benchmark iterations. *)
Definition failing_clock_os : os := {|
  malloc_ok := true;
  uninit := λ _, Qc_of_Z 7;
  clock_start_ok := λ _, true;
  clock_end_ok := λ c, negb (c =? 1);
  omp_schedule := λ _ _, [[3]; [1; 2]]
|}.

(** A table without samples. *)
Definition empty_mem : mem := {[ 1%positive := [] ]}.

Definition empty_lut : lut_info := {| len := 0; lut := 1%positive |}.

(** ** summation.c on binary64 doubles

    The functions of [summation.c] once more, with a C [double] as the IEEE
    754 binary64 number it is when gcc compiles the file for x86-64 with
    the flags of the Makefile ([float], the kernel's primitive type): each
    operation rounds its own result to nearest, ties to even, and overflows
    to an infinity; there is no fused multiply-add and no excess precision,
    and a division by zero gives an infinity or a NaN.  The control flow
    and the [int32_t] arithmetic are those of the exact embedding above; a
    table is held by its descriptor, as nothing here writes to memory.
    This second embedding tells where rounding makes a result differ from
    the exact one. *)

Module binary64.
Import Floats.

(** [(double)z] for an [int32_t] [z]; the conversion is exact. *)
Definition of_int32 (z : Z) : float :=
  if decide (0 ≤ z) then of_uint63 (Uint63.of_Z z)
  else (- of_uint63 (Uint63.of_Z (- z)))%float.

(** [floor(x)] of [math.h]: a double without a fractional part, an
    infinity and a NaN are returned as they are. *)
Definition floor (x : float) : float :=
  match Prim2SF x with
  | S754_finite s m e =>
      if decide (0 ≤ e) then x
      else if decide (Z.pos m mod 2 ^ (- e) = 0) then x
      else if s then (- of_uint63 (Uint63.of_Z (Z.pos m / 2 ^ (- e) + 1)))%float
      else of_uint63 (Uint63.of_Z (Z.pos m / 2 ^ (- e)))
  | _ => x
  end.

(** [(int32_t)x]: the fractional part is discarded; undefined when the
    integral part does not fit, and for an infinity or a NaN. *)
Definition to_int32 (x : float) : outcome Z :=
  match Prim2SF x with
  | S754_zero _ => Ret 0
  | S754_finite s m e =>
      let q := if decide (0 ≤ e) then Z.pos m * 2 ^ e else Z.pos m / 2 ^ (- e) in
      let z := if s then - q else q in
      if decide (in_int32 z) then Ret z else Stuck
  | _ => Stuck
  end.

(** The rational a finite double stands for. *)
Definition to_Q (x : float) : Q :=
  match Prim2SF x with
  | S754_finite s m e =>
      let v := (inject_Z (Z.pos m) * Qpower 2 e)%Q in
      if s then (- v)%Q else v
  | _ => 0%Q
  end.

(** [struct lut_info { int32_t len; double* lut; }], with the array in the
    place of the pointer to it. *)
Record lut_info : Type := { len : Z; lut : list float }.

(** [get_lut_index], lines 8 to 24. *)
Definition get_lut_index (info : lut_info) (index : Z) : outcome float :=
  if decide (index < 0 ∨ len info ≤ index) then Exit index (len info)
  else
    match lut info !! Z.to_nat index with
    | Some v => Ret v
    | None => Stuck
    end.

(** [calc_linear_interpolation], lines 28 to 52. *)
Definition calc_linear_interpolation (context : lut_info) (x : float) : outcome float :=
  if PrimFloat.eqb (floor x) x then
    index ← to_int32 x;
    get_lut_index context index
  else
    x0_index ← to_int32 x;
    x1_index ← int32_add x0_index 1;
    let x0 := of_int32 x0_index in
    y0 ← get_lut_index context x0_index;
    y1 ← get_lut_index context x1_index;
    Ret (y0 + (x - x0) * (y1 - y0))%float.

(** The five rules, lines 56 to 159. *)
Section summation.
Context {C : Type}.

Definition summation_cb : Type := C → float → outcome float.
Definition summation : Type := float → float → Z → C → summation_cb → outcome float.

Definition left_riemann : summation := λ lower upper iterations context cb,
  let step := ((upper - lower) / of_int32 iterations)%float in
  sum ← for_lt 0 iterations (λ iter sum,
    let x := (lower + of_int32 iter * step)%float in
    r ← cb context x;
    Ret (sum + r)%float) 0%float;
  Ret (step * sum)%float.

Definition mid_riemann : summation := λ lower upper iterations context cb,
  let step := ((upper - lower) / of_int32 iterations)%float in
  let half_step := (step / 2)%float in
  sum ← for_lt 0 iterations (λ iter sum,
    let x := ((lower + of_int32 iter * step) + half_step)%float in
    r ← cb context x;
    Ret (sum + r)%float) 0%float;
  Ret (step * sum)%float.

Definition right_riemann : summation := λ lower upper iterations context cb,
  let step := ((upper - lower) / of_int32 iterations)%float in
  sum ← for_lt 0 iterations (λ iter sum,
    iter1 ← int32_add iter 1;
    let x := (lower + of_int32 iter1 * step)%float in
    r ← cb context x;
    Ret (sum + r)%float) 0%float;
  Ret (step * sum)%float.

Definition trapezoidal : summation := λ lower upper iterations context cb,
  let step := ((upper - lower) / of_int32 iterations)%float in
  fl ← cb context lower;
  fu ← cb context upper;
  sum ← for_lt 1 iterations (λ iter sum,
    let x := (lower + of_int32 iter * step)%float in
    r ← cb context x;
    Ret (sum + r)%float) ((fl + fu) / 2)%float;
  Ret (step * sum)%float.

Definition simpsons : summation := λ lower upper iterations context cb,
  let step := ((upper - lower) / of_int32 iterations)%float in
  sum ← for_le 0 iterations (λ iter sum,
    let x := (lower + of_int32 iter * step)%float in
    res ← cb context x;
    if decide (iter = 0 ∨ iter = iterations) then Ret (sum + res)%float
    else if decide (Z.rem iter 2 = 1) then Ret (sum + 4 * res)%float
    else Ret (sum + 2 * res)%float) 0%float;
  Ret (step * sum / 3)%float.
End summation.
Arguments summation_cb : clear implicits.
Arguments summation : clear implicits.

(** [f(x) = k] and [f(x) = m * x + b] as callbacks. *)
Definition constant (k : float) : summation_cb unit := λ _ _, Ret k.

Definition linear (m b : float) : summation_cb unit := λ _ x, Ret (m * x + b)%float.
End binary64.

(** * Properties *)

(** ** Numbers *)

Lemma int32_add_ok a b : in_int32 (a + b) → int32_add a b = Ret (a + b).
Proof. intros H. unfold int32_add. by rewrite decide_True. Qed.

Lemma int32_add_overflow a b : INT32_MAX < a + b → int32_add a b = Stuck.
Proof.
  intros H. unfold int32_add. rewrite decide_False; [done|].
  unfold in_int32. lia.
Qed.

Lemma Qfloor_of_Z z : Qfloor (Qc_of_Z z) = z.
Proof. apply Qfloor_Z. Qed.

Lemma floor_of_Z z : floor (Qc_of_Z z) = Qc_of_Z z.
Proof. unfold floor. by rewrite Qfloor_of_Z. Qed.

Lemma trunc_of_Z z : trunc (Qc_of_Z z) = z.
Proof. unfold trunc. simpl. apply Z.quot_1_r. Qed.

Lemma Qfloor_between z (x : Qc) :
  (Qc_of_Z z ≤ x)%Qc → (x < Qc_of_Z (z + 1))%Qc → Qfloor x = z.
Proof.
  intros Hle Hlt. apply Z.le_antisymm.
  - apply Z.lt_succ_r. rewrite Zlt_Qlt.
    eapply Qle_lt_trans; [apply Qfloor_le|]. exact Hlt.
  - rewrite <-(Qfloor_Z z). by apply Qfloor_resp_le.
Qed.

Lemma trunc_nonneg (x : Qc) : (0 ≤ x)%Qc → trunc x = Qfloor x.
Proof.
  intros Hx. unfold trunc. destruct x as [[n d] Hc]; simpl in *.
  apply Z.quot_div_nonneg; [|lia].
  unfold Qcle, Qle in Hx; simpl in Hx. lia.
Qed.

Lemma Qc_of_Z_nonneg z : 0 ≤ z → (0 ≤ Qc_of_Z z)%Qc.
Proof. intros. by rewrite <-Z2Qc_inj_0, <-Z2Qc_inj_le. Qed.

Lemma Qc_of_Z_pos z : 0 < z → (0 < Qc_of_Z z)%Qc.
Proof. intros. by rewrite <-Z2Qc_inj_0, <-Z2Qc_inj_lt. Qed.

Lemma Qc_of_Z_ne_0 z : z ≠ 0 → Qc_of_Z z ≠ 0%Qc.
Proof. intros Hz. rewrite <-Z2Qc_inj_0. by intros ?%Z2Qc_inj. Qed.

Lemma Qc_of_Z_succ z : Qc_of_Z (z + 1) = (Qc_of_Z z + 1)%Qc.
Proof. by rewrite Z2Qc_inj_add, Z2Qc_inj_1. Qed.

Lemma fdiv_ok a n : n ≠ 0 → fdiv a (Qc_of_Z n) = Ret (a / Qc_of_Z n)%Qc.
Proof.
  intros Hn. unfold fdiv. rewrite decide_False; [done|]. by apply Qc_of_Z_ne_0.
Qed.

(** ** Table access *)

(** At an integral abscissa the interpolation is the stored sample. *)
Lemma calc_linear_interpolation_int (m : mem) info z :
  in_int32 z →
  calc_linear_interpolation (m, info) (Qc_of_Z z) = get_lut_index m info z.
Proof.
  intros Hz. unfold calc_linear_interpolation.
  rewrite decide_True by apply floor_of_Z.
  unfold double_to_int32. rewrite trunc_of_Z. by rewrite decide_True.
Qed.

(** Strictly between two consecutive non-negative integers the cast gives
    the lower one. *)
Lemma calc_linear_interpolation_frac (m : mem) info z (x : Qc) :
  0 ≤ z → in_int32 (z + 1) →
  (Qc_of_Z z < x)%Qc → (x < Qc_of_Z (z + 1))%Qc →
  calc_linear_interpolation (m, info) x =
    y0 ← get_lut_index m info z;
    y1 ← get_lut_index m info (z + 1);
    Ret (y0 + (x - Qc_of_Z z) * (y1 - y0))%Qc.
Proof.
  intros Hz0 Hz1 Hlo Hhi. unfold calc_linear_interpolation.
  assert (Qfloor x = z) as Hfl by (apply Qfloor_between; [by apply Qclt_le_weak|done]).
  assert (trunc x = z) as Htr.
  { rewrite trunc_nonneg; [done|]. apply Qclt_le_weak.
    eapply Qcle_lt_trans; [|exact Hlo]. by apply Qc_of_Z_nonneg. }
  rewrite decide_False.
  2:{ unfold floor. rewrite Hfl. intros Heq. rewrite Heq in Hlo.
      by apply Qclt_not_eq in Hlo. }
  unfold double_to_int32. rewrite Htr.
  rewrite decide_True by (unfold in_int32 in *; unfold INT32_MIN, INT32_MAX in *; lia).
  simpl. by rewrite int32_add_ok.
Qed.

Section table.
Context (m : mem) (info : lut_info) (a : list Qc).
Hypothesis Hblock : m !! lut info = Some a.
Hypothesis Hlen : Z.of_nat (length a) = len info.

Lemma get_lut_index_below index :
  index < 0 → get_lut_index m info index = Exit index (len info).
Proof. intros. unfold get_lut_index. rewrite decide_True; [done|by left]. Qed.

Lemma get_lut_index_above index :
  len info ≤ index → get_lut_index m info index = Exit index (len info).
Proof. intros. unfold get_lut_index. rewrite decide_True; [done|by right]. Qed.

Lemma get_lut_index_in index :
  0 ≤ index < len info →
  ∃ v, a !! Z.to_nat index = Some v ∧ get_lut_index m info index = Ret v.
Proof.
  intros Hi. unfold get_lut_index, load.
  rewrite decide_False by lia. rewrite Hblock, decide_True by lia.
  destruct (lookup_lt_is_Some_2 a (Z.to_nat index)) as [v Hv]; [lia|].
  exists v. by rewrite Hv.
Qed.

(** On a closed unit cell of the table the interpolation returns. *)
Lemma calc_linear_interpolation_total z (x : Qc) :
  0 ≤ z → z + 1 < len info → len info ≤ INT32_MAX →
  (Qc_of_Z z ≤ x)%Qc → (x ≤ Qc_of_Z (z + 1))%Qc →
  ∃ v, calc_linear_interpolation (m, info) x = Ret v.
Proof.
  intros Hz0 Hz1 Hmax Hlo Hhi.
  assert (in_int32 z ∧ in_int32 (z + 1)) as [Hi0 Hi1].
  { unfold in_int32, INT32_MIN, INT32_MAX in *. lia. }
  destruct (decide (x = Qc_of_Z z)) as [->|Hne0].
  { rewrite calc_linear_interpolation_int by done.
    destruct (get_lut_index_in z) as (v & _ & ->); [lia|]. by exists v. }
  destruct (decide (x = Qc_of_Z (z + 1))) as [->|Hne1].
  { rewrite calc_linear_interpolation_int by done.
    destruct (get_lut_index_in (z + 1)) as (v & _ & ->); [lia|]. by exists v. }
  assert (Qc_of_Z z < x)%Qc by (by destruct (Qcle_lt_or_eq _ _ Hlo)).
  assert (x < Qc_of_Z (z + 1))%Qc by (by destruct (Qcle_lt_or_eq _ _ Hhi)).
  rewrite (calc_linear_interpolation_frac m info z) by done.
  destruct (get_lut_index_in z) as (v0 & _ & ->); [lia|].
  destruct (get_lut_index_in (z + 1)) as (v1 & _ & ->); [lia|].
  simpl. eauto.
Qed.
End table.

(** The interpolation reads nothing but the table it is given. *)
Lemma calc_linear_interpolation_frame (m m' : mem) info info' x :
  len info = len info' → m !! lut info = m' !! lut info' →
  calc_linear_interpolation (m, info) x = calc_linear_interpolation (m', info') x.
Proof.
  intros Hl Heq. unfold calc_linear_interpolation, get_lut_index, load.
  by rewrite Hl, Heq.
Qed.

(** ** Counted loops *)

Lemma for_loop_ext {S} (body body' : Z → S → outcome S) trips i s :
  (∀ j t, body j t = body' j t) →
  for_loop body trips i s = for_loop body' trips i s.
Proof.
  intros Hext. revert i s. induction trips as [|k IH]; intros i s; [done|].
  simpl. rewrite Hext. destruct (body' i s); simpl; [|done..].
  destruct (int32_add i 1); simpl; [apply IH|done..].
Qed.

(** Total correctness of a counted loop under an invariant: the counter
    stays an [int32_t], every trip returns and re-establishes the invariant. *)
Lemma for_loop_inv {S} (I : Z → S → Prop) (body : Z → S → outcome S) trips lo s :
  INT32_MIN ≤ lo → lo + Z.of_nat trips ≤ INT32_MAX →
  I lo s →
  (∀ i t, lo ≤ i < lo + Z.of_nat trips → I i t →
     ∃ t', body i t = Ret t' ∧ I (i + 1) t') →
  ∃ s', for_loop body trips lo s = Ret s' ∧ I (lo + Z.of_nat trips) s'.
Proof.
  revert lo s. induction trips as [|k IH]; intros lo s Hlo Hhi HI Hbody.
  { exists s. split; [done|]. by replace (lo + Z.of_nat 0) with lo by lia. }
  destruct (Hbody lo s) as (s1 & Hs1 & HI1); [lia|done|].
  simpl. rewrite Hs1. simpl.
  rewrite int32_add_ok by (unfold in_int32; lia). simpl.
  destruct (IH (lo + 1) s1) as (s' & Hs' & HI'); [lia|lia|done| |].
  { intros i t Hi. apply Hbody. lia. }
  exists s'. split; [done|].
  by replace (lo + Z.of_nat (Datatypes.S k)) with (lo + 1 + Z.of_nat k) by lia.
Qed.

(** A loop whose last trip runs with the counter at [INT32_MAX] overflows
    when it increments the counter for the test that would end it. *)
Lemma for_loop_overflow {S} (body : Z → S → outcome S) trips lo s :
  INT32_MIN ≤ lo → (0 < trips)%nat → lo + Z.of_nat trips = INT32_MAX + 1 →
  (∀ i t, lo ≤ i ≤ INT32_MAX → ∃ t', body i t = Ret t') →
  for_loop body trips lo s = Stuck.
Proof.
  revert lo s. induction trips as [|k IH]; intros lo s Hlo Hpos Hhi Hbody; [lia|].
  destruct (Hbody lo s) as (s1 & Hs1); [lia|].
  simpl. rewrite Hs1. simpl.
  destruct k as [|k].
  { rewrite int32_add_overflow by lia. done. }
  rewrite int32_add_ok by (unfold in_int32; lia). simpl.
  apply IH; [lia..|]. intros i t Hi. apply Hbody. lia.
Qed.

Lemma for_each_ext {S} (body body' : Z → S → outcome S) l s :
  (∀ j t, j ∈ l → body j t = body' j t) →
  for_each body l s = for_each body' l s.
Proof.
  revert s. induction l as [|i l IH]; intros s Hext; [done|].
  simpl. rewrite Hext by left. destruct (body' i s); simpl; [|done..].
  apply IH. intros j t Hj. apply Hext. by right.
Qed.

(** ** Sample points of the rules *)

Section samples.
Local Open Scope Qc_scope.
Context (lower upper : Qc) (n : Z).
Hypothesis Hlu : lower ≤ upper.
Hypothesis Hn : (1 ≤ n)%Z.

Lemma convex_bounds (t : Qc) :
  0 ≤ t → t ≤ 1 → lower ≤ lower + t * (upper - lower) ∧ lower + t * (upper - lower) ≤ upper.
Proof.
  intros Ht0 Ht1.
  assert (0 ≤ upper - lower) as Hd.
  { apply (Qcplus_le_mono_r _ _ lower). by ring_simplify. }
  split.
  - rewrite <-(Qcplus_0_r lower) at 1. apply Qcplus_le_mono_l.
    by apply Qcmult_nonneg_nonneg.
  - replace upper with (lower + 1 * (upper - lower)) at 2 by ring.
    apply Qcplus_le_mono_l. by apply Qcmult_le_mono_nonneg_r.
Qed.

Lemma ratio_bounds (i k : Z) :
  (0 ≤ i ≤ k)%Z → (0 < k)%Z → 0 ≤ Qc_of_Z i / Qc_of_Z k ∧ Qc_of_Z i / Qc_of_Z k ≤ 1.
Proof.
  intros Hi Hk. pose proof (Qc_of_Z_pos k Hk) as Hkpos.
  pose proof (Qcinv_pos _ Hkpos) as Hinv.
  split.
  - apply Qcmult_nonneg_nonneg; [apply Qc_of_Z_nonneg; lia|by apply Qclt_le_weak].
  - replace 1 with (Qc_of_Z k / Qc_of_Z k).
    2:{ field. by apply Qc_of_Z_ne_0; lia. }
    apply Qcmult_le_mono_nonneg_r; [by apply Qclt_le_weak|].
    rewrite <-Z2Qc_inj_le. lia.
Qed.

(** [lower + iter * step] for [0 <= iter <= n] *)
Lemma sample_bounds (iter : Z) :
  (0 ≤ iter ≤ n)%Z →
  let x := lower + Qc_of_Z iter * ((upper - lower) / Qc_of_Z n) in
  lower ≤ x ∧ x ≤ upper.
Proof.
  intros Hi x. subst x.
  replace (lower + Qc_of_Z iter * ((upper - lower) / Qc_of_Z n))
    with (lower + (Qc_of_Z iter / Qc_of_Z n) * (upper - lower)).
  2:{ field. apply Qc_of_Z_ne_0. lia. }
  apply convex_bounds; apply ratio_bounds; lia.
Qed.

(** [(lower + iter * step) + step / 2] for [0 <= iter < n] *)
Lemma mid_sample_bounds (iter : Z) :
  (0 ≤ iter < n)%Z →
  let step := (upper - lower) / Qc_of_Z n in
  let x := (lower + Qc_of_Z iter * step) + step / 2 in
  lower ≤ x ∧ x ≤ upper.
Proof.
  intros Hi step x. subst x step.
  replace (lower + Qc_of_Z iter * ((upper - lower) / Qc_of_Z n)
             + (upper - lower) / Qc_of_Z n / 2)
    with (lower + (Qc_of_Z (2 * iter + 1) / Qc_of_Z (2 * n)) * (upper - lower)).
  2:{ rewrite Z2Qc_inj_add, !Z2Qc_inj_mul, Z2Qc_inj_1, Z2Qc_inj_2.
      field. split; [apply Qc_of_Z_ne_0; lia|]. by compute. }
  apply convex_bounds; apply ratio_bounds; lia.
Qed.
End samples.

(** ** The rules on a callback that returns on the whole interval *)

(** Apply [for_loop_inv] with invariant [I] to the loop in the goal. *)
Ltac loop_inv I :=
  match goal with
  | |- context [for_loop ?b ?t ?l ?s] =>
      let s' := fresh "s" in
      let Hs := fresh "Hs" in
      let HI := fresh "HI" in
      destruct (for_loop_inv I b t l s) as (s' & Hs & HI);
      [unfold INT32_MIN, INT32_MAX in *; try lia
      |unfold INT32_MIN, INT32_MAX in *; try lia
      | |
      |try (rewrite Hs; simpl)]
  end.

Section rules_total.
Local Open Scope Qc_scope.
Context {C : Type} (context : C) (cb : summation_cb C).
Context (lower upper : Qc) (n : Z).
Hypothesis Hlu : lower ≤ upper.
Hypothesis Hn : (1 ≤ n ≤ INT32_MAX)%Z.
Hypothesis Hcb : ∀ x, lower ≤ x → x ≤ upper → ∃ v, cb context x = Ret v.

Lemma left_riemann_total : ∃ v, left_riemann lower upper n context cb = Ret v.
Proof.
  unfold left_riemann, for_lt. rewrite fdiv_ok by lia. simpl.
  loop_inv (λ (_ : Z) (_ : Qc), True); [done| |by eauto].
  intros i t Hi _.
  destruct (sample_bounds lower upper n Hlu (proj1 Hn) i) as [H1 H2]; [lia|].
  destruct (Hcb _ H1 H2) as [v ->]. simpl. eauto.
Qed.

Lemma mid_riemann_total : ∃ v, mid_riemann lower upper n context cb = Ret v.
Proof.
  unfold mid_riemann, for_lt. rewrite fdiv_ok by lia. simpl.
  loop_inv (λ (_ : Z) (_ : Qc), True); [done| |by eauto].
  intros i t Hi _.
  destruct (mid_sample_bounds lower upper n Hlu (proj1 Hn) i) as [H1 H2]; [lia|].
  destruct (Hcb _ H1 H2) as [v ->]. simpl. eauto.
Qed.

Lemma right_riemann_total : ∃ v, right_riemann lower upper n context cb = Ret v.
Proof.
  unfold right_riemann, for_lt. rewrite fdiv_ok by lia. simpl.
  loop_inv (λ (_ : Z) (_ : Qc), True); [done| |by eauto].
  intros i t Hi _.
  rewrite int32_add_ok by (unfold in_int32, INT32_MIN, INT32_MAX in *; lia). simpl.
  destruct (sample_bounds lower upper n Hlu (proj1 Hn) (i + 1)) as [H1 H2]; [lia|].
  destruct (Hcb _ H1 H2) as [v ->]. simpl. eauto.
Qed.

Lemma trapezoidal_total : ∃ v, trapezoidal lower upper n context cb = Ret v.
Proof.
  unfold trapezoidal, for_lt. rewrite fdiv_ok by lia. simpl.
  destruct (Hcb lower) as [fl ->]; [done..|].
  destruct (Hcb upper) as [fu ->]; [done..|]. simpl.
  loop_inv (λ (_ : Z) (_ : Qc), True); [done| |by eauto].
  intros i t Hi _.
  destruct (sample_bounds lower upper n Hlu (proj1 Hn) i) as [H1 H2]; [lia|].
  destruct (Hcb _ H1 H2) as [v ->]. simpl. eauto.
Qed.

Lemma simpsons_body_total i t :
  (0 ≤ i ≤ n)%Z →
  ∃ t', (res ← cb context (lower + Qc_of_Z i * ((upper - lower) / Qc_of_Z n));
         if decide (i = 0 ∨ i = n)%Z then Ret (t + res)
         else if decide (Z.rem i 2 = 1)%Z then Ret (t + Qc_of_Z 4 * res)
         else Ret (t + 2 * res)) = Ret t'.
Proof.
  intros Hi.
  destruct (sample_bounds lower upper n Hlu (proj1 Hn) i) as [H1 H2]; [lia|].
  destruct (Hcb _ H1 H2) as [v ->]. simpl. repeat case_decide; eauto.
Qed.

Lemma simpsons_total :
  (n < INT32_MAX)%Z → ∃ v, simpsons lower upper n context cb = Ret v.
Proof.
  intros Hlt. unfold simpsons, for_le. rewrite fdiv_ok by lia. simpl.
  loop_inv (λ (_ : Z) (_ : Qc), True); [done| |by eauto].
  intros i t Hi _.
  destruct (simpsons_body_total i t) as [t' Ht']; [lia|]. eauto.
Qed.

(** With [INT32_MAX] subdivisions the loop of [simpsons] still runs its
    last trip at [iter = iterations], and the increment that follows
    overflows. *)
Lemma simpsons_overflow :
  n = INT32_MAX → simpsons lower upper n context cb = Stuck.
Proof.
  intros Hmax. unfold simpsons, for_le. rewrite fdiv_ok by lia. simpl.
  rewrite for_loop_overflow; [done|unfold INT32_MIN, INT32_MAX in *; lia..|].
  intros i t Hi. apply simpsons_body_total. lia.
Qed.
End rules_total.

(** ** The rules depend on the callback only through its values *)

Section rules_ext.
Context {C : Type} (c c' : C) (cb cb' : summation_cb C).
Context (lower upper : Qc) (n : Z).
Hypothesis Hext : ∀ x, cb c x = cb' c' x.

Ltac ext_loop :=
  unfold for_lt, for_le;
  match goal with
  | |- context [for_loop ?b ?t ?l ?s] =>
      erewrite (for_loop_ext b); [reflexivity|]
  end;
  intros; simpl; rewrite ?Hext; reflexivity.

Lemma left_riemann_ext :
  left_riemann lower upper n c cb = left_riemann lower upper n c' cb'.
Proof. unfold left_riemann. destruct fdiv; simpl; [|done..]. ext_loop. Qed.

Lemma mid_riemann_ext :
  mid_riemann lower upper n c cb = mid_riemann lower upper n c' cb'.
Proof. unfold mid_riemann. destruct fdiv; simpl; [|done..]. ext_loop. Qed.

Lemma right_riemann_ext :
  right_riemann lower upper n c cb = right_riemann lower upper n c' cb'.
Proof.
  unfold right_riemann. destruct fdiv; simpl; [|done..].
  unfold for_lt. erewrite for_loop_ext; [reflexivity|].
  intros j t. simpl. destruct (int32_add j 1); simpl; [|done..].
  by rewrite Hext.
Qed.

Lemma trapezoidal_ext :
  trapezoidal lower upper n c cb = trapezoidal lower upper n c' cb'.
Proof.
  unfold trapezoidal. destruct fdiv; simpl; [|done..]. rewrite !Hext.
  destruct (cb' c' lower); simpl; [|done..].
  destruct (cb' c' upper); simpl; [|done..]. ext_loop.
Qed.

Lemma simpsons_ext :
  simpsons lower upper n c cb = simpsons lower upper n c' cb'.
Proof. unfold simpsons. destruct fdiv; simpl; [|done..]. ext_loop. Qed.
End rules_ext.

(** ** The rule selected by [algo] *)

Lemma select_summation_cases algo :
  (algo ≠ SIMPSONS ∧
     (select_summation algo = left_riemann ∨ select_summation algo = mid_riemann ∨
      select_summation algo = right_riemann ∨ select_summation algo = trapezoidal)) ∨
  (algo = SIMPSONS ∧ select_summation algo = simpsons).
Proof.
  unfold select_summation.
  repeat case_match; subst;
    first [by right | left; split; [by intros [=]|by auto]].
Qed.

Lemma select_summation_ext algo lower upper n (m m' : mem) info info' :
  len info = len info' → m !! lut info = m' !! lut info' →
  select_summation algo lower upper n (m, info) calc_linear_interpolation =
  select_summation algo lower upper n (m', info') calc_linear_interpolation.
Proof.
  intros Hl Heq.
  pose proof (λ x, calc_linear_interpolation_frame m m' info info' x Hl Heq) as Hext.
  destruct (select_summation_cases algo) as [[_ [-> | [-> | [-> | ->]]]] | [_ ->]];
    auto using left_riemann_ext, mid_riemann_ext, right_riemann_ext,
      trapezoidal_ext, simpsons_ext.
Qed.

Section intervals.
Context (m : mem) (info : lut_info) (a : list Qc).
Hypothesis Hblock : m !! lut info = Some a.
Hypothesis Hlen : Z.of_nat (length a) = len info.
Hypothesis Hmax : len info ≤ INT32_MAX.
Context (sec : Z).
Hypothesis Hsec : 1 ≤ sec < len info.

Lemma interval_order : (Qc_of_Z (sec - 1) ≤ Qc_of_Z sec)%Qc.
Proof. rewrite <-Z2Qc_inj_le. lia. Qed.

Lemma interval_total x :
  (Qc_of_Z (sec - 1) ≤ x)%Qc → (x ≤ Qc_of_Z sec)%Qc →
  ∃ v, calc_linear_interpolation (m, info) x = Ret v.
Proof.
  intros Hlo Hhi.
  apply (calc_linear_interpolation_total m info a Hblock Hlen (sec - 1));
    [lia|lia|done|done|]. by replace (sec - 1 + 1) with sec by lia.
Qed.

(** Every rule returns on the interval [sec - 1, sec] of a well-formed
    table, short of the counter overflow of [simpsons]. *)
Lemma select_summation_total algo n :
  1 ≤ n ≤ INT32_MAX → (algo = SIMPSONS → n < INT32_MAX) →
  ∃ v, select_summation algo (Qc_of_Z (sec - 1)) (Qc_of_Z sec) n
         (m, info) calc_linear_interpolation = Ret v.
Proof.
  intros Hn Hov.
  destruct (select_summation_cases algo) as [[_ [-> | [-> | [-> | ->]]]] | [Heq ->]].
  - apply left_riemann_total; auto using interval_order, interval_total.
  - apply mid_riemann_total; auto using interval_order, interval_total.
  - apply right_riemann_total; auto using interval_order, interval_total.
  - apply trapezoidal_total; auto using interval_order, interval_total.
  - apply simpsons_total; auto using interval_order, interval_total.
Qed.

Lemma select_summation_overflow algo n :
  algo = SIMPSONS → n = INT32_MAX →
  select_summation algo (Qc_of_Z (sec - 1)) (Qc_of_Z sec) n
    (m, info) calc_linear_interpolation = Stuck.
Proof.
  intros -> Hn. simpl.
  apply simpsons_overflow; auto using interval_order, interval_total.
  unfold INT32_MAX in *. lia.
Qed.
End intervals.

(** ** Sums of doubles *)

Lemma Qcsum_cons x l : Qcsum (x :: l) = (x + Qcsum l)%Qc.
Proof. done. Qed.

Lemma Qcsum_app l k : Qcsum (l ++ k) = (Qcsum l + Qcsum k)%Qc.
Proof.
  induction l as [|x l IH]; simpl; [by rewrite Qcplus_0_l|].
  rewrite IH. ring.
Qed.

Lemma Qcsum_snoc l x : Qcsum (l ++ [x]) = (Qcsum l + x)%Qc.
Proof. rewrite Qcsum_app. simpl. ring. Qed.

Lemma Qcsum_perm l k : l ≡ₚ k → Qcsum l = Qcsum k.
Proof.
  induction 1 as [|x l k _ IH|x y l|l k j _ IH1 _ IH2]; simpl.
  - done.
  - by rewrite IH.
  - ring.
  - by rewrite IH1.
Qed.

Lemma foldl_Qcplus a l : foldl Qcplus a l = (a + Qcsum l)%Qc.
Proof.
  revert a. induction l as [|x l IH]; intros a; simpl; [ring|].
  rewrite IH. ring.
Qed.

Lemma Qcsum_concat (ls : list (list Qc)) : Qcsum (concat ls) = Qcsum (Qcsum <$> ls).
Proof.
  induction ls as [|l ls IH]; simpl; [done|]. by rewrite Qcsum_app, IH.
Qed.

(** ** Loops that accumulate a sum *)

Lemma for_loop_sum (f : Z → Qc) (body : Z → Qc → outcome Qc) trips lo acc :
  INT32_MIN ≤ lo → lo + Z.of_nat trips ≤ INT32_MAX →
  (∀ i t, lo ≤ i < lo + Z.of_nat trips → body i t = Ret (t + f i)%Qc) →
  for_loop body trips lo acc = Ret (acc + Qcsum (f <$> seqZ lo (Z.of_nat trips)))%Qc.
Proof.
  revert lo acc. induction trips as [|k IH]; intros lo acc Hlo Hhi Hbody.
  { simpl. f_equal. ring. }
  rewrite seqZ_cons by lia. simpl.
  rewrite Hbody by lia. simpl.
  rewrite int32_add_ok by (unfold in_int32; lia). simpl.
  rewrite IH; [|lia|lia|intros; apply Hbody; lia].
  f_equal. replace (Z.pred (Z.of_nat (Datatypes.S k))) with (Z.of_nat k) by lia.
  replace (Z.succ lo) with (lo + 1) by lia. symmetry. apply Qcplus_assoc.
Qed.

Lemma for_each_sum (f : Z → Qc) (body : Z → Qc → outcome Qc) l acc :
  (∀ i t, i ∈ l → body i t = Ret (t + f i)%Qc) →
  for_each body l acc = Ret (acc + Qcsum (f <$> l))%Qc.
Proof.
  revert acc. induction l as [|i l IH]; intros acc Hbody; simpl.
  { f_equal. ring. }
  rewrite Hbody by left. simpl.
  rewrite IH by (intros; apply Hbody; by right).
  f_equal. symmetry. apply Qcplus_assoc.
Qed.

Lemma omp_partials_sum (f : Z → Qc) (body : Z → Qc → outcome Qc) chunks :
  (∀ i t, i ∈ concat chunks → body i t = Ret (t + f i)%Qc) →
  omp_partials chunks body = Ret ((λ chunk, Qcsum (f <$> chunk)) <$> chunks).
Proof.
  induction chunks as [|chunk chunks IH]; intros Hbody; simpl; [done|].
  simpl in Hbody. setoid_rewrite elem_of_app in Hbody.
  rewrite (for_each_sum f) by auto.
  simpl. rewrite IH by auto.
  simpl. do 2 f_equal. apply Qcplus_0_l.
Qed.

(** The reduction adds up every iteration, whatever the schedule. *)
Lemma omp_for_reduction_sum (f : Z → Qc) (body : Z → Qc → outcome Qc) chunks l acc :
  concat chunks ≡ₚ l →
  (∀ i t, i ∈ l → body i t = Ret (t + f i)%Qc) →
  omp_for_reduction chunks body acc = Ret (acc + Qcsum (f <$> l))%Qc.
Proof.
  intros Hperm Hbody. unfold omp_for_reduction.
  rewrite (omp_partials_sum f) by (intros i t Hi; apply Hbody; by rewrite <-Hperm).
  simpl. rewrite foldl_Qcplus.
  assert (Qcsum (f <$> l) = Qcsum (f <$> concat chunks)) as ->
    by (apply Qcsum_perm; by rewrite Hperm).
  do 2 f_equal.
  clear. induction chunks as [|chunk chunks IH]; [done|].
  by rewrite fmap_cons, Qcsum_cons, IH, concat_cons, fmap_app, Qcsum_app.
Qed.

(** ** The integral over one interval of a table *)

Lemma integral_eq algo n (m : mem) info tbl sec :
  m !! lut info = Some tbl → Z.of_nat (length tbl) = len info →
  select_summation algo (Qc_of_Z (sec - 1)) (Qc_of_Z sec) n
    (m, info) calc_linear_interpolation = integral algo n tbl sec.
Proof.
  intros Hm Hl. unfold integral. apply select_summation_ext; simpl; [done|].
  by rewrite Hm, lookup_singleton_eq.
Qed.

Lemma integral_total algo n tbl sec :
  1 ≤ sec < Z.of_nat (length tbl) → Z.of_nat (length tbl) ≤ INT32_MAX →
  1 ≤ n ≤ INT32_MAX → (algo = SIMPSONS → n < INT32_MAX) →
  integral algo n tbl sec = Ret (delta algo n tbl sec).
Proof.
  intros Hsec Hmax Hn Hov. unfold delta.
  assert (∃ v, integral algo n tbl sec = Ret v) as [v Hv]; [|by rewrite Hv].
  apply (select_summation_total _ _ tbl); simpl;
    first [done | apply lookup_singleton_eq].
Qed.

Lemma integral_overflow algo n tbl sec :
  1 ≤ sec < Z.of_nat (length tbl) → Z.of_nat (length tbl) ≤ INT32_MAX →
  algo = SIMPSONS → n = INT32_MAX →
  integral algo n tbl sec = Stuck.
Proof.
  intros Hsec Hmax Ha Hn. unfold integral.
  apply (select_summation_overflow _ _ tbl); simpl;
    first [done | apply lookup_singleton_eq].
Qed.

Lemma running_nonpos algo n tbl k : k ≤ 0 → running algo n tbl k = 0%Qc.
Proof. intros Hk. unfold running. by rewrite seqZ_nil. Qed.

Lemma running_step algo n tbl k :
  1 ≤ k → running algo n tbl k = (running algo n tbl (k - 1) + delta algo n tbl k)%Qc.
Proof.
  intros Hk. unfold running.
  replace k with (Z.of_nat (Datatypes.S (Z.to_nat (k - 1)))) at 1 by lia.
  rewrite seqZ_S, fmap_app, Qcsum_app.
  replace (Z.of_nat (Z.to_nat (k - 1))) with (k - 1) by lia.
  replace (1 + (k - 1)) with k by lia.
  f_equal. apply Qcplus_0_r.
Qed.

Lemma length_velocity_table algo n tbl :
  length (velocity_table algo n tbl) = length tbl.
Proof. unfold velocity_table. rewrite length_fmap, length_seqZ. lia. Qed.

Lemma lookup_velocity_table algo n tbl (j : nat) :
  (j < length tbl)%nat →
  velocity_table algo n tbl !! j = Some (running algo n tbl (Z.of_nat j)).
Proof.
  intros Hj. unfold velocity_table.
  rewrite list_lookup_fmap, lookup_seqZ_lt by lia. done.
Qed.

(** A table all of whose slots hold the running totals is the velocity table. *)
Lemma velocity_table_unique algo n tbl (v : list Qc) :
  length v = length tbl →
  (∀ j : nat, (j < length tbl)%nat → v !! j = Some (running algo n tbl (Z.of_nat j))) →
  v = velocity_table algo n tbl.
Proof.
  intros Hl Hv. apply list_eq. intros j.
  destruct (decide (j < length tbl)%nat) as [Hj|Hj].
  - by rewrite Hv, lookup_velocity_table.
  - rewrite !lookup_ge_None_2; [done|rewrite length_velocity_table; lia|lia].
Qed.

(** Total correctness of a loop over a list of iterations; the invariant
    sees the iterations already done. *)
Lemma for_each_inv {S} (I : list Z → S → Prop) (body : Z → S → outcome S) l done s :
  I done s →
  (∀ done' i t, i ∈ l → I done' t → ∃ t', body i t = Ret t' ∧ I (done' ++ [i]) t') →
  ∃ s', for_each body l s = Ret s' ∧ I (done ++ l) s'.
Proof.
  revert done s. induction l as [|i l IH]; intros done s HI Hbody.
  { exists s. by rewrite app_nil_r. }
  destruct (Hbody done i s) as (t' & Ht & HI'); [by left|done|].
  simpl. rewrite Ht. simpl.
  destruct (IH (done ++ [i]) t') as (s' & Hs' & HI''); [done| |].
  { intros done' j t Hj. apply Hbody. by right. }
  exists s'. split; [done|]. by rewrite <-app_assoc in HI''.
Qed.

(** Apply [for_each_inv] with invariant [I] to the loop in the goal. *)
Ltac each_inv I :=
  match goal with
  | |- context [for_each ?b ?l ?s] =>
      let s' := fresh "s" in
      let Hs := fresh "Hs" in
      let HI := fresh "HI" in
      destruct (for_each_inv I b l [] s) as (s' & Hs & HI);
      [ | |try (rewrite Hs; simpl)]
  end.

(** ** One benchmark iteration *)

Lemma store_insert (m : mem) p (v : list Qc) i x :
  0 ≤ i < Z.of_nat (length v) →
  store (<[p := v]> m) p i x = Ret (<[p := <[Z.to_nat i := x]> v]> m).
Proof.
  intros Hi. unfold store. rewrite lookup_insert_eq.
  rewrite decide_True by done. by rewrite insert_insert_eq.
Qed.

Lemma load_insert (m : mem) p (v : list Qc) i x :
  0 ≤ i → v !! Z.to_nat i = Some x → load (<[p := v]> m) p i = Ret x.
Proof.
  intros Hi Hx. unfold load. rewrite lookup_insert_eq.
  rewrite decide_True by done. by rewrite Hx.
Qed.

Section passes.
Context (w : os) (args : sim_args) (info vel_lut : lut_info) (acc : list Qc).
Hypothesis Hlen : Z.of_nat (length acc) = len info.
Hypothesis Hrange : 1 ≤ len info ≤ INT32_MAX.
Hypothesis Hvlen : len vel_lut = len info.
Hypothesis Hne : lut vel_lut ≠ lut info.
Hypothesis Hstep : 1 ≤ step args ≤ INT32_MAX.

Local Abbreviation pass_inv := (pass_inv info vel_lut acc).
Local Abbreviation no_overflow := (no_overflow args info).

Lemma pass_integral_acc (m : mem) v sec :
  m !! lut info = Some acc → no_overflow → 1 ≤ sec < len info →
  select_summation (algo args) (Qc_of_Z (sec - 1)) (Qc_of_Z sec) (step args)
    (<[lut vel_lut := v]> m, info) calc_linear_interpolation =
  Ret (delta (algo args) (step args) acc sec).
Proof.
  intros Hacc Hov Hsec.
  rewrite (integral_eq _ _ _ _ acc) by (by rewrite ?lookup_insert_ne).
  apply integral_total; try lia. destruct Hov; [lia|done].
Qed.

Lemma pass_integral_vel (m : mem) sec :
  no_overflow → 1 ≤ sec < len info →
  let v := velocity_table (algo args) (step args) acc in
  select_summation (algo args) (Qc_of_Z (sec - 1)) (Qc_of_Z sec) (step args)
    (<[lut vel_lut := v]> m, vel_lut) calc_linear_interpolation =
  Ret (delta (algo args) (step args) v sec).
Proof.
  intros Hov Hsec v.
  assert (length v = length acc) as Hl by apply length_velocity_table.
  rewrite (integral_eq _ _ _ _ v) by (rewrite ?lookup_insert_eq; done || lia).
  apply integral_total; try lia. destruct Hov; [lia|done].
Qed.

Lemma run_sim_pass_spec c m :
  pass_inv m → no_overflow →
  run_sim_pass (select_summation (algo args)) args info vel_lut c m =
  Ret (<[lut vel_lut := velocity_table (algo args) (step args) acc]> m,
       {| velocity := final_velocity (algo args) (step args) acc;
          position := final_position (algo args) (step args) acc |}).
Proof.
  intros (Hacc & v & Hv & Hvl & Hv0) Hov. unfold run_sim_pass, for_lt.
  loop_inv (λ sec (st : mem * Qc), ∃ v',
    st = (<[lut vel_lut := v']> m, running (algo args) (step args) acc (sec - 1)) ∧
    length v' = length acc ∧
    ∀ j : nat, Z.of_nat j < sec →
      v' !! j = Some (running (algo args) (step args) acc (Z.of_nat j))).
  - exists v. split_and!; [|done|].
    + by rewrite insert_id, running_nonpos by (done || lia).
    + intros j Hj. replace j with 0%nat by lia. by rewrite running_nonpos.
  - intros sec [m' vf] Hsec (v' & [= -> ->] & Hl' & Hlook).
    rewrite pass_integral_acc by (done || lia). simpl.
    rewrite store_insert by lia. simpl.
    eexists. split; [done|].
    eexists. split_and!; [f_equal| |].
    + replace (sec + 1 - 1) with sec by lia. symmetry. apply running_step. lia.
    + by rewrite length_insert.
    + intros j Hj. destruct (decide (j = Z.to_nat sec)) as [->|Hj'].
      * rewrite list_lookup_insert_eq by lia. f_equal.
        rewrite Z2Nat.id by lia. symmetry. apply running_step. lia.
      * rewrite list_lookup_insert_ne by done. apply Hlook. lia.
  - destruct HI as (v' & -> & Hl' & Hlook).
    rewrite (velocity_table_unique (algo args) (step args) acc v') by
      (done || intros; apply Hlook; lia).
    rewrite (for_loop_sum (delta (algo args) (step args)
               (velocity_table (algo args) (step args) acc))).
    + simpl. do 2 f_equal. unfold final_velocity, final_position.
      f_equal; [f_equal; lia|].
      rewrite Qcplus_0_l. do 3 f_equal. lia.
    + unfold INT32_MIN. lia.
    + unfold INT32_MAX in *. lia.
    + intros i t Hi. rewrite pass_integral_vel by (done || lia). done.
Qed.

Lemma run_sim_openmp_pass_spec c m :
  pass_inv m → no_overflow →
  omp_valid (threads args) 1 (len info) (omp_schedule w c 0) →
  omp_valid (threads args) 1 (len info) (omp_schedule w c 1) →
  run_sim_openmp_pass w (select_summation (algo args)) args info vel_lut c m =
  Ret (<[lut vel_lut := velocity_table (algo args) (step args) acc]> m,
       {| velocity := final_velocity (algo args) (step args) acc;
          position := final_position (algo args) (step args) acc |}).
Proof.
  intros (Hacc & v & Hv & Hvl & Hv0) Hov [_ Hp0] [_ Hp1].
  assert (∀ i k, i ∈ concat (omp_schedule w c k) →
            concat (omp_schedule w c k) ≡ₚ seqZ 1 (len info - 1) →
            1 ≤ i < len info) as Hin.
  { intros i k Hi Hp. rewrite Hp, elem_of_seqZ in Hi. lia. }
  unfold run_sim_openmp_pass, omp_for.
  (* phase A: the differences, each in its own slot *)
  each_inv (λ (done : list Z) (m' : mem), ∃ v',
    m' = <[lut vel_lut := v']> m ∧ length v' = length acc ∧
    v' !! 0%nat = Some 0%Qc ∧
    ∀ j, j ∈ done → 1 ≤ j < len info →
      v' !! Z.to_nat j = Some (delta (algo args) (step args) acc j)).
  { exists v. split_and!; [by rewrite insert_id|done|done|]. by intros j ?%elem_of_nil. }
  { intros done i m' Hi (v' & -> & Hl' & H0 & Hlook).
    apply Hin in Hi; [|done].
    rewrite pass_integral_acc by done. simpl.
    rewrite store_insert by lia.
    eexists. split; [done|]. eexists. split_and!; [done| | |].
    - by rewrite length_insert.
    - rewrite list_lookup_insert_ne by lia. done.
    - intros j Hj Hjr. destruct (decide (j = i)) as [->|Hji].
      + by rewrite list_lookup_insert_eq by lia.
      + rewrite list_lookup_insert_ne by lia. apply Hlook; [|done].
        apply elem_of_app in Hj as [Hj|Hj]; [done|].
        by apply list_elem_of_singleton in Hj. }
  destruct HI as (vA & -> & HlA & HA0 & HA). simpl in HA.
  assert (∀ j, 1 ≤ j < len info →
            vA !! Z.to_nat j = Some (delta (algo args) (step args) acc j)) as HA'.
  { intros j Hj. apply HA; [|done]. rewrite Hp0, elem_of_seqZ. lia. }
  (* phase B: the running totals *)
  unfold for_lt.
  loop_inv (λ idx (st : mem * Qc), ∃ v',
    st = (<[lut vel_lut := v']> m, running (algo args) (step args) acc (idx - 1)) ∧
    length v' = length acc ∧
    (∀ j : nat, Z.of_nat j < idx →
       v' !! j = Some (running (algo args) (step args) acc (Z.of_nat j))) ∧
    (∀ j : nat, idx ≤ Z.of_nat j → v' !! j = vA !! j)).
  - exists vA. split_and!; [|done| |done].
    + by rewrite running_nonpos by lia.
    + intros j Hj. lia.
  - intros idx [m' vf] Hidx (v' & [= -> ->] & Hl' & Hlo & Hhi).
    assert (∃ x, vA !! Z.to_nat idx = Some x ∧
              running (algo args) (step args) acc idx =
              (running (algo args) (step args) acc (idx - 1) + x)%Qc) as (x & Hx & Hrun).
    { destruct (decide (idx = 0)) as [->|Hnz].
      - exists 0%Qc. split; [done|]. rewrite !running_nonpos by lia. ring.
      - eexists. split; [apply HA'; lia|]. apply running_step. lia. }
    rewrite (load_insert _ _ _ _ x) by (rewrite ?Hhi; done || lia). simpl.
    rewrite store_insert by lia. simpl.
    eexists. split; [done|]. eexists. split_and!; [f_equal| | |].
    + by replace (idx + 1 - 1) with idx by lia.
    + by rewrite length_insert.
    + intros j Hj. destruct (decide (j = Z.to_nat idx)) as [->|Hj'].
      * rewrite list_lookup_insert_eq by lia. f_equal. by rewrite Z2Nat.id by lia.
      * rewrite list_lookup_insert_ne by done. apply Hlo. lia.
    + intros j Hj. rewrite list_lookup_insert_ne by lia. apply Hhi. lia.
  - destruct HI as (v' & -> & Hl' & Hlook & _).
    rewrite (velocity_table_unique (algo args) (step args) acc v') by
      (done || intros; apply Hlook; lia).
    rewrite (omp_for_reduction_sum (delta (algo args) (step args)
               (velocity_table (algo args) (step args) acc)) _ _
               (seqZ 1 (len info - 1))); [|done|].
    + simpl. do 2 f_equal. unfold final_velocity, final_position.
      f_equal; [f_equal; lia|].
      rewrite Qcplus_0_l. do 3 f_equal. lia.
    + intros i t Hi. rewrite elem_of_seqZ in Hi.
      rewrite pass_integral_vel by (done || lia). done.
Qed.

Lemma pass_inv_after m :
  pass_inv m →
  pass_inv (<[lut vel_lut := velocity_table (algo args) (step args) acc]> m).
Proof.
  intros (Hacc & _). split; [by rewrite lookup_insert_ne|].
  eexists. rewrite lookup_insert_eq. split_and!; [done|apply length_velocity_table|].
  rewrite lookup_velocity_table by lia. by rewrite running_nonpos.
Qed.

(** With [simpsons] and [INT32_MAX] subdivisions the first interval a pass
    integrates already overflows the counter. *)
Lemma run_sim_pass_overflow c m :
  pass_inv m → 2 ≤ len info → algo args = SIMPSONS → step args = INT32_MAX →
  run_sim_pass (select_summation (algo args)) args info vel_lut c m = Stuck.
Proof.
  intros (Hacc & _) Hl Ha Hs. unfold run_sim_pass, for_lt.
  destruct (Z.to_nat (len info - 1)) as [|k] eqn:Hk; [lia|]. simpl.
  rewrite (integral_eq _ _ _ _ acc) by done.
  by rewrite integral_overflow by (done || lia).
Qed.

Lemma run_sim_openmp_pass_overflow c m :
  pass_inv m → 2 ≤ len info → algo args = SIMPSONS → step args = INT32_MAX →
  omp_valid (threads args) 1 (len info) (omp_schedule w c 0) →
  run_sim_openmp_pass w (select_summation (algo args)) args info vel_lut c m = Stuck.
Proof.
  intros (Hacc & _) Hl Ha Hs [_ Hp]. unfold run_sim_openmp_pass, omp_for.
  destruct (concat (omp_schedule w c 0)) as [|i l] eqn:Hc.
  { apply Permutation_length in Hp. rewrite length_seqZ in Hp. simpl in Hp. lia. }
  assert (1 ≤ i < len info) as Hi.
  { assert (i ∈ seqZ 1 (len info - 1)) as Hi by (rewrite <-Hp; left).
    rewrite elem_of_seqZ in Hi. lia. }
  simpl. rewrite (integral_eq _ _ _ _ acc) by done.
  by rewrite integral_overflow by (done || lia).
Qed.


End passes.

(** ** Runs that return *)

Lemma bind_Ret_inv {A B} (o : outcome A) (k : A → outcome B) b :
  o ≫= k = Ret b → ∃ a, o = Ret a ∧ k a = Ret b.
Proof. destruct o as [a| |]; simpl; [eauto|done..]. Qed.

Lemma for_loop_ret_inv {S} (P : S → Prop) (body : Z → S → outcome S) trips i s s' :
  P s → (∀ j t t', P t → body j t = Ret t' → P t') →
  for_loop body trips i s = Ret s' → P s'.
Proof.
  intros HP Hbody. revert i s HP. induction trips as [|k IH]; intros i s HP; simpl.
  { by intros [= <-]. }
  intros (t & Ht & (i' & _ & Hrest)%bind_Ret_inv)%bind_Ret_inv.
  eapply IH; [|done]. eauto.
Qed.

Lemma for_each_ret_inv {S} (P : S → Prop) (body : Z → S → outcome S) l s s' :
  P s → (∀ j t t', P t → body j t = Ret t' → P t') →
  for_each body l s = Ret s' → P s'.
Proof.
  intros HP Hbody. revert s HP. induction l as [|i l IH]; intros s HP; simpl.
  { by intros [= <-]. }
  intros (t & Ht & Hrest)%bind_Ret_inv. eapply IH; [|done]. eauto.
Qed.

(** ** Writes stay inside the velocity buffer *)

Lemma same_outside_refl p m : same_outside p m m.
Proof. by intros q _. Qed.

Lemma same_outside_trans p m1 m2 m3 :
  same_outside p m1 m2 → same_outside p m2 m3 → same_outside p m1 m3.
Proof. intros H12 H23 q Hq. by rewrite H23, H12. Qed.

Lemma store_outside m p i x m' : store m p i x = Ret m' → same_outside p m m'.
Proof.
  unfold store. destruct (m !! p); [|done]. case_decide; [|done].
  intros [= <-] q Hq. by rewrite lookup_insert_ne.
Qed.

Lemma run_sim_pass_frame sum_cb args info vel_lut c m m' r :
  run_sim_pass sum_cb args info vel_lut c m = Ret (m', r) →
  same_outside (lut vel_lut) m m'.
Proof.
  unfold run_sim_pass.
  intros ([m1 vf] & Hvel & (pf & _ & [= <- _])%bind_Ret_inv)%bind_Ret_inv.
  apply (for_loop_ret_inv (λ st, same_outside (lut vel_lut) m st.1)) in Hvel;
    [done|apply same_outside_refl|].
  intros sec [m2 vf2] [m3 vf3] Hm2
    (d & _ & (m4 & Hst%store_outside & [= <- _])%bind_Ret_inv)%bind_Ret_inv.
  by eapply same_outside_trans.
Qed.

Lemma run_sim_openmp_pass_frame w sum_cb args info vel_lut c m m' r :
  run_sim_openmp_pass w sum_cb args info vel_lut c m = Ret (m', r) →
  same_outside (lut vel_lut) m m'.
Proof.
  unfold run_sim_openmp_pass, omp_for.
  intros (m1 & Hdiff & ([m2 vf] & Hscan & (pf & _ & [= <- _])%bind_Ret_inv)
            %bind_Ret_inv)%bind_Ret_inv.
  apply (for_each_ret_inv (same_outside (lut vel_lut) m)) in Hdiff;
    [|apply same_outside_refl|].
  2:{ intros sec m3 m4 Hm3 (d & _ & Hst%store_outside)%bind_Ret_inv.
      by eapply same_outside_trans. }
  apply (for_loop_ret_inv (λ st, same_outside (lut vel_lut) m st.1)) in Hscan;
    [done|done|].
  intros idx [m3 vf3] [m4 vf4] Hm3
    (x & _ & (m5 & Hst%store_outside & [= <- _])%bind_Ret_inv)%bind_Ret_inv.
  by eapply same_outside_trans.
Qed.

(** ** The benchmark loop *)

Lemma benchmark_ret_inv w args pass (P : mem → Prop) trips c m out m' out' :
  P m → (∀ c m m' r, P m → pass c m = Ret (m', r) → P m') →
  benchmark w args pass trips c m out = Ret (m', out') → P m'.
Proof.
  intros HP Hpass. revert c m out HP.
  induction trips as [|k IH]; intros c m out HP; simpl.
  { by intros [= <- _]. }
  destruct (clock_start_ok w c); simpl.
  - intros ([m1 r] & Hp & Hrest)%bind_Ret_inv.
    assert (P m1) by eauto.
    destruct (clock_end_ok w c); simpl in Hrest.
    + apply bind_Ret_inv in Hrest as (c' & _ & Hrest). by eapply IH.
    + by injection Hrest as <- _.
  - intros (c' & _ & Hrest)%bind_Ret_inv. by eapply IH.
Qed.


(** With a clock that works, and passes that return the same result every
    time, the loop runs to its end and prints that result. *)
Lemma benchmark_prints w args pass (Inv : mem → Prop) r trips c m out :
  (∀ c, clock_start_ok w c = true ∧ clock_end_ok w c = true) →
  (∀ c m, Inv m → ∃ m', pass c m = Ret (m', r) ∧ Inv m') →
  Inv m → 0 ≤ c → (0 < trips)%nat →
  c + Z.of_nat trips = iterations args → iterations args ≤ INT32_MAX →
  ∃ m', benchmark w args pass trips c m out = Ret (m', Some r) ∧ Inv m'.
Proof.
  intros Hclock Hpass. revert c m out.
  induction trips as [|k IH]; intros c m out HI Hc Hpos Hend Hmax; [lia|].
  simpl. destruct (Hclock c) as [-> ->]. simpl.
  destruct (Hpass c m HI) as (m1 & -> & HI1). simpl.
  rewrite int32_add_ok by (unfold in_int32, INT32_MIN, INT32_MAX in *; lia). simpl.
  destruct k as [|k].
  - simpl. rewrite decide_True by lia. eauto.
  - apply IH; [done|lia..].
Qed.

(** ** Whole runs *)

(** What [malloc] and the first store leave: a buffer of [len] doubles next
    to the acceleration table, zero in its first slot. *)
Lemma run_prelude w (m : mem) info acc :
  m !! lut info = Some acc → Z.of_nat (length acc) = len info → 1 ≤ len info →
  malloc_ok w = true →
  ∃ p m1 v, malloc w m (len info) = Some (p, m1) ∧
    store m1 p 0 0%Qc = Ret (<[p := v]> m) ∧
    m !! p = None ∧ p ≠ lut info ∧ length v = length acc ∧ v !! 0%nat = Some 0%Qc.
Proof.
  intros Hacc Hlen Hl Hok. unfold malloc.
  rewrite Hok, bool_decide_eq_true_2 by lia. simpl.
  set (p := fresh (dom m)).
  assert (m !! p = None) as Hp by apply not_elem_of_dom, is_fresh.
  assert (length (uninit w <$> seq 0 (Z.to_nat (len info))) = length acc) as Hbuf
    by (rewrite length_fmap, length_seq; lia).
  eexists p, _, _. split_and!; [done| |done| | |].
  - apply store_insert. lia.
  - intros ->. by rewrite Hacc in Hp.
  - by rewrite length_insert.
  - apply list_lookup_insert_eq. lia.
Qed.

Lemma pass_inv_intro info vel_lut acc (m : mem) p v :
  m !! lut info = Some acc → p = lut vel_lut → p ≠ lut info →
  length v = length acc → v !! 0%nat = Some 0%Qc →
  pass_inv info vel_lut acc (<[p := v]> m).
Proof.
  intros Hacc -> Hne Hl H0. split; [by rewrite lookup_insert_ne|].
  exists v. by rewrite lookup_insert_eq.
Qed.

(** A run that returns gives back the memory it was given. *)
Lemma run_sim_frame w args info m m' out :
  run_sim w args info m = Ret (m', out) → m' = m.
Proof.
  unfold run_sim, malloc.
  destruct (malloc_ok w && bool_decide (0 ≤ len info)); [|by intros [= <- _]].
  set (p := fresh (dom m)). simpl.
  assert (m !! p = None) as Hp by apply not_elem_of_dom, is_fresh.
  intros (m1 & Hst%store_outside & ([m2 o] & Hb & [= <- _])%bind_Ret_inv)%bind_Ret_inv.
  apply (benchmark_ret_inv _ _ _ (same_outside p m)) in Hb.
  - apply map_eq. intros q. unfold free. destruct (decide (q = p)) as [->|Hq].
    + by rewrite lookup_delete_eq.
    + by rewrite lookup_delete_ne, Hb.
  - intros q Hq. by rewrite Hst, lookup_insert_ne.
  - intros c m3 m4 r H3 H4%run_sim_pass_frame. by eapply same_outside_trans.
Qed.

Lemma run_sim_openmp_frame w args info m m' out :
  run_sim_openmp w args info m = Ret (m', out) → m' = m.
Proof.
  unfold run_sim_openmp, malloc.
  destruct (malloc_ok w && bool_decide (0 ≤ len info)); [|by intros [= <- _]].
  set (p := fresh (dom m)). simpl.
  assert (m !! p = None) as Hp by apply not_elem_of_dom, is_fresh.
  intros (m1 & Hst%store_outside & ([m2 o] & Hb & [= <- _])%bind_Ret_inv)%bind_Ret_inv.
  apply (benchmark_ret_inv _ _ _ (same_outside p m)) in Hb.
  - apply map_eq. intros q. unfold free. destruct (decide (q = p)) as [->|Hq].
    + by rewrite lookup_delete_eq.
    + by rewrite lookup_delete_ne, Hb.
  - intros q Hq. by rewrite Hst, lookup_insert_ne.
  - intros c m3 m4 r H3 H4%run_sim_openmp_pass_frame. by eapply same_outside_trans.
Qed.

(** What a run prints when every system call succeeds and no call reaches
    the counter overflow of [simpsons]. *)
Lemma run_sim_spec w args info (m : mem) acc :
  m !! lut info = Some acc → Z.of_nat (length acc) = len info →
  1 ≤ len info ≤ INT32_MAX → args_wf args → no_overflow args info → os_ok w →
  run_sim w args info m =
  Ret (m, Some {| velocity := final_velocity (algo args) (step args) acc;
                  position := final_position (algo args) (step args) acc |}).
Proof.
  intros Hacc Hlen Hl (_ & _ & Hstep & Hit) Hov [Hmalloc Hclock].
  destruct (run_prelude w m info acc) as (p & m1 & v & Hm & Hst & Hp & Hne & Hv & Hv0);
    [done|done|lia|done|].
  set (r := {| velocity := final_velocity (algo args) (step args) acc;
               position := final_position (algo args) (step args) acc |}).
  set (vel_lut := {| len := len info; lut := p |}).
  destruct (benchmark_prints w args
              (run_sim_pass (select_summation (algo args)) args info vel_lut)
              (pass_inv info vel_lut acc) r
              (Z.to_nat (iterations args)) 0 (<[p := v]> m) None)
    as (m2 & Hb & _); try done; try lia.
  { intros c m3 Hinv. eexists. split.
    - by apply (run_sim_pass_spec args info vel_lut acc).
    - by apply pass_inv_after. }
  { by apply pass_inv_intro. }
  assert (run_sim w args info m = Ret (free m2 p, Some r)) as Hrun.
  { unfold run_sim. rewrite Hm. simpl. rewrite Hst. simpl.
    fold vel_lut. by rewrite Hb. }
  by rewrite Hrun, (run_sim_frame _ _ _ _ _ _ Hrun).
Qed.

Lemma run_sim_openmp_spec w args info (m : mem) acc :
  m !! lut info = Some acc → Z.of_nat (length acc) = len info →
  1 ≤ len info ≤ INT32_MAX → args_wf args → no_overflow args info → os_ok w →
  os_wf w args info →
  run_sim_openmp w args info m =
  Ret (m, Some {| velocity := final_velocity (algo args) (step args) acc;
                  position := final_position (algo args) (step args) acc |}).
Proof.
  intros Hacc Hlen Hl (_ & _ & Hstep & Hit) Hov [Hmalloc Hclock] Hos.
  destruct (run_prelude w m info acc) as (p & m1 & v & Hm & Hst & Hp & Hne & Hv & Hv0);
    [done|done|lia|done|].
  set (r := {| velocity := final_velocity (algo args) (step args) acc;
               position := final_position (algo args) (step args) acc |}).
  set (vel_lut := {| len := len info; lut := p |}).
  destruct (benchmark_prints w args
              (run_sim_openmp_pass w (select_summation (algo args)) args info vel_lut)
              (pass_inv info vel_lut acc) r
              (Z.to_nat (iterations args)) 0 (<[p := v]> m) None)
    as (m2 & Hb & _); try done; try lia.
  { intros c m3 Hinv. eexists. split.
    - by apply (run_sim_openmp_pass_spec w args info vel_lut acc).
    - by apply pass_inv_after. }
  { by apply pass_inv_intro. }
  assert (run_sim_openmp w args info m = Ret (free m2 p, Some r)) as Hrun.
  { unfold run_sim_openmp. rewrite Hm. simpl. rewrite Hst. simpl.
    fold vel_lut. by rewrite Hb. }
  by rewrite Hrun, (run_sim_openmp_frame _ _ _ _ _ _ Hrun).
Qed.



(** * The claims *)



(** With [simpsons] and [INT32_MAX] subdivisions a run stops being defined
    in its first benchmark iteration. *)
Lemma run_sim_overflow w args info m :
  lut_wf m info → 2 ≤ len info → algo args = SIMPSONS → step args = INT32_MAX →
  1 ≤ iterations args → malloc_ok w = true → clock_start_ok w 0 = true →
  run_sim w args info m = Stuck.
Proof.
  intros (acc & Hacc & Hlen & Hl) Hl2 Ha Hs Hit Hok Hclock.
  destruct (run_prelude w m info acc) as (p & m1 & v & Hm & Hst & Hp & Hne & Hv & Hv0);
    [done|done|lia|done|].
  unfold run_sim. rewrite Hm. simpl. rewrite Hst. simpl.
  destruct (Z.to_nat (iterations args)) as [|k] eqn:Hk; [lia|].
  simpl. rewrite Hclock. simpl.
  rewrite (run_sim_pass_overflow args info _ acc);
    first [done | by apply pass_inv_intro].
Qed.

Lemma run_sim_openmp_overflow w args info m :
  lut_wf m info → 2 ≤ len info → algo args = SIMPSONS → step args = INT32_MAX →
  1 ≤ iterations args → malloc_ok w = true → clock_start_ok w 0 = true →
  omp_valid (threads args) 1 (len info) (omp_schedule w 0 0) →
  run_sim_openmp w args info m = Stuck.
Proof.
  intros (acc & Hacc & Hlen & Hl) Hl2 Ha Hs Hit Hok Hclock Hsched.
  destruct (run_prelude w m info acc) as (p & m1 & v & Hm & Hst & Hp & Hne & Hv & Hv0);
    [done|done|lia|done|].
  unfold run_sim_openmp. rewrite Hm. simpl. rewrite Hst. simpl.
  destruct (Z.to_nat (iterations args)) as [|k] eqn:Hk; [lia|].
  simpl. rewrite Hclock. simpl.
  rewrite (run_sim_openmp_pass_overflow w args info _ acc);
    first [done | by apply pass_inv_intro].
Qed.

(** C4. The inclusive loop of [simpsons] cannot end when the subdivision
    count is [INT32_MAX], a value [parse_step_arg] accepts: after the trip
    at [iter = iterations] the counter is incremented past the largest
    [int32_t].  On the table [0, 1, 2, 3] both pipelines integrate the first
    interval and so leave defined behaviour; where the counter wraps around
    to [INT32_MIN], the next trip reads the table at index [-1].  The claim
    has every access stay in bounds for every subdivision count. *)
Theorem simpsons_int32_max_stuck :
  run_sim example_os overflow_args example_lut example_mem = Stuck ∧
  run_sim_openmp example_os overflow_args example_lut example_mem = Stuck ∧
  calc_linear_interpolation (example_mem, example_lut)
    (0 + Qc_of_Z INT32_MIN * ((1 - 0) / Qc_of_Z INT32_MAX))%Qc = Exit (-1) 4.
Proof.
  assert (lut_wf example_mem example_lut) as Hwf.
  { exists (Qc_of_Z <$> [0; 1; 2; 3]). by vm_compute. }
  assert (2 ≤ len example_lut) as Hlen by (simpl; lia).
  assert (1 ≤ iterations overflow_args) as Hit by (simpl; lia).
  split_and!.
  - exact (run_sim_overflow example_os overflow_args example_lut example_mem
             Hwf Hlen eq_refl eq_refl Hit eq_refl eq_refl).
  - apply (run_sim_openmp_overflow example_os overflow_args example_lut example_mem
             Hwf Hlen eq_refl eq_refl Hit eq_refl eq_refl).
    split; [simpl; lia|]. by apply (bool_decide_unpack _).
  - compute_done.
Qed.

(** C10. A complete run of either pipeline, all benchmark iterations
    included, gives back the memory it was given: every sample of the
    acceleration table reads as before, and the only block written, the
    velocity buffer the run allocated, is gone again. *)
Theorem run_leaves_memory w args info m m' out :
  run_sim w args info m = Ret (m', out) ∨
  run_sim_openmp w args info m = Ret (m', out) →
  (∀ index, get_lut_index m' info index = get_lut_index m info index) ∧ m' = m.
Proof.
  intros [Hrun%run_sim_frame|Hrun%run_sim_openmp_frame]; by subst.
Qed.

Lemma run_leaves_memory_witness :
  let out := Some {| velocity := Qc_of_Z 9 / 2; position := Qc_of_Z 19 / Qc_of_Z 4 |}%Qc in
  (run_sim example_os example_args example_lut example_mem = Ret (example_mem, out) ∨
   run_sim_openmp example_os example_args example_lut example_mem
     = Ret (example_mem, out)) ∧
  (∀ index, get_lut_index example_mem example_lut index =
            get_lut_index example_mem example_lut index) ∧
  example_mem = example_mem.
Proof.
  assert (run_sim example_os example_args example_lut example_mem =
          Ret (example_mem,
               Some {| velocity := Qc_of_Z 9 / 2;
                       position := Qc_of_Z 19 / Qc_of_Z 4 |}%Qc)) as Hrun
    by compute_done.
  split; [by left|].
  exact (run_leaves_memory example_os example_args example_lut
           example_mem example_mem _ (or_introl Hrun)).
Defined.

(** C5. On the acceleration table [0, 1, 2, 3] with the left Riemann sum and
    one subdivision, a pass of the sequential pipeline leaves the velocity
    table [0, 0, 1, 3], and the run prints final velocity 3 and final
    position 1. *)
Theorem scenario_left_riemann w :
  os_ok w →
  (∀ c (v : list Qc), length v = 4%nat → v !! 0%nat = Some 0%Qc →
     run_sim_pass (select_summation LEFT_RIEMANN) scenario_args example_lut
       {| len := 4; lut := 2%positive |} c (<[2%positive := v]> example_mem) =
     Ret (<[2%positive := Qc_of_Z <$> [0; 0; 1; 3]]> example_mem,
          {| velocity := Qc_of_Z 3; position := 1%Qc |})) ∧
  run_sim w scenario_args example_lut example_mem =
    Ret (example_mem, Some {| velocity := Qc_of_Z 3; position := 1%Qc |}).
Proof.
  intros Hok.
  assert (velocity_table LEFT_RIEMANN 1 (Qc_of_Z <$> [0; 1; 2; 3]) =
          Qc_of_Z <$> [0; 0; 1; 3]) as Hvel by compute_done.
  assert (final_velocity LEFT_RIEMANN 1 (Qc_of_Z <$> [0; 1; 2; 3]) = Qc_of_Z 3)
    as Hfv by compute_done.
  assert (final_position LEFT_RIEMANN 1 (Qc_of_Z <$> [0; 1; 2; 3]) = 1%Qc)
    as Hfp by compute_done.
  assert (Z.of_nat (length (Qc_of_Z <$> [0; 1; 2; 3])) = len example_lut) as Hlen
    by (vm_compute; reflexivity).
  assert (1 ≤ len example_lut ≤ INT32_MAX) as Hrange
    by (unfold INT32_MAX; simpl; lia).
  assert (1 ≤ step scenario_args ≤ INT32_MAX) as Hstep
    by (unfold INT32_MAX; simpl; lia).
  assert (no_overflow scenario_args example_lut) as Hov by (by right).
  split.
  - intros c v Hl Hv0.
    rewrite (run_sim_pass_spec scenario_args example_lut
               {| len := 4; lut := 2%positive |} (Qc_of_Z <$> [0; 1; 2; 3])
               Hlen Hrange eq_refl).
    + cbn [algo step lut scenario_args]. by rewrite Hvel, Hfv, Hfp, insert_insert_eq.
    + discriminate.
    + exact Hstep.
    + split; [reflexivity|]. exists v. rewrite lookup_insert_eq. by split_and!.
    + exact Hov.
  - rewrite (run_sim_spec w scenario_args example_lut example_mem
               (Qc_of_Z <$> [0; 1; 2; 3]) eq_refl Hlen Hrange).
    + cbn [algo step scenario_args]. by rewrite Hfv, Hfp.
    + unfold args_wf, INT32_MAX. simpl. lia.
    + exact Hov.
    + exact Hok.
Qed.

Lemma scenario_left_riemann_witness :
  os_ok example_os ∧
  (∀ c (v : list Qc), length v = 4%nat → v !! 0%nat = Some 0%Qc →
     run_sim_pass (select_summation LEFT_RIEMANN) scenario_args example_lut
       {| len := 4; lut := 2%positive |} c (<[2%positive := v]> example_mem) =
     Ret (<[2%positive := Qc_of_Z <$> [0; 0; 1; 3]]> example_mem,
          {| velocity := Qc_of_Z 3; position := 1%Qc |})) ∧
  run_sim example_os scenario_args example_lut example_mem =
    Ret (example_mem, Some {| velocity := Qc_of_Z 3; position := 1%Qc |}).
Proof.
  assert (os_ok example_os) as Hok by done.
  split; [done|]. exact (scenario_left_riemann example_os Hok).
Defined.

(** C7. On a table of one sample both pipelines integrate nothing, whatever
    the rule and the subdivision count, and print final velocity 0 and final
    position 0. *)
Theorem single_sample_run w args x :
  os_ok w → args_wf args → os_wf w args single_lut →
  run_sim w args single_lut (single_mem x) =
    Ret (single_mem x, Some {| velocity := 0%Qc; position := 0%Qc |}) ∧
  run_sim_openmp w args single_lut (single_mem x) =
    Ret (single_mem x, Some {| velocity := 0%Qc; position := 0%Qc |}).
Proof.
  intros Hok Hargs Hos.
  assert (1 ≤ len single_lut ≤ INT32_MAX) as Hl by (unfold INT32_MAX; simpl; lia).
  assert (no_overflow args single_lut) as Hov by (by left).
  split.
  - by rewrite (run_sim_spec w args single_lut (single_mem x) [x] eq_refl eq_refl
                  Hl Hargs Hov Hok).
  - by rewrite (run_sim_openmp_spec w args single_lut (single_mem x) [x] eq_refl eq_refl
                  Hl Hargs Hov Hok Hos).
Qed.

Lemma single_sample_run_witness :
  let w := {| malloc_ok := true; uninit := λ _, 1%Qc;
              clock_start_ok := λ _, true; clock_end_ok := λ _, true;
              omp_schedule := λ _ _, [[]; []] |} in
  os_ok w ∧ args_wf example_args ∧ os_wf w example_args single_lut ∧
  run_sim w example_args single_lut (single_mem (Qc_of_Z 5)) =
    Ret (single_mem (Qc_of_Z 5), Some {| velocity := 0%Qc; position := 0%Qc |}) ∧
  run_sim_openmp w example_args single_lut (single_mem (Qc_of_Z 5)) =
    Ret (single_mem (Qc_of_Z 5), Some {| velocity := 0%Qc; position := 0%Qc |}).
Proof.
  intros w.
  assert (os_ok w) as H1 by done.
  assert (args_wf example_args) as H2 by (by vm_compute).
  assert (os_wf w example_args single_lut) as H3.
  { intros c k. split; [by vm_compute|]. by apply (bool_decide_unpack _). }
  split_and!; [done..| |]; by apply single_sample_run.
Defined.

(** C8. On every table of at least one sample, [get_lut_index] ends the run
    with the out-of-bounds error at index [-1] and at index [len], and
    returns the stored sample at index [0] and at index [len - 1]. *)
Theorem get_lut_index_bounds (m : mem) info (a : list Qc) :
  m !! lut info = Some a → Z.of_nat (length a) = len info → 1 ≤ len info →
  get_lut_index m info (-1) = Exit (-1) (len info) ∧
  get_lut_index m info (len info) = Exit (len info) (len info) ∧
  (∃ v, a !! 0%nat = Some v ∧ get_lut_index m info 0 = Ret v) ∧
  (∃ v, a !! Z.to_nat (len info - 1) = Some v ∧
        get_lut_index m info (len info - 1) = Ret v).
Proof.
  intros Hm Hlen Hl. split_and!.
  - apply get_lut_index_below. lia.
  - apply get_lut_index_above. lia.
  - apply (get_lut_index_in m info a Hm Hlen 0). lia.
  - apply (get_lut_index_in m info a Hm Hlen). lia.
Qed.

Lemma get_lut_index_bounds_witness :
  get_lut_index example_mem example_lut (-1) = Exit (-1) 4 ∧
  get_lut_index example_mem example_lut 4 = Exit 4 4 ∧
  (∃ v, (Qc_of_Z <$> [0; 1; 2; 3]) !! 0%nat = Some v ∧
        get_lut_index example_mem example_lut 0 = Ret v) ∧
  (∃ v, (Qc_of_Z <$> [0; 1; 2; 3]) !! 3%nat = Some v ∧
        get_lut_index example_mem example_lut 3 = Ret v).
Proof.
  apply (get_lut_index_bounds example_mem example_lut (Qc_of_Z <$> [0; 1; 2; 3]));
    [reflexivity|reflexivity|simpl; lia].
Defined.

(** C9, as amended. In exact arithmetic, with doubles as exact rationals,
    half-way between two consecutive samples the interpolation is exactly
    their mean. *)
Theorem calc_linear_interpolation_half (m : mem) info (a : list Qc) i y0 y1 :
  m !! lut info = Some a → Z.of_nat (length a) = len info → len info ≤ INT32_MAX →
  0 ≤ i ≤ len info - 2 →
  a !! Z.to_nat i = Some y0 → a !! Z.to_nat (i + 1) = Some y1 →
  calc_linear_interpolation (m, info) (Qc_of_Z i + 1 / 2)%Qc = Ret ((y0 + y1) / 2)%Qc.
Proof.
  intros Hm Hlen Hmax Hi H0 H1.
  rewrite (calc_linear_interpolation_frac m info i).
  - destruct (get_lut_index_in m info a Hm Hlen i) as (v0 & Hv0 & ->); [lia|].
    destruct (get_lut_index_in m info a Hm Hlen (i + 1)) as (v1 & Hv1 & ->); [lia|].
    simpl. rewrite H0 in Hv0. rewrite H1 in Hv1.
    injection Hv0 as <-. injection Hv1 as <-. f_equal. field. done.
  - lia.
  - unfold in_int32, INT32_MIN, INT32_MAX in *. lia.
  - rewrite <-(Qcplus_0_r (Qc_of_Z i)) at 1. by apply Qcplus_lt_mono_l.
  - rewrite Qc_of_Z_succ. by apply Qcplus_lt_mono_l.
Qed.

Lemma calc_linear_interpolation_half_witness :
  calc_linear_interpolation (example_mem, example_lut) (Qc_of_Z 2 + 1 / 2)%Qc =
  Ret ((Qc_of_Z 2 + Qc_of_Z 3) / 2)%Qc.
Proof.
  apply (calc_linear_interpolation_half example_mem example_lut
           (Qc_of_Z <$> [0; 1; 2; 3]) 2);
    [reflexivity|reflexivity|unfold INT32_MAX; simpl; lia|simpl; lia
    |reflexivity|reflexivity].
Defined.

Section interpolation_rounding.
Import Floats.

(** [floor] and the cast to [int32_t] on binary64 doubles round as those
    of C do: downwards the one, toward zero the other, and the cast is
    undefined from 2^31 on. *)
Lemma binary64_floor_and_cast :
  binary64.floor 0x1.8p+0 = 1%float ∧ binary64.floor (-0x1.8p+0) = (-2)%float ∧
  binary64.floor (-0x1p-1) = (-1)%float ∧ binary64.floor 3 = 3%float ∧
  binary64.to_int32 0x1.8p+0 = Ret 1 ∧ binary64.to_int32 (-0x1.8p+0) = Ret (-1) ∧
  binary64.to_int32 (-0x1p-1) = Ret 0 ∧ binary64.to_int32 (-0x1p+31) = Ret INT32_MIN ∧
  binary64.to_int32 0x1p+31 = Stuck ∧
  binary64.of_int32 (-3) = (-3)%float ∧ binary64.of_int32 INT32_MAX = 0x1.fffffffcp+30%float.
Proof. vm_compute. repeat split; reflexivity. Qed.

(** C9 as stated fails on binary64 doubles.  On the table of the doubles
    nearest to 0.1 and to 0.7, [calc_linear_interpolation] at 0.5 returns
    [0.1 + (0.5 - 0.0) * (0.7 - 0.1)] rounded at each operation, the double
    0.40000000000000002.  The mean of the two samples is below it, whether
    it is computed on doubles, which gives 0.39999999999999997, or
    exactly. *)
Lemma calc_linear_interpolation_half_rounds :
  binary64.calc_linear_interpolation
    {| binary64.len := 2;
       binary64.lut := [0x1.999999999999ap-4; 0x1.6666666666666p-1]%float |}
    (0 + 0x1p-1)%float = Ret 0x1.999999999999ap-2%float ∧
  ((0x1.999999999999ap-4 + 0x1.6666666666666p-1) / 2 = 0x1.9999999999999p-2)%float ∧
  (0x1.9999999999999p-2 <? 0x1.999999999999ap-2)%float = true ∧
  ((binary64.to_Q 0x1.999999999999ap-4%float
    + binary64.to_Q 0x1.6666666666666p-1%float) / 2
   < binary64.to_Q 0x1.999999999999ap-2%float)%Q.
Proof. vm_compute. repeat split; reflexivity. Qed.

(** On binary64 doubles the interpolation need not lie between the two
    samples either: between the doubles nearest to -1e308 and to 1e308
    their difference overflows, and the value returned at 0.5 is
    infinity. *)
Lemma calc_linear_interpolation_overflows :
  binary64.calc_linear_interpolation
    {| binary64.len := 2;
       binary64.lut := [-0x1.1ccf385ebc8ap+1023; 0x1.1ccf385ebc8ap+1023]%float |}
    0x1p-1%float = Ret infinity.
Proof. vm_compute. reflexivity. Qed.
End interpolation_rounding.

(** C6. At [x = -1/2], which is not an integer and whose floor [-1] is not
    an index, the cast to [int32_t] rounds toward zero: the two-sample table
    is read at indices 0 and 1 and the call returns an extrapolated value
    where the specification has it fail. *)
Theorem calc_linear_interpolation_negative_fraction :
  floor (- (1 / 2))%Qc = Qc_of_Z (-1) ∧
  get_lut_index two_mem two_lut (-1) = Exit (-1) 2 ∧
  calc_linear_interpolation (two_mem, two_lut) (- (1 / 2))%Qc = Ret 0%Qc.
Proof. split_and!; compute_done. Qed.

(** ** The rules as weighted sums of samples *)

Lemma Qc_of_Z_3 : Qc_of_Z 3 = (1 + 2)%Qc.
Proof. by apply Qc_is_canon. Qed.

Lemma Qc_of_Z_4 : Qc_of_Z 4 = (2 + 2)%Qc.
Proof. by apply Qc_is_canon. Qed.

(** Push the cast from [int32_t] down to the variables. *)
Ltac push_cast :=
  repeat first
    [ rewrite Z2Qc_inj_add | rewrite Z2Qc_inj_sub | rewrite Z2Qc_inj_mul
    | rewrite Z2Qc_inj_0 | rewrite Z2Qc_inj_1 | rewrite Z2Qc_inj_2
    | rewrite Qc_of_Z_3 | rewrite Qc_of_Z_4 ].

Section weighted_sums.
Local Open Scope Qc_scope.
Context {C : Type} (context : C) (cb : summation_cb C).
Context (lower upper : Qc) (n : Z) (g : Z → Qc).
Hypothesis Hn : (1 ≤ n ≤ INT32_MAX)%Z.

Lemma left_riemann_sum :
  (∀ i, (0 ≤ i < n)%Z →
     cb context (lower + Qc_of_Z i * ((upper - lower) / Qc_of_Z n)) = Ret (g i)) →
  left_riemann lower upper n context cb =
  Ret ((upper - lower) / Qc_of_Z n * Qcsum (g <$> seqZ 0 n)).
Proof.
  intros Hcb. unfold left_riemann, for_lt. rewrite fdiv_ok by lia. simpl.
  rewrite (for_loop_sum g); [|unfold INT32_MIN; lia|lia|].
  - rewrite Z2Nat.id by lia. simpl. rewrite Qcplus_0_l.
    by replace (n - 0)%Z with n by lia.
  - intros i t Hi. rewrite Hcb by lia. done.
Qed.

Lemma mid_riemann_sum :
  (∀ i, (0 ≤ i < n)%Z →
     cb context (lower + Qc_of_Z i * ((upper - lower) / Qc_of_Z n)
                 + (upper - lower) / Qc_of_Z n / 2) = Ret (g i)) →
  mid_riemann lower upper n context cb =
  Ret ((upper - lower) / Qc_of_Z n * Qcsum (g <$> seqZ 0 n)).
Proof.
  intros Hcb. unfold mid_riemann, for_lt. rewrite fdiv_ok by lia. simpl.
  rewrite (for_loop_sum g); [|unfold INT32_MIN; lia|lia|].
  - rewrite Z2Nat.id by lia. simpl. rewrite Qcplus_0_l.
    by replace (n - 0)%Z with n by lia.
  - intros i t Hi. rewrite Hcb by lia. done.
Qed.

Lemma right_riemann_sum :
  (∀ i, (0 ≤ i < n)%Z →
     cb context (lower + Qc_of_Z (i + 1) * ((upper - lower) / Qc_of_Z n)) = Ret (g i)) →
  right_riemann lower upper n context cb =
  Ret ((upper - lower) / Qc_of_Z n * Qcsum (g <$> seqZ 0 n)).
Proof.
  intros Hcb. unfold right_riemann, for_lt. rewrite fdiv_ok by lia. simpl.
  rewrite (for_loop_sum g); [|unfold INT32_MIN; lia|lia|].
  - rewrite Z2Nat.id by lia. simpl. rewrite Qcplus_0_l.
    by replace (n - 0)%Z with n by lia.
  - intros i t Hi.
    rewrite int32_add_ok by (unfold in_int32, INT32_MIN, INT32_MAX in *; lia).
    simpl. rewrite Hcb by lia. done.
Qed.

Lemma trapezoidal_sum fl fu :
  cb context lower = Ret fl → cb context upper = Ret fu →
  (∀ i, (1 ≤ i < n)%Z →
     cb context (lower + Qc_of_Z i * ((upper - lower) / Qc_of_Z n)) = Ret (g i)) →
  trapezoidal lower upper n context cb =
  Ret ((upper - lower) / Qc_of_Z n * ((fl + fu) / 2 + Qcsum (g <$> seqZ 1 (n - 1)))).
Proof.
  intros Hl Hu Hcb. unfold trapezoidal, for_lt. rewrite fdiv_ok by lia. simpl.
  rewrite Hl, Hu. simpl.
  rewrite (for_loop_sum g); [|unfold INT32_MIN; lia|lia|].
  - rewrite Z2Nat.id by lia. done.
  - intros i t Hi. rewrite Hcb by lia. done.
Qed.

Lemma simpsons_sum :
  (n < INT32_MAX)%Z →
  (∀ i, (0 ≤ i ≤ n)%Z →
     cb context (lower + Qc_of_Z i * ((upper - lower) / Qc_of_Z n)) = Ret (g i)) →
  simpsons lower upper n context cb =
  Ret ((upper - lower) / Qc_of_Z n
       * Qcsum ((λ i, simpson_weight n i * g i) <$> seqZ 0 (n + 1)) / Qc_of_Z 3).
Proof.
  intros Hlt Hcb. unfold simpsons, for_le. rewrite fdiv_ok by lia. simpl.
  rewrite (for_loop_sum (λ i, simpson_weight n i * g i)); [|unfold INT32_MIN; lia|lia|].
  - rewrite Z2Nat.id by lia. simpl. rewrite Qcplus_0_l.
    by replace (n + 1 - 0)%Z with (n + 1)%Z by lia.
  - intros i t Hi. rewrite Hcb by lia. simpl.
    unfold simpson_weight, interior_weight. repeat case_decide; f_equal; ring.
Qed.

(** The ends of Simpson's sum apart from what lies between. *)
Lemma simpson_sum_split :
  Qcsum ((λ i, simpson_weight n i * g i) <$> seqZ 0 (n + 1)) =
  g 0 + Qcsum ((λ i, interior_weight i * g i) <$> seqZ 1 (n - 1)) + g n.
Proof.
  replace (n + 1)%Z with (1 + (n - 1) + 1)%Z by lia.
  rewrite !seqZ_app by lia. rewrite !fmap_app, !Qcsum_app.
  replace (0 + 1)%Z with 1%Z by lia. replace (0 + (1 + (n - 1)))%Z with n by lia.
  change (seqZ 0 1) with [0%Z]. change (seqZ n 1) with [Z.of_nat 0 + n]%Z.
  rewrite !fmap_cons, !fmap_nil, !Qcsum_cons. change (Z.of_nat 0 + n)%Z with n.
  unfold Qcsum at 1 3. simpl foldr.
  assert (simpson_weight n 0 = 1) as -> by (unfold simpson_weight; by rewrite decide_True by lia).
  assert (simpson_weight n n = 1) as -> by (unfold simpson_weight; by rewrite decide_True by lia).
  rewrite (list_fmap_ext (λ i, simpson_weight n i * g i) (λ i, interior_weight i * g i)).
  - ring.
  - intros j i Hi. apply lookup_seqZ in Hi as [-> Hj].
    unfold simpson_weight. by rewrite decide_False by lia.
Qed.
End weighted_sums.

(** ** Closed forms of the sums *)

Lemma Qcsum_const k lo (t : nat) :
  Qcsum ((λ _ : Z, k) <$> seqZ lo (Z.of_nat t)) = (Qc_of_Z (Z.of_nat t) * k)%Qc.
Proof.
  induction t as [|t IH].
  { change (Z.of_nat 0) with 0. by rewrite Z2Qc_inj_0, Qcmult_0_l. }
  rewrite seqZ_S, fmap_app, Qcsum_app, IH.
  rewrite Nat2Z.inj_succ. unfold Z.succ. push_cast.
  rewrite fmap_cons, fmap_nil, Qcsum_cons. unfold Qcsum. simpl foldr. ring.
Qed.

Lemma Qcsum_affine A B (t : nat) :
  Qcsum ((λ i, A + B * Qc_of_Z i)%Qc <$> seqZ 1 (Z.of_nat t)) =
  (Qc_of_Z (Z.of_nat t) * A
   + B * (Qc_of_Z (Z.of_nat t) * (Qc_of_Z (Z.of_nat t) + 1)) / 2)%Qc.
Proof.
  induction t as [|t IH].
  { change (Z.of_nat 0) with 0. rewrite Z2Qc_inj_0. change (seqZ 1 0) with (@nil Z).
    rewrite fmap_nil. unfold Qcsum. simpl foldr. by field. }
  rewrite seqZ_S, fmap_app, Qcsum_app, IH.
  rewrite Nat2Z.inj_succ. unfold Z.succ.
  rewrite fmap_cons, fmap_nil, Qcsum_cons. unfold Qcsum at 1. simpl foldr.
  push_cast. by field.
Qed.

Lemma interior_weight_odd (q : Z) : 0 ≤ q → interior_weight (1 + 2 * q) = (2 + 2)%Qc.
Proof.
  intros Hq. unfold interior_weight. rewrite decide_True; [apply Qc_of_Z_4|].
  rewrite Z.rem_mod_nonneg by lia.
  rewrite (Z.mul_comm 2 q), Z.mod_add by lia. done.
Qed.

Lemma interior_weight_even (q : Z) : 0 ≤ q → interior_weight (2 * q) = 2%Qc.
Proof.
  intros Hq. unfold interior_weight. rewrite decide_False; [done|].
  rewrite Z.rem_mod_nonneg by lia.
  rewrite (Z.mul_comm 2 q), Z.mod_mul by lia. done.
Qed.

Lemma interior_affine_even A B (q : nat) :
  Qcsum ((λ i, interior_weight i * (A + B * Qc_of_Z i))%Qc
           <$> seqZ 1 (Z.of_nat (2 * q))) =
  ((2 + 2 + 2) * Qc_of_Z (Z.of_nat q) * A
   + ((2 + 2 + 2) * Qc_of_Z (Z.of_nat q) * Qc_of_Z (Z.of_nat q)
      + 2 * Qc_of_Z (Z.of_nat q)) * B)%Qc.
Proof.
  induction q as [|q IH].
  { change (Z.of_nat 0) with 0. rewrite Z2Qc_inj_0.
    change (seqZ 1 (Z.of_nat (2 * 0))) with (@nil Z).
    rewrite fmap_nil. unfold Qcsum. simpl foldr. ring. }
  replace (Z.of_nat (2 * Datatypes.S q)) with (Z.of_nat (2 * q) + 2) by lia.
  rewrite seqZ_app, fmap_app, Qcsum_app, IH by lia.
  replace (seqZ (1 + Z.of_nat (2 * q)) 2)
    with [1 + 2 * Z.of_nat q; 2 * (Z.of_nat q + 1)].
  2:{ rewrite seqZ_cons by lia. rewrite seqZ_cons by lia. rewrite seqZ_nil by lia.
      f_equal; [lia|f_equal; lia]. }
  rewrite !fmap_cons, fmap_nil, !Qcsum_cons. unfold Qcsum at 1. simpl foldr.
  rewrite interior_weight_odd, interior_weight_even by lia.
  rewrite Nat2Z.inj_succ. unfold Z.succ. push_cast. ring.
Qed.

(** ** Constant and linear integrands *)

(** The side conditions of [field]. *)
Ltac nonzero := repeat split; first [done | apply Qc_of_Z_ne_0; lia].

Lemma left_riemann_constant a k n :
  1 ≤ n ≤ INT32_MAX → left_riemann a (a + 1)%Qc n () (constant k) = Ret k.
Proof.
  intros Hn.
  rewrite (left_riemann_sum () (constant k) a (a + 1)%Qc n (λ _, k) Hn) by done.
  f_equal. replace n with (Z.of_nat (Z.to_nat n)) at 2 by lia.
  rewrite Qcsum_const, Z2Nat.id by lia. field. apply Qc_of_Z_ne_0. lia.
Qed.

Lemma mid_riemann_constant a k n :
  1 ≤ n ≤ INT32_MAX → mid_riemann a (a + 1)%Qc n () (constant k) = Ret k.
Proof.
  intros Hn.
  rewrite (mid_riemann_sum () (constant k) a (a + 1)%Qc n (λ _, k) Hn) by done.
  f_equal. replace n with (Z.of_nat (Z.to_nat n)) at 2 by lia.
  rewrite Qcsum_const, Z2Nat.id by lia. field. apply Qc_of_Z_ne_0. lia.
Qed.

Lemma right_riemann_constant a k n :
  1 ≤ n ≤ INT32_MAX → right_riemann a (a + 1)%Qc n () (constant k) = Ret k.
Proof.
  intros Hn.
  rewrite (right_riemann_sum () (constant k) a (a + 1)%Qc n (λ _, k) Hn) by done.
  f_equal. replace n with (Z.of_nat (Z.to_nat n)) at 2 by lia.
  rewrite Qcsum_const, Z2Nat.id by lia. field. apply Qc_of_Z_ne_0. lia.
Qed.

Lemma linear_sample m b lower upper n i :
  n ≠ 0 →
  linear m b () (lower + Qc_of_Z i * ((upper - lower) / Qc_of_Z n))%Qc =
  Ret ((m * lower + b) + (m * ((upper - lower) / Qc_of_Z n)) * Qc_of_Z i)%Qc.
Proof. intros Hn. unfold linear. f_equal. field. by apply Qc_of_Z_ne_0. Qed.

Lemma trapezoidal_linear m b lower upper n :
  1 ≤ n ≤ INT32_MAX →
  trapezoidal lower upper n () (linear m b) = Ret (linear_integral m b lower upper).
Proof.
  intros Hn.
  rewrite (trapezoidal_sum () (linear m b) lower upper n
             (λ i, (m * lower + b) + (m * ((upper - lower) / Qc_of_Z n)) * Qc_of_Z i)%Qc
             Hn (m * lower + b)%Qc (m * upper + b)%Qc);
    [|done|done|intros; apply linear_sample; lia].
  f_equal. replace (n - 1) with (Z.of_nat (Z.to_nat (n - 1))) by lia.
  rewrite Qcsum_affine, Z2Nat.id by lia. push_cast.
  unfold linear_integral. field. nonzero.
Qed.

Lemma even_below_int32_max n : Z.even n = true → n ≤ INT32_MAX → n < INT32_MAX.
Proof.
  intros Heven Hle. destruct (decide (n = INT32_MAX)) as [->|]; [|lia].
  by vm_compute in Heven.
Qed.

Lemma simpsons_linear m b lower upper n :
  1 ≤ n ≤ INT32_MAX → Z.even n = true →
  simpsons lower upper n () (linear m b) = Ret (linear_integral m b lower upper).
Proof.
  intros Hn Heven.
  pose proof (even_below_int32_max n Heven (proj2 Hn)) as Hlt.
  rewrite (simpsons_sum () (linear m b) lower upper n
             (λ i, (m * lower + b) + (m * ((upper - lower) / Qc_of_Z n)) * Qc_of_Z i)%Qc
             Hn Hlt) by (intros; apply linear_sample; lia).
  rewrite simpson_sum_split by done.
  apply Z.even_spec in Heven as [p Hp].
  replace (n - 1) with (Z.of_nat (2 * Z.to_nat (p - 1)) + 1) by lia.
  rewrite seqZ_app, fmap_app, Qcsum_app, interior_affine_even by lia.
  replace (seqZ (1 + Z.of_nat (2 * Z.to_nat (p - 1))) 1) with [1 + 2 * (p - 1)].
  2:{ rewrite seqZ_cons by lia. rewrite seqZ_nil by lia. f_equal. lia. }
  rewrite fmap_cons, fmap_nil, Qcsum_cons. unfold Qcsum at 1. simpl foldr.
  rewrite interior_weight_odd by lia. rewrite Z2Nat.id by lia.
  subst n. push_cast. unfold linear_integral. f_equal. field. nonzero.
Qed.

Lemma constant_as_linear k x : constant k () x = linear 0 k () x.
Proof. unfold constant, linear. f_equal. ring. Qed.

Lemma linear_integral_constant k a : linear_integral 0 k a (a + 1) = k.
Proof. unfold linear_integral. by field. Qed.

(** For an odd subdivision count the weights of [simpsons] add up to
    [3 * n - 1] instead of [3 * n]. *)
Lemma simpsons_constant_odd a k n :
  1 ≤ n < INT32_MAX → Z.odd n = true →
  simpsons a (a + 1)%Qc n () (constant k) =
  Ret (k * Qc_of_Z (3 * n - 1) / Qc_of_Z (3 * n))%Qc.
Proof.
  intros Hn Hodd.
  rewrite (simpsons_sum () (constant k) a (a + 1)%Qc n
             (λ i, k + 0 * Qc_of_Z i)%Qc) by
    (try lia; intros; unfold constant; f_equal; ring).
  rewrite simpson_sum_split by lia.
  apply Z.odd_spec in Hodd as [p Hp].
  replace (n - 1) with (Z.of_nat (2 * Z.to_nat p)) by lia.
  rewrite interior_affine_even, Z2Nat.id by lia.
  subst n.
  assert (Qc_of_Z (2 * p + 1) ≠ 0%Qc) as Hnz by (apply Qc_of_Z_ne_0; lia).
  revert Hnz. push_cast. intros Hnz. f_equal. field.
  split; [exact Hnz|done].
Qed.

(** C2, as amended. In exact arithmetic, with doubles as exact rationals,
    over a unit interval [a, a + 1] the constant integrand [k] integrates to
    exactly [k] under [left_riemann], [mid_riemann], [right_riemann] and
    [trapezoidal] for every subdivision count from 1 to [INT32_MAX], and
    under [simpsons] for every even one. *)
Theorem constant_integrand_exact (a k : Qc) (n : Z) :
  1 ≤ n ≤ INT32_MAX →
  left_riemann a (a + 1)%Qc n () (constant k) = Ret k ∧
  mid_riemann a (a + 1)%Qc n () (constant k) = Ret k ∧
  right_riemann a (a + 1)%Qc n () (constant k) = Ret k ∧
  trapezoidal a (a + 1)%Qc n () (constant k) = Ret k ∧
  (Z.even n = true → simpsons a (a + 1)%Qc n () (constant k) = Ret k).
Proof.
  intros Hn. split_and!.
  - by apply left_riemann_constant.
  - by apply mid_riemann_constant.
  - by apply right_riemann_constant.
  - rewrite (trapezoidal_ext () () (constant k) (linear 0 k)) by apply constant_as_linear.
    by rewrite trapezoidal_linear, linear_integral_constant.
  - intros Heven.
    rewrite (simpsons_ext () () (constant k) (linear 0 k)) by apply constant_as_linear.
    by rewrite simpsons_linear, linear_integral_constant.
Qed.

Lemma constant_integrand_exact_witness :
  1 ≤ 4 ≤ INT32_MAX ∧
  left_riemann (Qc_of_Z 2) (Qc_of_Z 2 + 1)%Qc 4 () (constant (Qc_of_Z 5)) = Ret (Qc_of_Z 5) ∧
  mid_riemann (Qc_of_Z 2) (Qc_of_Z 2 + 1)%Qc 4 () (constant (Qc_of_Z 5)) = Ret (Qc_of_Z 5) ∧
  right_riemann (Qc_of_Z 2) (Qc_of_Z 2 + 1)%Qc 4 () (constant (Qc_of_Z 5)) = Ret (Qc_of_Z 5) ∧
  trapezoidal (Qc_of_Z 2) (Qc_of_Z 2 + 1)%Qc 4 () (constant (Qc_of_Z 5)) = Ret (Qc_of_Z 5) ∧
  simpsons (Qc_of_Z 2) (Qc_of_Z 2 + 1)%Qc 4 () (constant (Qc_of_Z 5)) = Ret (Qc_of_Z 5).
Proof.
  assert (1 ≤ 4 ≤ INT32_MAX) as Hn by (unfold INT32_MAX; lia).
  destruct (constant_integrand_exact (Qc_of_Z 2) (Qc_of_Z 5) 4 Hn)
    as (Hleft & Hmid & Hright & Htrap & Hsimpson).
  split; [exact Hn|].
  exact (conj Hleft (conj Hmid (conj Hright (conj Htrap (Hsimpson eq_refl))))).
Defined.

Section integrand_rounding.
Import Floats.

(** C2 as stated fails in two ways.  For [simpsons] it fails whenever the
    subdivision count is odd: with one subdivision the constant 3
    integrates to 2, in exact arithmetic and on binary64 doubles alike.
    And on binary64 doubles it fails by rounding for each of the five
    rules, the subdivision count being even or not: over [0, 1] the
    constant 1 integrates to 1 - 2^-53 with 49 subdivisions, and under
    [simpsons] with 98. *)
Lemma constant_integrand_not_exact :
  (simpsons 0%Qc (0 + 1)%Qc 1 () (constant (Qc_of_Z 3)) = Ret 2%Qc ∧
   2%Qc ≠ Qc_of_Z 3 ∧
   binary64.simpsons 0%float (0 + 1)%float 1 () (binary64.constant 3%float)
   = Ret 2%float) ∧
  (binary64.left_riemann 0%float (0 + 1)%float 49 () (binary64.constant 1%float)
   = Ret 0x1.fffffffffffffp-1%float ∧
   binary64.mid_riemann 0%float (0 + 1)%float 49 () (binary64.constant 1%float)
   = Ret 0x1.fffffffffffffp-1%float ∧
   binary64.right_riemann 0%float (0 + 1)%float 49 () (binary64.constant 1%float)
   = Ret 0x1.fffffffffffffp-1%float ∧
   binary64.trapezoidal 0%float (0 + 1)%float 49 () (binary64.constant 1%float)
   = Ret 0x1.fffffffffffffp-1%float ∧
   binary64.simpsons 0%float (0 + 1)%float 98 () (binary64.constant 1%float)
   = Ret 0x1.fffffffffffffp-1%float ∧
   (0x1.fffffffffffffp-1 <? 1)%float = true).
Proof.
  split.
  - split_and!; [compute_done|done|by vm_compute].
  - vm_compute. repeat split; reflexivity.
Qed.

(** C3, as amended. In exact arithmetic, with doubles as exact rationals,
    [trapezoidal] integrates a linear integrand exactly over any interval
    for every subdivision count from 1 to [INT32_MAX], and [simpsons] does
    for every even one. *)
Theorem linear_integrand_exact (m b lower upper : Qc) (n : Z) :
  1 ≤ n ≤ INT32_MAX →
  trapezoidal lower upper n () (linear m b) = Ret (linear_integral m b lower upper) ∧
  (Z.even n = true →
   simpsons lower upper n () (linear m b) = Ret (linear_integral m b lower upper)).
Proof.
  intros Hn. split.
  - by apply trapezoidal_linear.
  - by apply simpsons_linear.
Qed.

Lemma linear_integrand_exact_witness :
  1 ≤ 2 ≤ INT32_MAX ∧
  trapezoidal 1%Qc (Qc_of_Z 3) 2 () (linear 2 1) = Ret (linear_integral 2 1 1 (Qc_of_Z 3)) ∧
  simpsons 1%Qc (Qc_of_Z 3) 2 () (linear 2 1) = Ret (linear_integral 2 1 1 (Qc_of_Z 3)).
Proof.
  assert (1 ≤ 2 ≤ INT32_MAX) as Hn by (unfold INT32_MAX; lia).
  destruct (linear_integrand_exact 2 1 1 (Qc_of_Z 3) 2 Hn) as (Htrap & Hsimpson).
  split; [exact Hn|]. split; [exact Htrap|exact (Hsimpson eq_refl)].
Defined.

(** C3 as stated fails in two ways.  For [simpsons] it fails whenever the
    subdivision count is odd: with one subdivision [f(x) = x] integrates
    over [0, 1] to 1/3, not 1/2.  And on binary64 doubles it fails by
    rounding for both rules: [f(x) = x] integrates over [0, 1] to
    0.49999999999999989 under [trapezoidal] with 7 subdivisions and to
    0.49999999999999983 under [simpsons] with 98, an even count, while 1/2
    is a double. *)
Lemma linear_integrand_not_exact :
  (simpsons 0%Qc 1%Qc 1 () (linear 1 0) = Ret (1 / Qc_of_Z 3)%Qc ∧
   linear_integral 1 0 0 1 = (1 / 2)%Qc ∧
   (1 / Qc_of_Z 3)%Qc ≠ (1 / 2)%Qc) ∧
  (binary64.trapezoidal 0%float 1%float 7 () (binary64.linear 1%float 0%float)
   = Ret 0x1.ffffffffffffep-2%float ∧
   binary64.simpsons 0%float 1%float 98 () (binary64.linear 1%float 0%float)
   = Ret 0x1.ffffffffffffdp-2%float ∧
   (0x1.ffffffffffffep-2 <? 0x1p-1)%float = true ∧
   (0x1.ffffffffffffdp-2 <? 0x1p-1)%float = true ∧
   Qeq (binary64.to_Q 0x1p-1%float) (linear_integral 1 0 0 1)).
Proof.
  split.
  - split_and!; [compute_done|compute_done|done].
  - vm_compute. repeat split; reflexivity.
Qed.
End integrand_rounding.

(** * Further properties of the code *)

(** ** summation.c and the pipelines *)

(** ** Sums over shifted and split ranges *)

Lemma Qcsum_nil : Qcsum [] = 0%Qc.
Proof. done. Qed.

Lemma Qcsum_singleton x : Qcsum [x] = x.
Proof. unfold Qcsum. simpl. ring. Qed.

Lemma Qcsum_seqZ_first (g : Z → Qc) lo n :
  1 ≤ n → Qcsum (g <$> seqZ lo n) = (g lo + Qcsum (g <$> seqZ (lo + 1)%Z (n - 1)%Z))%Qc.
Proof.
  intros Hn. rewrite seqZ_cons by lia. rewrite fmap_cons, Qcsum_cons.
  by replace (Z.succ lo) with (lo + 1) by lia; replace (Z.pred n) with (n - 1) by lia.
Qed.

Lemma Qcsum_seqZ_last (g : Z → Qc) lo n :
  1 ≤ n → Qcsum (g <$> seqZ lo n) = (Qcsum (g <$> seqZ lo (n - 1)%Z) + g (lo + n - 1)%Z)%Qc.
Proof.
  intros Hn. replace n with ((n - 1) + 1) at 1 by lia.
  rewrite seqZ_app by lia. rewrite fmap_app, Qcsum_app.
  rewrite (seqZ_cons (lo + (n - 1)) 1) by lia. rewrite (seqZ_nil _ (Z.pred 1)) by lia.
  rewrite fmap_cons, fmap_nil, Qcsum_singleton.
  by replace (lo + (n - 1)) with (lo + n - 1) by lia.
Qed.

Lemma Qcsum_seqZ_shift (g : Z → Qc) lo n :
  Qcsum ((λ i, g (i + 1)) <$> seqZ lo n) = Qcsum (g <$> seqZ (lo + 1) n).
Proof.
  replace (lo + 1) with (1 + lo) by lia.
  rewrite <-(fmap_add_seqZ 1 lo n), <-list_fmap_compose.
  f_equal. apply list_fmap_ext. intros _ i _. simpl. f_equal. lia.
Qed.

Lemma Qcsum_seqZ_ext (f g : Z → Qc) lo n :
  (∀ i, lo ≤ i < lo + n → f i = g i) →
  Qcsum (f <$> seqZ lo n) = Qcsum (g <$> seqZ lo n).
Proof.
  intros H. f_equal. apply list_fmap_ext. intros j i Hi.
  apply lookup_seqZ in Hi as [-> Hj]. apply H. lia.
Qed.

(** The sum of an affine sequence from index 0. *)
Lemma Qcsum_affine_0 A B n :
  0 ≤ n →
  Qcsum ((λ i, A + B * Qc_of_Z i)%Qc <$> seqZ 0 n) =
  (Qc_of_Z n * A + B * (Qc_of_Z n * (Qc_of_Z n - 1)) / 2)%Qc.
Proof.
  intros Hn. destruct (decide (n = 0)) as [->|Hn0].
  { change (seqZ 0 0) with (@nil Z). rewrite fmap_nil, Qcsum_nil. push_cast. by field. }
  rewrite Qcsum_seqZ_first by lia.
  replace (n - 1) with (Z.of_nat (Z.to_nat (n - 1))) by lia.
  change (0 + 1) with 1. rewrite Qcsum_affine.
  rewrite Z2Nat.id by lia. push_cast. by field.
Qed.

(** ** The rules on an integrand that returns everywhere *)

Section pure_rules.
Local Open Scope Qc_scope.
Context (f : Qc → Qc) (lower upper : Qc) (n : Z).
Hypothesis Hn : (1 ≤ n ≤ INT32_MAX)%Z.

Let h : Qc := (upper - lower) / Qc_of_Z n.
Let g (i : Z) : Qc := f (lower + Qc_of_Z i * h).

Lemma sample_first : lower + Qc_of_Z 0 * h = lower.
Proof. push_cast. ring. Qed.

Lemma sample_last : lower + Qc_of_Z n * h = upper.
Proof. unfold h. field. apply Qc_of_Z_ne_0. lia. Qed.

Lemma left_riemann_pure :
  left_riemann lower upper n () (pure_cb f) = Ret (h * Qcsum (g <$> seqZ 0 n)).
Proof. by apply left_riemann_sum. Qed.

Lemma right_riemann_pure :
  right_riemann lower upper n () (pure_cb f) = Ret (h * Qcsum (g <$> seqZ 1 n)).
Proof.
  rewrite (right_riemann_sum () (pure_cb f) lower upper n (λ i, g (i + 1)%Z) Hn) by done.
  by rewrite Qcsum_seqZ_shift.
Qed.

Lemma mid_riemann_pure :
  mid_riemann lower upper n () (pure_cb f) =
  Ret (h * Qcsum ((λ i, f (lower + Qc_of_Z i * h + h / 2)) <$> seqZ 0 n)).
Proof. by apply mid_riemann_sum. Qed.

Lemma trapezoidal_pure :
  trapezoidal lower upper n () (pure_cb f) =
  Ret (h * ((f lower + f upper) / 2 + Qcsum (g <$> seqZ 1 (n - 1)))).
Proof. by apply (trapezoidal_sum () (pure_cb f) lower upper n g Hn). Qed.

Lemma simpsons_pure :
  (n < INT32_MAX)%Z →
  simpsons lower upper n () (pure_cb f) =
  Ret (h * (g 0 + Qcsum ((λ i, interior_weight i * g i) <$> seqZ 1 (n - 1)) + g n)
       / Qc_of_Z 3).
Proof.
  intros Hlt.
  rewrite (simpsons_sum () (pure_cb f) lower upper n g Hn Hlt) by done.
  by rewrite simpson_sum_split by lia.
Qed.

Lemma trapezoidal_mean_of_sums :
  h * ((f lower + f upper) / 2 + Qcsum (g <$> seqZ 1 (n - 1))) =
  (h * Qcsum (g <$> seqZ 0 n) + h * Qcsum (g <$> seqZ 1 n)) / 2.
Proof.
  assert (g 0%Z = f lower) as H0 by (unfold g; by rewrite sample_first).
  assert (g n = f upper) as H1 by (unfold g; by rewrite sample_last).
  rewrite (Qcsum_seqZ_first g 0 n) by lia.
  rewrite (Qcsum_seqZ_last g 1 n) by lia.
  change (0 + 1)%Z with 1%Z. replace (1 + n - 1)%Z with n by lia.
  rewrite H0, H1. by field.
Qed.
End pure_rules.

(** X1. On an integrand that returns everywhere the trapezoidal rule is
    the mean of the left and the right Riemann sums with the same
    subdivision count. *)
Theorem trapezoidal_mean_left_right (f : Qc → Qc) lower upper n :
  1 ≤ n ≤ INT32_MAX →
  ∃ l r, left_riemann lower upper n () (pure_cb f) = Ret l ∧
         right_riemann lower upper n () (pure_cb f) = Ret r ∧
         trapezoidal lower upper n () (pure_cb f) = Ret ((l + r) / 2)%Qc.
Proof.
  intros Hn. eexists _, _. split_and!.
  - by apply left_riemann_pure.
  - by apply right_riemann_pure.
  - rewrite trapezoidal_pure by done. f_equal. by apply trapezoidal_mean_of_sums.
Qed.

Lemma trapezoidal_mean_left_right_witness :
  ∃ l r, left_riemann 0%Qc 1%Qc 4 () (pure_cb (λ x, x * x)%Qc) = Ret l ∧
         right_riemann 0%Qc 1%Qc 4 () (pure_cb (λ x, x * x)%Qc) = Ret r ∧
         trapezoidal 0%Qc 1%Qc 4 () (pure_cb (λ x, x * x)%Qc) = Ret ((l + r) / 2)%Qc.
Proof.
  apply (trapezoidal_mean_left_right (λ x, x * x)%Qc 0%Qc 1%Qc 4).
  unfold INT32_MAX. lia.
Defined.

(** ** Linear integrands under the three Riemann sums *)

Lemma linear_pure m b : linear m b = pure_cb (λ x, m * x + b)%Qc.
Proof. done. Qed.

Lemma left_riemann_linear m b lower upper n :
  1 ≤ n ≤ INT32_MAX →
  left_riemann lower upper n () (linear m b) =
  Ret (linear_integral m b lower upper
       - m * (upper - lower) * (upper - lower) / (2 * Qc_of_Z n))%Qc.
Proof.
  intros Hn. rewrite linear_pure, left_riemann_pure by done. f_equal.
  rewrite (Qcsum_seqZ_ext _
    (λ i, (m * lower + b) + (m * ((upper - lower) / Qc_of_Z n)) * Qc_of_Z i)%Qc)
    by (intros; ring).
  rewrite Qcsum_affine_0 by lia. unfold linear_integral. field. nonzero.
Qed.

Lemma right_riemann_linear m b lower upper n :
  1 ≤ n ≤ INT32_MAX →
  right_riemann lower upper n () (linear m b) =
  Ret (linear_integral m b lower upper
       + m * (upper - lower) * (upper - lower) / (2 * Qc_of_Z n))%Qc.
Proof.
  intros Hn. rewrite linear_pure, right_riemann_pure by done. f_equal.
  change (seqZ 1 n) with (seqZ (0 + 1) n). rewrite <-Qcsum_seqZ_shift.
  rewrite (Qcsum_seqZ_ext _
    (λ i, (m * lower + b + m * ((upper - lower) / Qc_of_Z n))
          + (m * ((upper - lower) / Qc_of_Z n)) * Qc_of_Z i)%Qc)
    by (intros; simpl; push_cast; ring).
  rewrite Qcsum_affine_0 by lia. unfold linear_integral. field. nonzero.
Qed.

Lemma mid_riemann_linear m b lower upper n :
  1 ≤ n ≤ INT32_MAX →
  mid_riemann lower upper n () (linear m b) = Ret (linear_integral m b lower upper).
Proof.
  intros Hn. rewrite linear_pure, mid_riemann_pure by done. f_equal.
  rewrite (Qcsum_seqZ_ext _
    (λ i, (m * lower + b + m * ((upper - lower) / Qc_of_Z n) / 2)
          + (m * ((upper - lower) / Qc_of_Z n)) * Qc_of_Z i)%Qc)
    by (intros; field; nonzero).
  rewrite Qcsum_affine_0 by lia. unfold linear_integral. field. nonzero.
Qed.

(** X2. The midpoint rule integrates a linear integrand exactly, for
    every subdivision count from 1 to [INT32_MAX]. *)
Theorem mid_riemann_linear_exact m b lower upper n :
  1 ≤ n ≤ INT32_MAX →
  mid_riemann lower upper n () (linear m b) = Ret (linear_integral m b lower upper).
Proof. apply mid_riemann_linear. Qed.

Lemma mid_riemann_linear_exact_witness :
  mid_riemann 0%Qc 1%Qc 3 () (linear 1 0) = Ret (linear_integral 1 0 0 1).
Proof. apply mid_riemann_linear_exact. unfold INT32_MAX. lia. Defined.

(** X3. On a linear integrand [m * x + b] the left Riemann sum with [n]
    subdivisions falls short of the integral by [m * (upper - lower)^2 /
    (2 * n)], and the right Riemann sum exceeds it by as much. *)
Theorem riemann_linear_error m b lower upper n :
  1 ≤ n ≤ INT32_MAX →
  left_riemann lower upper n () (linear m b) =
    Ret (linear_integral m b lower upper
         - m * (upper - lower) * (upper - lower) / (2 * Qc_of_Z n))%Qc ∧
  right_riemann lower upper n () (linear m b) =
    Ret (linear_integral m b lower upper
         + m * (upper - lower) * (upper - lower) / (2 * Qc_of_Z n))%Qc.
Proof.
  intros Hn. split; [by apply left_riemann_linear|by apply right_riemann_linear].
Qed.

Lemma riemann_linear_error_witness :
  left_riemann 0%Qc 1%Qc 2 () (linear 1 0) =
    Ret (linear_integral 1 0 0 1 - 1 * (1 - 0) * (1 - 0) / (2 * Qc_of_Z 2))%Qc ∧
  right_riemann 0%Qc 1%Qc 2 () (linear 1 0) =
    Ret (linear_integral 1 0 0 1 + 1 * (1 - 0) * (1 - 0) / (2 * Qc_of_Z 2))%Qc.
Proof. apply riemann_linear_error. unfold INT32_MAX. lia. Defined.

(** ** Simpson's rule on cubic integrands *)

Lemma nonzero_3 : (1 + 2)%Qc ≠ 0%Qc.
Proof. done. Qed.

Lemma nonzero_4 : (2 + 2)%Qc ≠ 0%Qc.
Proof. done. Qed.

(** Simpson's panel is exact on a cubic: telescoping over the panels. *)
Lemma interior_cubic_even A B C D (q : nat) :
  Qcsum ((λ i, interior_weight i * index_cubic A B C D i)%Qc
           <$> seqZ 1 (Z.of_nat (2 * q))) =
  ((1 + 2) * index_primitive A B C D (Z.of_nat (2 * q))
   - A + index_cubic A B C D (Z.of_nat (2 * q)))%Qc.
Proof.
  induction q as [|q IH].
  { change (Z.of_nat (2 * 0)) with 0.
    change (seqZ 1 0) with (@nil Z). rewrite fmap_nil, Qcsum_nil.
    unfold index_primitive, index_cubic. push_cast. field. done. }
  replace (Z.of_nat (2 * Datatypes.S q)) with (Z.of_nat (2 * q) + 2) by lia.
  rewrite seqZ_app, fmap_app, Qcsum_app, IH by lia.
  replace (seqZ (1 + Z.of_nat (2 * q)) 2)
    with [1 + 2 * Z.of_nat q; 2 * (Z.of_nat q + 1)].
  2:{ rewrite seqZ_cons by lia. rewrite seqZ_cons by lia. rewrite seqZ_nil by lia.
      f_equal; [lia|f_equal; lia]. }
  rewrite !fmap_cons, fmap_nil, !Qcsum_cons, Qcsum_nil.
  rewrite interior_weight_odd, interior_weight_even by lia.
  replace (Z.of_nat (2 * q)) with (2 * Z.of_nat q) by lia.
  unfold index_primitive, index_cubic. push_cast. field. done.
Qed.

(** X4. Simpson's rule with an even subdivision count integrates every
    polynomial of degree three or less exactly. *)
Theorem simpsons_cubic_exact c3 c2 c1 c0 lower upper n :
  1 ≤ n ≤ INT32_MAX → Z.even n = true →
  simpsons lower upper n () (cubic c3 c2 c1 c0) =
  Ret (cubic_primitive c3 c2 c1 c0 upper - cubic_primitive c3 c2 c1 c0 lower)%Qc.
Proof.
  intros Hn Heven.
  pose proof (even_below_int32_max n Heven (proj2 Hn)) as Hlt.
  change (cubic c3 c2 c1 c0)
    with (pure_cb (λ x, c3 * x * x * x + c2 * x * x + c1 * x + c0)%Qc).
  rewrite simpsons_pure by done.
  assert (upper = lower + Qc_of_Z n * ((upper - lower) / Qc_of_Z n))%Qc as Hu
    by (by rewrite sample_last).
  set (h := ((upper - lower) / Qc_of_Z n)%Qc) in *. clearbody h. subst upper.
  set (A := (c3 * lower * lower * lower + c2 * lower * lower + c1 * lower + c0)%Qc).
  set (B := ((1 + 2) * c3 * lower * lower * h + 2 * c2 * lower * h + c1 * h)%Qc).
  set (C := ((1 + 2) * c3 * lower * h * h + c2 * h * h)%Qc).
  set (D := (c3 * h * h * h)%Qc).
  assert (∀ i, (c3 * (lower + Qc_of_Z i * h) * (lower + Qc_of_Z i * h)
                  * (lower + Qc_of_Z i * h)
                + c2 * (lower + Qc_of_Z i * h) * (lower + Qc_of_Z i * h)
                + c1 * (lower + Qc_of_Z i * h) + c0)%Qc
               = index_cubic A B C D i) as Hg.
  { intros i. unfold index_cubic, A, B, C, D. ring. }
  rewrite !Hg.
  rewrite (Qcsum_seqZ_ext _ (λ i, interior_weight i * index_cubic A B C D i)%Qc)
    by (intros; by rewrite Hg).
  apply Z.even_spec in Heven as [p Hp].
  replace (n - 1) with (Z.of_nat (2 * Z.to_nat (p - 1)) + 1) by lia.
  rewrite seqZ_app, fmap_app, Qcsum_app, interior_cubic_even by lia.
  replace (seqZ (1 + Z.of_nat (2 * Z.to_nat (p - 1))) 1) with [1 + 2 * (p - 1)].
  2:{ rewrite seqZ_cons by lia. rewrite seqZ_nil by lia. f_equal. lia. }
  rewrite fmap_cons, fmap_nil, Qcsum_singleton.
  rewrite interior_weight_odd by lia.
  replace (Z.of_nat (2 * Z.to_nat (p - 1))) with (2 * (p - 1)) by lia.
  subst n. f_equal.
  unfold index_primitive, index_cubic, cubic_primitive, A, B, C, D.
  push_cast. field. done.
Qed.

Lemma simpsons_cubic_exact_witness :
  simpsons 0%Qc 1%Qc 2 () (cubic 1 0 0 0) =
  Ret (cubic_primitive 1 0 0 0 1 - cubic_primitive 1 0 0 0 0)%Qc.
Proof. apply simpsons_cubic_exact; [unfold INT32_MAX; lia|done]. Defined.

(** ** The rules on the interpolated table *)

(** A rule sees its callback at abscissas of the interval only. *)
Section local_ext.
Local Open Scope Qc_scope.
Context {C : Type} (c : C) (cb : summation_cb C) (f : Qc → Qc).
Context (lower upper : Qc) (n : Z).
Hypothesis Hlu : lower ≤ upper.
Hypothesis Hn : (1 ≤ n ≤ INT32_MAX)%Z.
Hypothesis Hf : ∀ x, lower ≤ x → x ≤ upper → cb c x = Ret (f x).

Lemma left_riemann_local :
  left_riemann lower upper n c cb = left_riemann lower upper n () (pure_cb f).
Proof.
  rewrite left_riemann_pure by done. apply left_riemann_sum; [done|].
  intros i Hi.
  destruct (sample_bounds lower upper n Hlu (proj1 Hn) i) as [H1 H2]; [lia|].
  by apply Hf.
Qed.

Lemma mid_riemann_local :
  mid_riemann lower upper n c cb = mid_riemann lower upper n () (pure_cb f).
Proof.
  rewrite mid_riemann_pure by done. apply mid_riemann_sum; [done|].
  intros i Hi.
  destruct (mid_sample_bounds lower upper n Hlu (proj1 Hn) i) as [H1 H2]; [lia|].
  by apply Hf.
Qed.

Lemma right_riemann_local :
  right_riemann lower upper n c cb = right_riemann lower upper n () (pure_cb f).
Proof.
  rewrite (right_riemann_sum () (pure_cb f) lower upper n
             (λ i, f (lower + Qc_of_Z (i + 1) * ((upper - lower) / Qc_of_Z n))) Hn)
    by done.
  apply right_riemann_sum; [done|].
  intros i Hi.
  destruct (sample_bounds lower upper n Hlu (proj1 Hn) (i + 1)) as [H1 H2]; [lia|].
  by apply Hf.
Qed.

Lemma trapezoidal_local :
  trapezoidal lower upper n c cb = trapezoidal lower upper n () (pure_cb f).
Proof.
  rewrite trapezoidal_pure by done.
  apply (trapezoidal_sum c cb lower upper n
           (λ i, f (lower + Qc_of_Z i * ((upper - lower) / Qc_of_Z n))) Hn).
  - apply Hf; [apply Qcle_refl|done].
  - apply Hf; [done|apply Qcle_refl].
  - intros i Hi.
    destruct (sample_bounds lower upper n Hlu (proj1 Hn) i) as [H1 H2]; [lia|].
    by apply Hf.
Qed.

Lemma simpsons_local :
  (n < INT32_MAX)%Z →
  simpsons lower upper n c cb = simpsons lower upper n () (pure_cb f).
Proof.
  intros Hlt.
  rewrite (simpsons_sum () (pure_cb f) lower upper n
             (λ i, f (lower + Qc_of_Z i * ((upper - lower) / Qc_of_Z n))) Hn Hlt)
    by done.
  apply simpsons_sum; [done..|].
  intros i Hi.
  destruct (sample_bounds lower upper n Hlu (proj1 Hn) i) as [H1 H2]; [lia|].
  by apply Hf.
Qed.
End local_ext.

Section cells.
Local Open Scope Qc_scope.
Context (m : mem) (info : lut_info) (a : list Qc).
Hypothesis Hblock : m !! lut info = Some a.
Hypothesis Hlen : Z.of_nat (length a) = len info.
Hypothesis Hmax : (len info ≤ INT32_MAX)%Z.

Lemma get_lut_index_sample index :
  (0 ≤ index < len info)%Z → get_lut_index m info index = Ret (sample a index).
Proof.
  intros Hi. destruct (get_lut_index_in m info a Hblock Hlen index Hi) as (v & Hv & ->).
  unfold sample. by rewrite Hv.
Qed.

Context (sec : Z).
Hypothesis Hsec : (1 ≤ sec < len info)%Z.

(** Between two consecutive samples the interpolation is the line through
    them. *)
Lemma interpolation_on_cell x :
  Qc_of_Z (sec - 1) ≤ x → x ≤ Qc_of_Z sec →
  calc_linear_interpolation (m, info) x =
  Ret (cell_rise a sec * x + (sample a (sec - 1) - cell_rise a sec * Qc_of_Z (sec - 1))).
Proof.
  intros Hlo Hhi.
  assert (in_int32 (sec - 1) ∧ in_int32 sec) as [Hi0 Hi1].
  { unfold in_int32, INT32_MIN, INT32_MAX in *. lia. }
  destruct (decide (x = Qc_of_Z (sec - 1))) as [->|Hne0].
  { rewrite calc_linear_interpolation_int, get_lut_index_sample by (done || lia).
    f_equal. ring. }
  destruct (decide (x = Qc_of_Z sec)) as [->|Hne1].
  { rewrite calc_linear_interpolation_int, get_lut_index_sample by (done || lia).
    f_equal. unfold cell_rise. push_cast. ring. }
  assert (Qc_of_Z (sec - 1) < x) by (by destruct (Qcle_lt_or_eq _ _ Hlo)).
  assert (x < Qc_of_Z (sec - 1 + 1)).
  { replace (sec - 1 + 1)%Z with sec by lia. by destruct (Qcle_lt_or_eq _ _ Hhi). }
  rewrite (calc_linear_interpolation_frac m info (sec - 1))
    by first [done | lia | unfold in_int32, INT32_MIN, INT32_MAX in *; lia].
  replace (sec - 1 + 1)%Z with sec in * by lia.
  rewrite !get_lut_index_sample by lia. simpl. f_equal. unfold cell_rise. ring.
Qed.

Context (n : Z).
Hypothesis Hn : (1 ≤ n ≤ INT32_MAX)%Z.

Lemma cell_order : Qc_of_Z (sec - 1) ≤ Qc_of_Z sec.
Proof. rewrite <-Z2Qc_inj_le. lia. Qed.

Lemma cell_line_integral :
  linear_integral (cell_rise a sec)
    (sample a (sec - 1) - cell_rise a sec * Qc_of_Z (sec - 1))
    (Qc_of_Z (sec - 1)) (Qc_of_Z sec) = cell_area a sec.
Proof. unfold linear_integral, cell_area, cell_rise. push_cast. by field. Qed.

Lemma cell_width : Qc_of_Z sec - Qc_of_Z (sec - 1) = 1.
Proof. push_cast. ring. Qed.

Lemma trapezoidal_on_cell :
  trapezoidal (Qc_of_Z (sec - 1)) (Qc_of_Z sec) n (m, info) calc_linear_interpolation =
  Ret (cell_area a sec).
Proof.
  rewrite (trapezoidal_local _ _ _ _ _ _ cell_order Hn interpolation_on_cell).
  rewrite <-linear_pure.
  by rewrite trapezoidal_linear, cell_line_integral.
Qed.

Lemma mid_riemann_on_cell :
  mid_riemann (Qc_of_Z (sec - 1)) (Qc_of_Z sec) n (m, info) calc_linear_interpolation =
  Ret (cell_area a sec).
Proof.
  rewrite (mid_riemann_local _ _ _ _ _ _ cell_order Hn interpolation_on_cell).
  rewrite <-linear_pure.
  by rewrite mid_riemann_linear, cell_line_integral.
Qed.

Lemma simpsons_on_cell :
  Z.even n = true →
  simpsons (Qc_of_Z (sec - 1)) (Qc_of_Z sec) n (m, info) calc_linear_interpolation =
  Ret (cell_area a sec).
Proof.
  intros Heven.
  pose proof (even_below_int32_max n Heven (proj2 Hn)) as Hlt.
  rewrite (simpsons_local _ _ _ _ _ _ cell_order Hn interpolation_on_cell Hlt).
  rewrite <-linear_pure.
  by rewrite simpsons_linear, cell_line_integral.
Qed.

Lemma left_riemann_on_cell :
  left_riemann (Qc_of_Z (sec - 1)) (Qc_of_Z sec) n (m, info) calc_linear_interpolation =
  Ret (cell_area a sec - cell_rise a sec / (2 * Qc_of_Z n)).
Proof.
  rewrite (left_riemann_local _ _ _ _ _ _ cell_order Hn interpolation_on_cell).
  rewrite <-linear_pure.
  rewrite left_riemann_linear, cell_line_integral, cell_width by done.
  f_equal. field. nonzero.
Qed.

Lemma right_riemann_on_cell :
  right_riemann (Qc_of_Z (sec - 1)) (Qc_of_Z sec) n (m, info) calc_linear_interpolation =
  Ret (cell_area a sec + cell_rise a sec / (2 * Qc_of_Z n)).
Proof.
  rewrite (right_riemann_local _ _ _ _ _ _ cell_order Hn interpolation_on_cell).
  rewrite <-linear_pure.
  rewrite right_riemann_linear, cell_line_integral, cell_width by done.
  f_equal. field. nonzero.
Qed.
End cells.

(** ** Closed forms of what a run prints *)

(** How far a rule is from the area of a cell, as a multiple of the rise of
    the table over the cell. *)
Lemma delta_bias algo n tbl sec :
  1 ≤ sec < Z.of_nat (length tbl) → Z.of_nat (length tbl) ≤ INT32_MAX →
  1 ≤ n ≤ INT32_MAX → 0 ≤ algo ≤ 4 → (algo = SIMPSONS → Z.even n = true) →
  delta algo n tbl sec = (cell_area tbl sec + rule_bias algo n * cell_rise tbl sec)%Qc.
Proof.
  intros Hsec Hmax Hn Halgo Heven. unfold delta, integral, rule_bias.
  set (m := ({[1%positive := tbl]} : gmap positive (list Qc))).
  set (info := {| len := Z.of_nat (length tbl); lut := 1%positive |}).
  assert (m !! lut info = Some tbl) as Hblock by apply lookup_singleton_eq.
  assert (Z.of_nat (length tbl) = len info) as Hlen by done.
  assert (algo = 0 ∨ algo = 1 ∨ algo = 2 ∨ algo = 3 ∨ algo = 4)
    as [-> | [-> | [-> | [-> | ->]]]] by lia; simpl select_summation.
  - rewrite (left_riemann_on_cell m info tbl) by done. simpl. field. nonzero.
  - rewrite (mid_riemann_on_cell m info tbl) by done. simpl. ring.
  - rewrite (right_riemann_on_cell m info tbl) by done. simpl. field. nonzero.
  - rewrite (trapezoidal_on_cell m info tbl) by done. simpl. ring.
  - rewrite (simpsons_on_cell m info tbl) by (done || by apply Heven). simpl. ring.
Qed.

Lemma area_running_step tbl k :
  1 ≤ k → area_running tbl k = (area_running tbl (k - 1) + cell_area tbl k)%Qc.
Proof.
  intros Hk. unfold area_running. rewrite Qcsum_seqZ_last by lia.
  by replace (1 + k - 1) with k by lia.
Qed.

Lemma running_bias algo n tbl (k : nat) :
  Z.of_nat k < Z.of_nat (length tbl) → Z.of_nat (length tbl) ≤ INT32_MAX →
  1 ≤ n ≤ INT32_MAX → 0 ≤ algo ≤ 4 → (algo = SIMPSONS → Z.even n = true) →
  running algo n tbl (Z.of_nat k) =
  (area_running tbl (Z.of_nat k)
   + rule_bias algo n * (sample tbl (Z.of_nat k) - sample tbl 0))%Qc.
Proof.
  intros Hk Hmax Hn Halgo Heven. induction k as [|k IH].
  { change (Z.of_nat 0) with 0. rewrite running_nonpos by done.
    unfold area_running. change (seqZ 1 0) with (@nil Z).
    rewrite fmap_nil, Qcsum_nil. ring. }
  rewrite running_step, area_running_step by lia.
  replace (Z.of_nat (Datatypes.S k) - 1) with (Z.of_nat k) by lia.
  rewrite IH by lia. rewrite delta_bias by (done || lia).
  unfold cell_rise. replace (Z.of_nat (Datatypes.S k) - 1) with (Z.of_nat k) by lia.
  ring.
Qed.

Lemma sample_fmap_seqZ (g : Z → Qc) n k :
  0 ≤ k < n → sample (g <$> seqZ 0 n) k = g k.
Proof.
  intros Hk. unfold sample. rewrite list_lookup_fmap.
  rewrite (lookup_seqZ_lt 0 n (Z.to_nat k)) by lia. simpl. f_equal. lia.
Qed.

Lemma length_area_table tbl : length (area_table tbl) = length tbl.
Proof. unfold area_table. rewrite length_fmap, length_seqZ. lia. Qed.

Section closed_forms.
Context (algo n : Z) (tbl : list Qc).
Hypothesis Hlen : 1 ≤ Z.of_nat (length tbl) ≤ INT32_MAX.
Hypothesis Hn : 1 ≤ n ≤ INT32_MAX.
Hypothesis Halgo : 0 ≤ algo ≤ 4.
Hypothesis Heven : algo = SIMPSONS → Z.even n = true.

Lemma final_velocity_bias :
  final_velocity algo n tbl =
  (area_running tbl (Z.of_nat (length tbl) - 1)
   + rule_bias algo n * (sample tbl (Z.of_nat (length tbl) - 1) - sample tbl 0))%Qc.
Proof.
  unfold final_velocity.
  replace (Z.of_nat (length tbl) - 1) with (Z.of_nat (length tbl - 1)) by lia.
  apply running_bias; first [done | lia].
Qed.

Lemma final_position_bias :
  final_position algo n tbl =
  (area_running (velocity_table algo n tbl) (Z.of_nat (length tbl) - 1)
   + rule_bias algo n * final_velocity algo n tbl)%Qc.
Proof.
  pose proof (length_velocity_table algo n tbl) as Hl.
  change (final_position algo n tbl)
    with (running algo n (velocity_table algo n tbl) (Z.of_nat (length tbl) - 1)).
  replace (Z.of_nat (length tbl) - 1) with (Z.of_nat (length tbl - 1)) by lia.
  rewrite running_bias by (rewrite ?Hl; first [done | lia]).
  unfold velocity_table. rewrite !sample_fmap_seqZ by lia.
  rewrite (running_nonpos algo n tbl 0) by done.
  unfold final_velocity.
  replace (Z.of_nat (length tbl) - 1) with (Z.of_nat (length tbl - 1)) by lia.
  ring.
Qed.

Lemma velocity_table_exact :
  rule_bias algo n = 0%Qc → velocity_table algo n tbl = area_table tbl.
Proof.
  intros Hb. unfold velocity_table, area_table. apply list_fmap_ext.
  intros j k Hk. apply lookup_seqZ in Hk as [-> Hj].
  replace (0 + Z.of_nat j) with (Z.of_nat j) by lia.
  rewrite running_bias by (first [done | lia]). rewrite Hb. ring.
Qed.
End closed_forms.

Lemma exact_rule_bias args :
  exact_rule args →
  rule_bias (algo args) (step args) = 0%Qc ∧
  (algo args = SIMPSONS → Z.even (step args) = true).
Proof.
  intros [H | [H | [H He]]]; rewrite H; unfold rule_bias; simpl; done.
Qed.

(** X5. In exact arithmetic, with doubles as exact rationals: with the
    midpoint rule, the trapezoidal rule or Simpson's rule on an even
    subdivision count, a run of either pipeline prints the area under the
    interpolated acceleration as velocity and the area under the
    interpolated table of these areas as position, whatever the
    subdivision count.  Rounding apart, the step does not change the
    result. *)
Theorem run_exact_rules w args info (m : mem) acc :
  m !! lut info = Some acc → Z.of_nat (length acc) = len info →
  1 ≤ len info ≤ INT32_MAX → args_wf args → exact_rule args → os_ok w →
  let r := {| velocity := area_running acc (len info - 1);
              position := area_running (area_table acc) (len info - 1) |} in
  run_sim w args info m = Ret (m, Some r) ∧
  (os_wf w args info → run_sim_openmp w args info m = Ret (m, Some r)).
Proof.
  intros Hacc Hlen Hl Hwf Hex Hok r.
  destruct (exact_rule_bias args Hex) as (Hb & Heven).
  assert (no_overflow args info) as Hov.
  { right. intros Ha. apply even_below_int32_max; [by apply Heven|].
    by destruct Hwf as (_ & _ & [_ ?] & _). }
  assert (final_velocity (algo args) (step args) acc = velocity r) as Hv.
  { destruct Hwf as (_ & ? & ? & _).
    rewrite final_velocity_bias by (first [done | lia]).
    rewrite Hb, Hlen. simpl. ring. }
  assert (final_position (algo args) (step args) acc = position r) as Hp.
  { destruct Hwf as (_ & ? & ? & _).
    rewrite final_position_bias by (first [done | lia]).
    rewrite velocity_table_exact by (first [done | lia]).
    rewrite Hb, Hlen. simpl. ring. }
  split; [|intros Hos].
  - rewrite (run_sim_spec w args info m acc) by done. by rewrite Hv, Hp.
  - rewrite (run_sim_openmp_spec w args info m acc) by done. by rewrite Hv, Hp.
Qed.

Lemma run_exact_rules_witness :
  run_sim example_os example_args example_lut example_mem =
    Ret (example_mem,
         Some {| velocity := area_running example_table (len example_lut - 1)%Z;
                 position := area_running (area_table example_table)
                               (len example_lut - 1)%Z |}) ∧
  run_sim_openmp example_os example_args example_lut example_mem =
    Ret (example_mem,
         Some {| velocity := area_running example_table (len example_lut - 1)%Z;
                 position := area_running (area_table example_table)
                               (len example_lut - 1)%Z |}).
Proof.
  assert (example_mem !! lut example_lut = Some example_table) as H1
    by done.
  assert (Z.of_nat (length example_table) = len example_lut) as H2
    by (by vm_compute).
  assert (1 ≤ len example_lut ≤ INT32_MAX) as H3 by (by vm_compute).
  assert (args_wf example_args) as H4 by (by vm_compute).
  assert (exact_rule example_args) as H5 by (right; right; done).
  assert (os_ok example_os) as H6 by done.
  assert (os_wf example_os example_args example_lut) as H7.
  { intros c k. split; [by vm_compute|]. by apply (bool_decide_unpack _). }
  destruct (run_exact_rules example_os example_args example_lut example_mem
              example_table H1 H2 H3 H4 H5 H6) as [Hseq Hpar].
  exact (conj Hseq (Hpar H7)).
Defined.

(** X6. In exact arithmetic, with doubles as exact rationals: with the
    left Riemann sum a run prints a velocity below the area under the
    interpolated acceleration by the rise of the table from its first to
    its last sample over twice the subdivision count, and with the right
    Riemann sum one above it by as much; the position is off the area
    under the interpolated velocity table by the printed velocity over
    twice the subdivision count. *)
Theorem run_riemann_bias w args info (m : mem) acc :
  m !! lut info = Some acc → Z.of_nat (length acc) = len info →
  1 ≤ len info ≤ INT32_MAX → args_wf args →
  algo args = LEFT_RIEMANN ∨ algo args = RIGHT_RIEMANN → os_ok w →
  let s := (if decide (algo args = LEFT_RIEMANN) then -(1) else 1)%Qc in
  let v := (area_running acc (len info - 1)
            + s * (sample acc (len info - 1) - sample acc 0)
              / (2 * Qc_of_Z (step args)))%Qc in
  let p := (area_running (velocity_table (algo args) (step args) acc) (len info - 1)
            + s * v / (2 * Qc_of_Z (step args)))%Qc in
  run_sim w args info m = Ret (m, Some {| velocity := v; position := p |}) ∧
  (os_wf w args info →
   run_sim_openmp w args info m = Ret (m, Some {| velocity := v; position := p |})).
Proof.
  intros Hacc Hlen Hl Hwf Halgo Hok s v p.
  assert (no_overflow args info) as Hov by (right; intros Ha; destruct Halgo; lia).
  assert (rule_bias (algo args) (step args) = s / (2 * Qc_of_Z (step args)))%Qc as Hb.
  { unfold rule_bias, s. destruct Halgo as [-> | ->]; simpl; done. }
  assert (final_velocity (algo args) (step args) acc = v) as Hv.
  { destruct Hwf as (_ & ? & ? & _).
    rewrite final_velocity_bias by (first [done | lia]).
    rewrite Hb, Hlen. unfold v. field. nonzero. }
  assert (final_position (algo args) (step args) acc = p) as Hp.
  { destruct Hwf as (_ & ? & ? & _).
    rewrite final_position_bias by (first [done | lia]).
    rewrite Hv, Hb, Hlen. unfold p. field. nonzero. }
  split; [|intros Hos].
  - rewrite (run_sim_spec w args info m acc) by done. by rewrite Hv, Hp.
  - rewrite (run_sim_openmp_spec w args info m acc) by done. by rewrite Hv, Hp.
Qed.

Lemma run_riemann_bias_witness :
  run_sim example_os scenario_args example_lut example_mem =
  Ret (example_mem,
       Some {| velocity :=
                 (area_running example_table (len example_lut - 1)%Z
                  + - (1) * (sample example_table (len example_lut - 1)%Z
                             - sample example_table 0)
                    / (2 * Qc_of_Z (step scenario_args)))%Qc;
               position :=
                 (area_running
                    (velocity_table (algo scenario_args) (step scenario_args)
                       example_table) (len example_lut - 1)%Z
                  + - (1) * (area_running example_table (len example_lut - 1)%Z
                             + - (1) * (sample example_table
                                          (len example_lut - 1)%Z
                                        - sample example_table 0)
                               / (2 * Qc_of_Z (step scenario_args)))
                    / (2 * Qc_of_Z (step scenario_args)))%Qc |}).
Proof.
  assert (example_mem !! lut example_lut = Some example_table) as H1
    by done.
  assert (Z.of_nat (length example_table) = len example_lut) as H2
    by (by vm_compute).
  assert (1 ≤ len example_lut ≤ INT32_MAX) as H3 by (by vm_compute).
  assert (args_wf scenario_args) as H4 by (by vm_compute).
  assert (algo scenario_args = LEFT_RIEMANN ∨ algo scenario_args = RIGHT_RIEMANN)
    as H5 by (by left).
  assert (os_ok example_os) as H6 by done.
  exact (proj1 (run_riemann_bias example_os scenario_args example_lut example_mem
                  example_table H1 H2 H3 H4 H5 H6)).
Defined.

(** ** When a run prints *)

Lemma clocks_from_step w c n :
  c < n - 1 →
  clocks_from w c n =
  implb (clock_start_ok w c) (clock_end_ok w c) && clocks_from w (c + 1) n.
Proof.
  intros Hc. unfold clocks_from. rewrite seqZ_cons by lia. simpl.
  replace (Z.succ c) with (c + 1) by lia.
  replace (Z.pred (n - 1 - c)) with (n - 1 - (c + 1)) by lia.
  by rewrite <-!andb_assoc.
Qed.

Lemma clocks_from_last w n :
  clocks_from w (n - 1) n = clock_start_ok w (n - 1) && clock_end_ok w (n - 1).
Proof. unfold clocks_from. by rewrite seqZ_nil by lia. Qed.

Lemma benchmark_clocks w args pass (Inv : mem → Prop) r trips c m out :
  (∀ c m, Inv m → ∃ m', pass c m = Ret (m', r) ∧ Inv m') →
  Inv m → 0 ≤ c → (0 < trips)%nat →
  c + Z.of_nat trips = iterations args → iterations args ≤ INT32_MAX →
  ∃ m', benchmark w args pass trips c m out =
          Ret (m', if clocks_from w c (iterations args) then Some r else out) ∧
        Inv m'.
Proof.
  intros Hpass. revert c m out.
  induction trips as [|k IH]; intros c m out HI Hc Hpos Hend Hmax; [lia|].
  assert (int32_add c 1 = Ret (c + 1)) as Hadd
    by (apply int32_add_ok; unfold in_int32, INT32_MIN, INT32_MAX in *; lia).
  simpl. destruct (clock_start_ok w c) eqn:Hs; simpl.
  - destruct (Hpass c m HI) as (m1 & -> & HI1). simpl.
    destruct (clock_end_ok w c) eqn:He; simpl.
    + rewrite Hadd. simpl. destruct k as [|k].
      * simpl. replace c with (iterations args - 1) in * by lia.
        rewrite decide_True by done.
        rewrite clocks_from_last, Hs, He. eauto.
      * rewrite decide_False by lia.
        rewrite clocks_from_step, Hs, He by lia. simpl. apply IH; [done|lia..].
    + exists m1. split; [|done]. do 2 f_equal.
      destruct k as [|k].
      * replace c with (iterations args - 1) in * by lia.
        by rewrite clocks_from_last, Hs, He.
      * by rewrite clocks_from_step, Hs, He by lia.
  - rewrite Hadd. simpl. destruct k as [|k].
    + simpl. exists m. split; [|done]. replace c with (iterations args - 1) in * by lia.
      by rewrite clocks_from_last, Hs.
    + rewrite clocks_from_step, Hs by lia. simpl. apply IH; [done|lia..].
Qed.

(** X7. A run prints its velocity and position exactly when [malloc]
    succeeds, no benchmark iteration before the last one leaves the loop
    (an iteration whose first reading of the clock fails is skipped, one
    whose second reading fails ends the loop) and both readings of the
    clock succeed in the last iteration.  In every other case it returns
    without a result, and in all cases with the memory as it found it. *)
Theorem run_prints w args info (m : mem) acc :
  m !! lut info = Some acc → Z.of_nat (length acc) = len info →
  1 ≤ len info ≤ INT32_MAX → args_wf args → no_overflow args info →
  let r := {| velocity := final_velocity (algo args) (step args) acc;
              position := final_position (algo args) (step args) acc |} in
  run_sim w args info m = Ret (m, if prints w args then Some r else None) ∧
  (os_wf w args info →
   run_sim_openmp w args info m = Ret (m, if prints w args then Some r else None)).
Proof.
  intros Hacc Hlen Hl (_ & _ & Hstep & Hit) Hov r. unfold prints.
  destruct (malloc_ok w) eqn:Hmalloc.
  2:{ unfold run_sim, run_sim_openmp, malloc. by rewrite Hmalloc. }
  destruct (run_prelude w m info acc) as (p & m1 & v & Hm & Hst & Hp & Hne & Hv & Hv0);
    [done|done|lia|done|].
  set (vel_lut := {| len := len info; lut := p |}).
  simpl andb. split; [|intros Hos].
  - destruct (benchmark_clocks w args
                (run_sim_pass (select_summation (algo args)) args info vel_lut)
                (pass_inv info vel_lut acc) r
                (Z.to_nat (iterations args)) 0 (<[p := v]> m) None)
      as (m2 & Hb & _); try done; try lia.
    { intros c m3 Hinv. eexists. split.
      - by apply (run_sim_pass_spec args info vel_lut acc).
      - by apply pass_inv_after. }
    { by apply pass_inv_intro. }
    assert (run_sim w args info m =
            Ret (free m2 p, if clocks_from w 0 (iterations args) then Some r else None))
      as Hrun.
    { unfold run_sim. rewrite Hm. simpl. rewrite Hst. simpl.
      fold vel_lut. by rewrite Hb. }
    by rewrite Hrun, (run_sim_frame _ _ _ _ _ _ Hrun).
  - destruct (benchmark_clocks w args
                (run_sim_openmp_pass w (select_summation (algo args)) args info vel_lut)
                (pass_inv info vel_lut acc) r
                (Z.to_nat (iterations args)) 0 (<[p := v]> m) None)
      as (m2 & Hb & _); try done; try lia.
    { intros c m3 Hinv. eexists. split.
      - by apply (run_sim_openmp_pass_spec w args info vel_lut acc).
      - by apply pass_inv_after. }
    { by apply pass_inv_intro. }
    assert (run_sim_openmp w args info m =
            Ret (free m2 p, if clocks_from w 0 (iterations args) then Some r else None))
      as Hrun.
    { unfold run_sim_openmp. rewrite Hm. simpl. rewrite Hst. simpl.
      fold vel_lut. by rewrite Hb. }
    by rewrite Hrun, (run_sim_openmp_frame _ _ _ _ _ _ Hrun).
Qed.

Lemma run_prints_witness :
  run_sim failing_clock_os example_args example_lut example_mem =
    Ret (example_mem, None) ∧
  run_sim_openmp failing_clock_os example_args example_lut example_mem =
    Ret (example_mem, None).
Proof.
  assert (example_mem !! lut example_lut = Some example_table) as H1
    by done.
  assert (Z.of_nat (length example_table) = len example_lut) as H2
    by (by vm_compute).
  assert (1 ≤ len example_lut ≤ INT32_MAX) as H3 by (by vm_compute).
  assert (args_wf example_args) as H4 by (by vm_compute).
  assert (no_overflow example_args example_lut) as H5.
  { right. intros _. by vm_compute. }
  assert (os_wf failing_clock_os example_args example_lut) as H6.
  { intros c k. split; [by vm_compute|]. by apply (bool_decide_unpack _). }
  destruct (run_prints failing_clock_os example_args example_lut example_mem
              example_table H1 H2 H3 H4 H5) as [Hseq Hpar].
  exact (conj Hseq (Hpar H6)).
Defined.

(** ** Where the interpolation is defined *)

Lemma Qc_floor_le (x : Qc) : (Qc_of_Z (Qfloor x) ≤ x)%Qc.
Proof. apply Qfloor_le. Qed.

Lemma Qc_lt_floor (x : Qc) : (x < Qc_of_Z (Qfloor x + 1))%Qc.
Proof. apply Qlt_floor. Qed.

Lemma Qfloor_nonneg (x : Qc) : (0 ≤ x)%Qc → 0 ≤ Qfloor x.
Proof. intros Hx. rewrite <-(Qfloor_Z 0). by apply Qfloor_resp_le. Qed.

Lemma Qcopp_lt_compat (p q : Qc) : (p < q)%Qc → (- q < - p)%Qc.
Proof.
  intros H. apply Qclt_minus_iff. apply Qclt_minus_iff in H.
  by replace (- p + - - q)%Qc with (q + - p)%Qc by ring.
Qed.

Lemma trunc_opp (x : Qc) : trunc (- x)%Qc = - trunc x.
Proof.
  unfold trunc. destruct x as [[n d] Hc]. simpl.
  rewrite Qred_opp, Hc. simpl. apply Z.quot_opp_l. lia.
Qed.

(** At an abscissa that is not an integer the two samples read are those at
    the cast and after it. *)
Lemma calc_linear_interpolation_cast (m : mem) info (x : Qc) :
  floor x ≠ x → in_int32 (trunc x) → in_int32 (trunc x + 1) →
  calc_linear_interpolation (m, info) x =
    y0 ← get_lut_index m info (trunc x);
    y1 ← get_lut_index m info (trunc x + 1);
    Ret (y0 + (x - Qc_of_Z (trunc x)) * (y1 - y0))%Qc.
Proof.
  intros Hx H0 H1. unfold calc_linear_interpolation.
  rewrite decide_False by done. unfold double_to_int32.
  rewrite decide_True by done. simpl. by rewrite int32_add_ok.
Qed.

Section domain.
Local Open Scope Qc_scope.
Context (m : mem) (info : lut_info) (a : list Qc).
Hypothesis Hblock : m !! lut info = Some a.
Hypothesis Hlen : Z.of_nat (length a) = len info.

Lemma get_lut_index_outcome index :
  get_lut_index m info index =
  if decide (0 ≤ index < len info)%Z then Ret (sample a index)
  else Exit index (len info).
Proof.
  case_decide.
  - by apply (get_lut_index_sample m info a).
  - unfold get_lut_index. rewrite decide_True; [done|lia].
Qed.

Lemma domain_integer z :
  interpolation_domain info (Qc_of_Z z) ↔ (0 ≤ z < len info)%Z.
Proof.
  unfold interpolation_domain. rewrite <-Z2Qc_inj_lt, <-Z2Qc_inj_le.
  rewrite <-Z2Qc_inj_0, <-Z2Qc_inj_lt. lia.
Qed.

Lemma domain_between z x :
  Qc_of_Z z < x → x < Qc_of_Z (z + 1) →
  interpolation_domain info x ↔
  (-1 ≤ z ∧ z + 1 < len info ∧ (z < 0 → 2 ≤ len info))%Z.
Proof.
  intros Hlo Hhi. unfold interpolation_domain. split.
  - intros (H1 & H2 & H3).
    assert (-1 < z + 1)%Z as Hz.
    { rewrite Z2Qc_inj_lt. by eapply Qclt_trans. }
    assert (z < len info - 1)%Z as Hz'.
    { rewrite Z2Qc_inj_lt. by eapply Qclt_le_trans. }
    split_and!; [lia..|]. intros Hneg. apply H3.
    eapply Qclt_le_trans; [exact Hhi|].
    rewrite <-Z2Qc_inj_0, <-Z2Qc_inj_le. lia.
  - intros (Hz & Hz' & Hz''). split_and!.
    + eapply Qcle_lt_trans; [|exact Hlo]. rewrite <-Z2Qc_inj_le. lia.
    + apply Qclt_le_weak. eapply Qclt_le_trans; [exact Hhi|].
      rewrite <-Z2Qc_inj_le. lia.
    + intros Hx. apply Hz''. rewrite Z2Qc_inj_lt, Z2Qc_inj_0.
      by eapply Qclt_trans.
Qed.

Lemma interpolation_integer z :
  in_int32 z →
  (interpolation_domain info (Qc_of_Z z) →
   ∃ v, calc_linear_interpolation (m, info) (Qc_of_Z z) = Ret v) ∧
  (¬ interpolation_domain info (Qc_of_Z z) →
   ∃ index, calc_linear_interpolation (m, info) (Qc_of_Z z) = Exit index (len info) ∧
            (index < 0 ∨ len info ≤ index)%Z).
Proof.
  intros Hz. rewrite calc_linear_interpolation_int, get_lut_index_outcome by done.
  rewrite domain_integer. case_decide.
  - split; [eauto|done].
  - split; [done|]. intros _. exists z. split; [done|lia].
Qed.

Lemma interpolation_between z x :
  in_int32 z → in_int32 (z + 1) →
  Qc_of_Z z < x → x < Qc_of_Z (z + 1) →
  (z < 0 → trunc x = (z + 1)%Z)%Z → (0 ≤ z → trunc x = z)%Z →
  floor x ≠ x →
  (interpolation_domain info x → ∃ v, calc_linear_interpolation (m, info) x = Ret v) ∧
  (¬ interpolation_domain info x →
   ∃ index, calc_linear_interpolation (m, info) x = Exit index (len info) ∧
            (index < 0 ∨ len info ≤ index)%Z).
Proof.
  intros Hz0 Hz1 Hlo Hhi Hneg Hpos Hx.
  rewrite (domain_between z x Hlo Hhi).
  destruct (decide (0 ≤ z)%Z) as [Hz|Hz].
  - rewrite calc_linear_interpolation_cast;
      [|done|rewrite (Hpos Hz); done..].
    rewrite (Hpos Hz), !get_lut_index_outcome.
    repeat case_decide; simpl; (split; [intros ?; first [by eauto | lia]|]);
      intros ?; first [lia | eexists; split; [done|lia]].
  - assert (trunc x = z + 1)%Z as Ht by (apply Hneg; lia).
    assert (in_int32 (z + 1 + 1)) as Hz2
      by (unfold in_int32, INT32_MIN, INT32_MAX in *; lia).
    rewrite calc_linear_interpolation_cast; [|done|rewrite Ht; done..].
    rewrite Ht, !get_lut_index_outcome.
    repeat case_decide; simpl; (split; [intros ?; first [by eauto | lia]|]);
      intros ?; first [lia | eexists; split; [done|lia]].
Qed.

Lemma trunc_between z x :
  Qc_of_Z z < x → x < Qc_of_Z (z + 1) →
  ((z < 0)%Z → trunc x = (z + 1)%Z) ∧ ((0 ≤ z)%Z → trunc x = z).
Proof.
  intros Hlo Hhi. split; intros Hz.
  - rewrite <-(Qcopp_involutive x), trunc_opp.
    assert (0 ≤ - x) as Hx.
    { assert (x ≤ 0) as Hx0.
      { apply Qclt_le_weak. eapply Qclt_le_trans; [exact Hhi|].
        rewrite <-Z2Qc_inj_0, <-Z2Qc_inj_le. lia. }
      apply Qcle_minus_iff in Hx0. by rewrite Qcplus_0_l in Hx0. }
    rewrite trunc_nonneg by done.
    rewrite (Qfloor_between (- z - 1)); [lia| |].
    + replace (- z - 1)%Z with (- (z + 1))%Z by lia. rewrite Z2Qc_inj_opp.
      apply Qcopp_le_compat. by apply Qclt_le_weak.
    + replace (- z - 1 + 1)%Z with (- z)%Z by lia. rewrite Z2Qc_inj_opp.
      by apply Qcopp_lt_compat.
  - rewrite trunc_nonneg.
    + apply Qfloor_between; [by apply Qclt_le_weak|done].
    + apply Qclt_le_weak. eapply Qcle_lt_trans; [|exact Hlo].
      by apply Qc_of_Z_nonneg.
Qed.

(** X8. For an abscissa the cast to [int32_t] is defined for,
    [calc_linear_interpolation] returns a value exactly on
    [interpolation_domain]: from 0 to the last index of the table and, on a
    table of two samples or more, also strictly between -1 and 0, where
    the cast rounds up to index 0.  Everywhere else it ends the program
    through the bounds check of [get_lut_index]. *)
Theorem calc_linear_interpolation_domain x :
  Qc_of_Z INT32_MIN ≤ x → x < Qc_of_Z INT32_MAX →
  (interpolation_domain info x → ∃ v, calc_linear_interpolation (m, info) x = Ret v) ∧
  (¬ interpolation_domain info x →
   ∃ index, calc_linear_interpolation (m, info) x = Exit index (len info) ∧
            (index < 0 ∨ len info ≤ index)%Z).
Proof.
  intros Hmin Hmax.
  pose proof (Qc_floor_le x) as Hlo. pose proof (Qc_lt_floor x) as Hhi.
  set (z := Qfloor x) in *.
  assert (INT32_MIN ≤ z + 1 - 1 ∧ z < INT32_MAX)%Z as [Hz0 Hz1].
  { split.
    - assert (INT32_MIN < z + 1)%Z; [|lia].
      rewrite Z2Qc_inj_lt. by eapply Qcle_lt_trans.
    - rewrite Z2Qc_inj_lt. by eapply Qcle_lt_trans. }
  destruct (decide (floor x = x)) as [Hint|Hfrac].
  - rewrite <-Hint. fold z. apply interpolation_integer.
    unfold in_int32. lia.
  - assert (Qc_of_Z z < x) as Hlo'.
    { destruct (Qcle_lt_or_eq _ _ Hlo) as [?|Heq]; [done|]. by destruct Hfrac. }
    destruct (trunc_between z x Hlo' Hhi) as [Hneg Hpos].
    apply (interpolation_between z x); try done; unfold in_int32; lia.
Qed.
End domain.

Lemma calc_linear_interpolation_domain_witness :
  (∃ v, calc_linear_interpolation (two_mem, two_lut) (- (1 / 2))%Qc = Ret v) ∧
  (∃ index, calc_linear_interpolation (two_mem, two_lut) (1 + 1 / 2)%Qc
            = Exit index (len two_lut) ∧
            (index < 0 ∨ len two_lut ≤ index)%Z).
Proof.
  split.
  - apply (calc_linear_interpolation_domain two_mem two_lut [1%Qc; Qc_of_Z 3]);
      [done|done|by vm_compute|by vm_compute|].
    split_and!; [by vm_compute|by vm_compute|]. intros _. simpl. lia.
  - apply (calc_linear_interpolation_domain two_mem two_lut [1%Qc; Qc_of_Z 3]);
      [done|done|by vm_compute|by vm_compute|].
    intros (_ & H & _). by vm_compute in H.
Defined.

(** X9. In exact arithmetic, with doubles as exact rationals, so without
    rounding or overflow: between two consecutive samples the
    interpolation returns a value that lies between them. *)
Theorem calc_linear_interpolation_between (m : mem) info a sec (x : Qc) :
  m !! lut info = Some a → Z.of_nat (length a) = len info →
  len info ≤ INT32_MAX → 1 ≤ sec < len info →
  (Qc_of_Z (sec - 1) ≤ x)%Qc → (x ≤ Qc_of_Z sec)%Qc →
  ∃ v, calc_linear_interpolation (m, info) x = Ret v ∧
       (sample a (sec - 1) ≤ sample a sec →
        sample a (sec - 1) ≤ v ∧ v ≤ sample a sec)%Qc ∧
       (sample a sec ≤ sample a (sec - 1) →
        sample a sec ≤ v ∧ v ≤ sample a (sec - 1))%Qc.
Proof.
  intros Hblock Hlen Hmax Hsec Hlo Hhi.
  rewrite (interpolation_on_cell m info a Hblock Hlen Hmax sec Hsec x Hlo Hhi).
  eexists. split; [done|].
  set (y0 := sample a (sec - 1)). set (y1 := sample a sec).
  set (t := (x - Qc_of_Z (sec - 1))%Qc).
  assert (0 ≤ t)%Qc as Ht0.
  { unfold t. by apply Qcle_minus_iff in Hlo. }
  assert (t ≤ 1)%Qc as Ht1.
  { apply Qcle_minus_iff. apply Qcle_minus_iff in Hhi.
    replace (1 + - t)%Qc with (Qc_of_Z sec + - x)%Qc; [done|].
    unfold t. push_cast. ring. }
  assert (0 ≤ 1 - t)%Qc as Hs0 by (by apply Qcle_minus_iff in Ht1).
  assert (1 - t ≤ 1)%Qc as Hs1.
  { apply Qcle_minus_iff. by replace (1 + - (1 - t))%Qc with t by ring. }
  unfold cell_rise. fold y0 y1. split; intros Hle.
  - destruct (convex_bounds y0 y1 Hle t Ht0 Ht1) as [H1 H2].
    replace ((y1 - y0) * x + (y0 - (y1 - y0) * Qc_of_Z (sec - 1)))%Qc
      with (y0 + t * (y1 - y0))%Qc by (unfold t; ring).
    done.
  - destruct (convex_bounds y1 y0 Hle (1 - t)%Qc Hs0 Hs1) as [H1 H2].
    replace ((y1 - y0) * x + (y0 - (y1 - y0) * Qc_of_Z (sec - 1)))%Qc
      with (y1 + (1 - t) * (y0 - y1))%Qc by (unfold t; ring).
    done.
Qed.

Lemma calc_linear_interpolation_between_witness :
  ∃ v, calc_linear_interpolation (two_mem, two_lut) (1 / 2)%Qc = Ret v ∧
       (sample [1%Qc; Qc_of_Z 3] (1 - 1) ≤ sample [1%Qc; Qc_of_Z 3] 1 →
        sample [1%Qc; Qc_of_Z 3] (1 - 1) ≤ v ∧ v ≤ sample [1%Qc; Qc_of_Z 3] 1)%Qc ∧
       (sample [1%Qc; Qc_of_Z 3] 1 ≤ sample [1%Qc; Qc_of_Z 3] (1 - 1) →
        sample [1%Qc; Qc_of_Z 3] 1 ≤ v ∧ v ≤ sample [1%Qc; Qc_of_Z 3] (1 - 1))%Qc.
Proof.
  apply (calc_linear_interpolation_between two_mem two_lut [1%Qc; Qc_of_Z 3] 1);
    [done|done|by vm_compute|by vm_compute|by vm_compute|by vm_compute].
Defined.

(** ** A table without samples *)

(** X10. On a table of length 0, when [malloc] returns a block for the
    zero bytes asked, both pipelines write the initial velocity past the end
    of that block, before any benchmark iteration: the run is undefined. *)
Theorem run_without_samples w args info (m : mem) :
  len info = 0 → malloc_ok w = true →
  run_sim w args info m = Stuck ∧ run_sim_openmp w args info m = Stuck.
Proof.
  intros Hlen Hok. unfold run_sim, run_sim_openmp, malloc.
  rewrite Hok, Hlen. simpl. unfold store. by rewrite lookup_insert_eq.
Qed.

Lemma run_without_samples_witness :
  run_sim example_os example_args empty_lut empty_mem = Stuck ∧
  run_sim_openmp example_os example_args empty_lut empty_mem = Stuck.
Proof. by apply run_without_samples. Defined.

(** ** ts.c *)

(** An operation on [long] whose result is in range. *)
Lemma int64_ok z : in_int64 z → int64 z = Ret z.
Proof. intros H. unfold int64. by rewrite decide_True. Qed.

Ltac solve_int64 :=
  rewrite int64_ok by (unfold in_int64, INT64_MIN, INT64_MAX in *; lia); simpl.

Lemma to_int32_id z : INT32_MIN ≤ z ≤ INT32_MAX → to_int32 z = z.
Proof.
  unfold INT32_MIN, INT32_MAX, to_int32. intros Hz.
  rewrite Z.mod_small by lia. lia.
Qed.

Ltac unfold_wf :=
  unfold timespec_wf, normalized, to_ns, INT64_MAX, INT64_MIN in *;
  cbn [tv_sec tv_nsec min max total count prev dur] in *.

Lemma time_diff_normalized start end_ :
  timespec_wf start → timespec_wf end_ →
  ∃ d, time_diff start end_ = Ret d ∧ normalized d ∧
       to_ns d = to_ns end_ - to_ns start.
Proof.
  intros Hs He. unfold time_diff. unfold_wf.
  repeat solve_int64. case_decide; repeat solve_int64.
  - eexists. split; [done|]. simpl. lia.
  - eexists. split; [done|]. simpl. lia.
Qed.

(** X11. Between two readings of the clock [time_diff] is exact: the
    difference it writes has its nanoseconds in [0, 10^9) and is worth the
    nanoseconds from [start] to [end_], also when [end_] is the earlier one
    (the seconds are then negative). *)
Theorem time_diff_exact start end_ :
  timespec_wf start → timespec_wf end_ →
  ∃ d, time_diff start end_ = Ret d ∧ normalized d ∧
       to_ns d = to_ns end_ - to_ns start.
Proof. apply time_diff_normalized. Qed.

Lemma time_diff_exact_witness :
  timespec_wf {| tv_sec := 5; tv_nsec := 900000000 |} ∧
  timespec_wf {| tv_sec := 7; tv_nsec := 100000000 |} ∧
  ∃ d, time_diff {| tv_sec := 5; tv_nsec := 900000000 |}
                 {| tv_sec := 7; tv_nsec := 100000000 |} = Ret d ∧
       normalized d ∧
       to_ns d = to_ns {| tv_sec := 7; tv_nsec := 100000000 |}
                 - to_ns {| tv_sec := 5; tv_nsec := 900000000 |}.
Proof.
  assert (timespec_wf {| tv_sec := 5; tv_nsec := 900000000 |}) as Hs
    by (unfold_wf; lia).
  assert (timespec_wf {| tv_sec := 7; tv_nsec := 100000000 |}) as He
    by (unfold_wf; lia).
  exact (conj Hs (conj He (time_diff_exact _ _ Hs He))).
Defined.

Lemma time_add_normalized l r :
  normalized l → normalized r →
  in_int64 (tv_sec l + tv_sec r) →
  (1000000000 ≤ tv_nsec l + tv_nsec r → in_int64 (tv_sec l + tv_sec r + 1)) →
  ∃ s, time_add l r = Ret s ∧ normalized s ∧ to_ns s = to_ns l + to_ns r ∧
       tv_sec l + tv_sec r ≤ tv_sec s ≤ tv_sec l + tv_sec r + 1.
Proof.
  intros Hl Hr H0 H1. unfold time_add. unfold_wf.
  repeat solve_int64. case_decide.
  - assert (Z.quot (tv_nsec l + tv_nsec r) 1000000000 = 1) as Hq.
    { rewrite Z.quot_div_nonneg by lia.
      symmetry. apply (Z.div_unique _ _ 1 (tv_nsec l + tv_nsec r - 1000000000)); lia. }
    assert (Z.rem (tv_nsec l + tv_nsec r) 1000000000
            = tv_nsec l + tv_nsec r - 1000000000) as Hr'.
    { rewrite Z.rem_mod_nonneg by lia.
      symmetry. apply (Z.mod_unique _ _ 1); lia. }
    specialize (H1 ltac:(lia)).
    rewrite Hq, Hr'. repeat solve_int64. eexists. split; [done|]. simpl. lia.
  - eexists. split; [done|]. simpl. lia.
Qed.

(** X12. [time_add] of two durations with nanoseconds in [0, 10^9) carries
    into the seconds: the sum has its nanoseconds in [0, 10^9) and is worth
    the nanoseconds of both. *)
Theorem time_add_exact l r :
  normalized l → normalized r →
  in_int64 (tv_sec l + tv_sec r) → in_int64 (tv_sec l + tv_sec r + 1) →
  ∃ s, time_add l r = Ret s ∧ normalized s ∧ to_ns s = to_ns l + to_ns r.
Proof.
  intros Hl Hr H0 H1.
  destruct (time_add_normalized l r) as (s & ? & ? & ? & _); eauto.
Qed.

Lemma time_add_exact_witness :
  ∃ s, time_add {| tv_sec := 1; tv_nsec := 600000000 |}
                {| tv_sec := 2; tv_nsec := 700000000 |} = Ret s ∧
       normalized s ∧
       to_ns s = to_ns {| tv_sec := 1; tv_nsec := 600000000 |}
                 + to_ns {| tv_sec := 2; tv_nsec := 700000000 |}.
Proof.
  apply time_add_exact; unfold_wf; unfold in_int64, INT64_MIN, INT64_MAX; simpl; lia.
Defined.

(** X13. Adding to a reading of the clock its difference to a second
    reading gives the second reading back. *)
Theorem time_add_diff start end_ :
  timespec_wf start → timespec_wf end_ →
  (d ← time_diff start end_; time_add start d) = Ret end_.
Proof.
  intros Hs He.
  destruct (time_diff_normalized start end_ Hs He) as (d & Hd & Hn & Hns).
  rewrite Hd. simpl.
  assert (tv_sec end_ - tv_sec start - 1 ≤ tv_sec d ≤ tv_sec end_ - tv_sec start) as Hsec.
  { unfold_wf. lia. }
  destruct (time_add_normalized start d) as (s & Hs' & Hsn & Hsns & _);
    [by destruct Hs|done|unfold_wf; unfold in_int64, INT64_MIN, INT64_MAX; lia..|].
  rewrite Hs'. f_equal. destruct s as [ss sn], end_ as [es en].
  unfold_wf. f_equal; lia.
Qed.

Lemma time_add_diff_witness :
  timespec_wf {| tv_sec := 5; tv_nsec := 900000000 |} ∧
  timespec_wf {| tv_sec := 7; tv_nsec := 100000000 |} ∧
  (d ← time_diff {| tv_sec := 5; tv_nsec := 900000000 |}
                 {| tv_sec := 7; tv_nsec := 100000000 |};
   time_add {| tv_sec := 5; tv_nsec := 900000000 |} d)
  = Ret {| tv_sec := 7; tv_nsec := 100000000 |}.
Proof.
  assert (timespec_wf {| tv_sec := 5; tv_nsec := 900000000 |}) as Hs
    by (unfold_wf; lia).
  assert (timespec_wf {| tv_sec := 7; tv_nsec := 100000000 |}) as He
    by (unfold_wf; lia).
  exact (conj Hs (conj He (time_add_diff _ _ Hs He))).
Defined.

Lemma time_min_accumulate l r :
  normalized l → normalized r →
  let m := time_min l r l in
  (m = l ∨ m = r) ∧ to_ns m = Z.min (to_ns l) (to_ns r).
Proof.
  intros Hl Hr. unfold time_min. unfold_wf.
  repeat case_decide; (split; [by auto|lia]).
Qed.

Lemma time_max_accumulate l r :
  normalized l → normalized r →
  let m := time_max l r l in
  (m = l ∨ m = r) ∧ to_ns m = Z.max (to_ns l) (to_ns r).
Proof.
  intros Hl Hr. unfold time_max. unfold_wf.
  repeat case_decide; (split; [by auto|lia]).
Qed.

(** X14. [time_min] and [time_max] write only when their operands differ:
    on equal operands the destination keeps whatever it held; on operands
    that differ, with nanoseconds in [0, 10^9), it receives the shorter
    (the longer) of the two. *)
Theorem time_min_max_writes l r dest :
  (l = r → time_min l r dest = dest ∧ time_max l r dest = dest) ∧
  (l ≠ r → normalized l → normalized r →
     time_min l r dest = (if decide (to_ns l < to_ns r) then l else r) ∧
     time_max l r dest = (if decide (to_ns l < to_ns r) then r else l)).
Proof.
  split.
  - intros ->. unfold time_min, time_max. by rewrite !decide_False by lia.
  - intros Hne Hl Hr. destruct l as [ls ln], r as [rs rn].
    unfold time_min, time_max. unfold_wf.
    assert (ls ≠ rs ∨ ln ≠ rn) as Hd.
    { destruct (decide (ls = rs)) as [->|]; [|by left].
      right. intros ->. done. }
    repeat case_decide; first [done | lia].
Qed.

Lemma time_min_max_writes_witness :
  time_min {| tv_sec := 2; tv_nsec := 5 |} {| tv_sec := 1; tv_nsec := 9 |}
           {| tv_sec := 0; tv_nsec := 0 |} = {| tv_sec := 1; tv_nsec := 9 |} ∧
  time_max {| tv_sec := 2; tv_nsec := 5 |} {| tv_sec := 1; tv_nsec := 9 |}
           {| tv_sec := 0; tv_nsec := 0 |} = {| tv_sec := 2; tv_nsec := 5 |}.
Proof.
  apply (proj2 (time_min_max_writes {| tv_sec := 2; tv_nsec := 5 |}
                  {| tv_sec := 1; tv_nsec := 9 |} {| tv_sec := 0; tv_nsec := 0 |}));
    [done|unfold_wf; lia..].
Defined.

Lemma time_div_quotient l count dest :
  timespec_wf l → 1 ≤ count < 4294967296 →
  ∃ q, time_div l count dest = Ret (0, q) ∧ timespec_wf q ∧
       to_ns q = to_ns l / count.
Proof.
  intros Hl Hc. unfold time_div. rewrite decide_True by lia.
  destruct l as [s n]. unfold_wf. destruct Hl as [Hs Hn].
  rewrite !Z.quot_div_nonneg, !Z.rem_mod_nonneg by lia.
  pose proof (Z.mod_pos_bound s count ltac:(lia)) as Hr1.
  pose proof (Z.mod_pos_bound n count ltac:(lia)) as Hr2.
  pose proof (Z.div_mod s count ltac:(lia)) as Es.
  pose proof (Z.div_mod n count ltac:(lia)) as En.
  assert (0 ≤ s / count ≤ s) as Hq1.
  { split; [apply Z.div_pos; lia|]. apply Z.div_le_upper_bound; nia. }
  assert (0 ≤ n / count ≤ n) as Hq2.
  { split; [apply Z.div_pos; lia|]. apply Z.div_le_upper_bound; nia. }
  rewrite (to_int32_id (n / count)) by (unfold INT32_MIN, INT32_MAX; lia).
  rewrite (to_int32_id (n mod count)) by (unfold INT32_MIN, INT32_MAX; lia).
  assert (0 ≤ s mod count * 1000000000 ≤ 4294967295 * 1000000000) as Hp by nia.
  repeat solve_int64.
  rewrite Z.quot_div_nonneg by lia.
  set (e := (s mod count * 1000000000 + n mod count) / count).
  assert (n / count + e = (s mod count * 1000000000 + n) / count) as Hsum.
  { unfold e. rewrite En at 3.
    replace (s mod count * 1000000000 + (count * (n / count) + n mod count))
      with (n / count * count + (s mod count * 1000000000 + n mod count)) by lia.
    by rewrite Z.div_add_l by lia. }
  assert (0 ≤ n / count + e < 1000000000) as Hb.
  { rewrite Hsum. split; [apply Z.div_pos; lia|].
    apply Z.div_lt_upper_bound; [lia|]. nia. }
  assert (0 ≤ e) by (unfold e; apply Z.div_pos; lia).
  solve_int64.
  rewrite to_int32_id by (unfold INT32_MIN, INT32_MAX; lia).
  rewrite decide_False by lia.
  eexists. split; [done|]. simpl. split; [lia|].
  rewrite Hsum.
  replace (s * 1000000000 + n)
    with (s / count * 1000000000 * count + (s mod count * 1000000000 + n)) by lia.
  by rewrite Z.div_add_l by lia.
Qed.


(** X15. [time_div] divides exactly: for a duration that is not negative,
    with nanoseconds in [0, 10^9), and a count from 1 to [2^32 - 1] it
    returns 0 and writes the duration whose nanoseconds are the quotient,
    rounded down, of the nanoseconds of the dividend; it never returns 2
    there.  For the count 0 it returns 1 and writes nothing. *)
Theorem time_div_exact l count dest :
  (timespec_wf l → 1 ≤ count < 4294967296 →
   ∃ q, time_div l count dest = Ret (0, q) ∧ timespec_wf q ∧
        to_ns q = to_ns l / count) ∧
  (count = 0 → time_div l count dest = Ret (1, dest)).
Proof.
  split; [apply time_div_quotient|intros ->; done].
Qed.

Lemma time_div_exact_witness :
  timespec_wf {| tv_sec := 7; tv_nsec := 500000000 |} ∧
  ∃ q, time_div {| tv_sec := 7; tv_nsec := 500000000 |} 4
                {| tv_sec := 0; tv_nsec := 0 |} = Ret (0, q) ∧
       timespec_wf q ∧
       to_ns q = to_ns {| tv_sec := 7; tv_nsec := 500000000 |} / 4.
Proof.
  assert (timespec_wf {| tv_sec := 7; tv_nsec := 500000000 |}) as Hl
    by (unfold_wf; lia).
  split; [exact Hl|].
  apply (proj1 (time_div_exact _ 4 {| tv_sec := 0; tv_nsec := 0 |})); [exact Hl|lia].
Defined.

Lemma time_ge_ns l r :
  normalized l → normalized r → (time_ge l r ≠ 0 ↔ to_ns r ≤ to_ns l).
Proof.
  intros Hl Hr. unfold time_ge. unfold_wf. repeat case_decide; lia.
Qed.

(** X16. On durations with nanoseconds in [0, 10^9) [time_ge] is the order
    of the nanoseconds, and on any two [time_eq] holds of equal values
    only. *)
Theorem time_ge_eq_order l r :
  (normalized l → normalized r → (time_ge l r ≠ 0 ↔ to_ns r ≤ to_ns l)) ∧
  (time_eq l r ≠ 0 ↔ l = r).
Proof.
  split; [apply time_ge_ns|].
  destruct l as [ls ln], r as [rs rn]. unfold time_eq. simpl.
  repeat case_decide; split; intros Heq; first [done | congruence].
Qed.

Lemma time_ge_eq_order_witness :
  time_ge {| tv_sec := 3; tv_nsec := 1 |} {| tv_sec := 2; tv_nsec := 999999999 |} ≠ 0
  ↔ to_ns {| tv_sec := 2; tv_nsec := 999999999 |} ≤ to_ns {| tv_sec := 3; tv_nsec := 1 |}.
Proof.
  apply (proj1 (time_ge_eq_order _ _)); unfold_wf; lia.
Defined.

(** ** The statistics of a benchmark *)

Lemma foldr_max_acc a s l :
  foldr Z.max (Z.max a s) l = Z.max s (foldr Z.max a l).
Proof. induction l as [|x l IH]; simpl; [lia|]. rewrite IH. lia. Qed.

Lemma foldr_min_acc a s l :
  foldr Z.min (Z.min a s) l = Z.min s (foldr Z.min a l).
Proof. induction l as [|x l IH]; simpl; [lia|]. rewrite IH. lia. Qed.

Lemma to_uint32_succ c : to_uint32 (to_uint32 c + 1) = to_uint32 (c + 1).
Proof. unfold to_uint32. by rewrite Zplus_mod_idemp_l. Qed.

Lemma timing_updates_spec samples : ∀ self,
  normalized (min self) → normalized (max self) → timespec_wf (total self) →
  Forall timespec_wf samples →
  tv_sec (total self) + foldr Z.add 0 ((λ s, tv_sec s + 1) <$> samples) ≤ INT64_MAX →
  ∃ t, timing_updates self samples = Ret t ∧
       to_uint32 (count t) = to_uint32 (count self + Z.of_nat (length samples)) ∧
       (samples ≠ [] → count t = to_uint32 (count t)) ∧
       timespec_wf (total t) ∧
       normalized (min t) ∧ normalized (max t) ∧
       to_ns (total t) = to_ns (total self) + foldr Z.add 0 (to_ns <$> samples) ∧
       to_ns (max t) = foldr Z.max (to_ns (max self)) (to_ns <$> samples) ∧
       to_ns (min t) = foldr Z.min (to_ns (min self)) (to_ns <$> samples).
Proof.
  induction samples as [|s samples IH]; intros self Hmin Hmax Htot Hall Hsum.
  { exists self. csimpl. rewrite Z.add_0_r. split_and!; try done. lia. }
  apply Forall_cons in Hall as [Hs Hall]. csimpl in Hsum.
  assert (0 ≤ foldr Z.add 0 ((λ s, tv_sec s + 1) <$> samples)) as Hnn.
  { clear -Hall. induction Hall as [|x l Hx _ IHl]; csimpl; [lia|].
    unfold_wf. lia. }
  destruct (time_add_normalized (total self) s) as (tot & Htot' & Hn & Hns & Hsec);
    [by destruct Htot|by destruct Hs|
     destruct Htot, Hs; unfold in_int64; unfold_wf; lia..|].
  destruct (time_min_accumulate (min self) s Hmin) as [Hmn1 Hmn2]; [by destruct Hs|].
  destruct (time_max_accumulate (max self) s Hmax) as [Hmx1 Hmx2]; [by destruct Hs|].
  csimpl. unfold timing_update. rewrite Htot'. csimpl.
  destruct (IH {| min := time_min (min self) s (min self);
                  max := time_max (max self) s (max self);
                  total := tot;
                  count := to_uint32 (count self + 1) |})
    as (t & Ht & Hc & Hcr & Htw & Htmin & Htmax & Htns & Htmx & Htmn); csimpl.
  - destruct Hmn1 as [->| ->]; [done|by destruct Hs].
  - destruct Hmx1 as [->| ->]; [done|by destruct Hs].
  - destruct Htot, Hs. unfold_wf. lia.
  - done.
  - lia.
  - exists t. csimpl in *. split_and!; try done.
    + rewrite Hc. unfold to_uint32.
      rewrite Zplus_mod_idemp_l. f_equal. lia.
    + intros _. destruct samples as [|s' samples'].
      * simpl in Ht. injection Ht as <-. simpl. unfold to_uint32.
        by rewrite Z.mod_mod by lia.
      * by apply Hcr.
    + rewrite Htns, Hns. lia.
    + rewrite Htmx, Hmx2. apply foldr_max_acc.
    + rewrite Htmn, Hmn2. apply foldr_min_acc.
Qed.

Lemma timing_updates_init samples :
  Forall timespec_wf samples →
  foldr Z.add 0 ((λ s, tv_sec s + 1) <$> samples) ≤ INT64_MAX →
  ∃ t, timing_updates timing_init samples = Ret t ∧
       count t = to_uint32 (Z.of_nat (length samples)) ∧
       timespec_wf (total t) ∧
       to_ns (total t) = foldr Z.add 0 (to_ns <$> samples) ∧
       to_ns (max t) = foldr Z.max 0 (to_ns <$> samples) ∧
       to_ns (min t) = foldr Z.min 1000000000000000000 (to_ns <$> samples).
Proof.
  intros Hall Hsum.
  destruct (timing_updates_spec samples timing_init)
    as (t & Ht & Hc & Hcr & Htw & _ & _ & Htns & Htmx & Htmn);
    try done; try (unfold_wf; lia).
  exists t. split_and!; try done.
  destruct samples as [|s samples'].
  - simpl in Ht. by injection Ht as <-.
  - rewrite Hcr by done. exact Hc.
Qed.

(** X17. After [timing_init] and one [timing_update] for each of the given
    durations, the count is their number (modulo [2^32]), the total their
    sum, the maximum the longest of them and the minimum the shortest, or
    the [10^9] seconds [timing_init] starts from when all are longer. *)
Theorem timing_statistics samples :
  Forall timespec_wf samples →
  foldr Z.add 0 ((λ s, tv_sec s + 1) <$> samples) ≤ INT64_MAX →
  ∃ t, timing_updates timing_init samples = Ret t ∧
       count t = to_uint32 (Z.of_nat (length samples)) ∧
       timespec_wf (total t) ∧
       to_ns (total t) = foldr Z.add 0 (to_ns <$> samples) ∧
       to_ns (max t) = foldr Z.max 0 (to_ns <$> samples) ∧
       to_ns (min t) = foldr Z.min 1000000000000000000 (to_ns <$> samples).
Proof. apply timing_updates_init. Qed.

Lemma timing_statistics_witness :
  ∃ t, timing_updates timing_init
         [{| tv_sec := 0; tv_nsec := 700000000 |};
          {| tv_sec := 1; tv_nsec := 600000000 |};
          {| tv_sec := 0; tv_nsec := 900000000 |}] = Ret t ∧
       count t = to_uint32 3 ∧
       timespec_wf (total t) ∧
       to_ns (total t) = 3200000000 ∧
       to_ns (max t) = 1600000000 ∧
       to_ns (min t) = 700000000.
Proof.
  apply (timing_statistics
           [{| tv_sec := 0; tv_nsec := 700000000 |};
            {| tv_sec := 1; tv_nsec := 600000000 |};
            {| tv_sec := 0; tv_nsec := 900000000 |}]).
  - repeat constructor; unfold_wf; lia.
  - unfold INT64_MAX. csimpl. lia.
Defined.

(** X18. What [timing_print] reports after a benchmark of well-formed
    durations: for two or more (fewer than [2^32]) the minimum, the
    maximum, the total and an average worth the total's nanoseconds
    divided by their number, rounded down, never the complaint about bad
    nanoseconds; for one or none the total alone. *)
Theorem timing_print_report samples avg0 :
  Forall timespec_wf samples →
  foldr Z.add 0 ((λ s, tv_sec s + 1) <$> samples) ≤ INT64_MAX →
  Z.of_nat (length samples) < 4294967296 →
  ∃ t, timing_updates timing_init samples = Ret t ∧
       if decide (2 ≤ Z.of_nat (length samples)) then
         ∃ avg, timing_print avg0 t = Ret (min_max_avg_tot (min t) (max t) avg (total t)) ∧
                timespec_wf avg ∧
                to_ns avg = foldr Z.add 0 (to_ns <$> samples) / Z.of_nat (length samples)
       else timing_print avg0 t = Ret (total_only (total t)).
Proof.
  intros Hall Hsum Hlen.
  destruct (timing_updates_init samples Hall Hsum)
    as (t & Ht & Hc & Htw & Htns & _ & _).
  exists t. split; [done|].
  unfold to_uint32 in Hc. rewrite Z.mod_small in Hc by lia.
  unfold timing_print. rewrite Hc. case_decide.
  - rewrite decide_True by lia.
    destruct (time_div_quotient (total t) (Z.of_nat (length samples)) avg0)
      as (q & Hq & Hqw & Hqns); [done|lia|].
    rewrite Hq. simpl. exists q. by rewrite Hqns, Htns.
  - by rewrite decide_False by lia.
Qed.

Lemma timing_print_report_witness :
  ∃ t, timing_updates timing_init
         [{| tv_sec := 0; tv_nsec := 700000000 |};
          {| tv_sec := 1; tv_nsec := 600000000 |};
          {| tv_sec := 0; tv_nsec := 900000000 |}] = Ret t ∧
       ∃ avg, timing_print {| tv_sec := 0; tv_nsec := 0 |} t
              = Ret (min_max_avg_tot (min t) (max t) avg (total t)) ∧
              timespec_wf avg ∧
              to_ns avg = 3200000000 / 3.
Proof.
  apply (timing_print_report
           [{| tv_sec := 0; tv_nsec := 700000000 |};
            {| tv_sec := 1; tv_nsec := 600000000 |};
            {| tv_sec := 0; tv_nsec := 900000000 |}] {| tv_sec := 0; tv_nsec := 0 |}).
  - repeat constructor; unfold_wf; lia.
  - unfold INT64_MAX. simpl. lia.
  - simpl. lia.
Defined.

(** X19. [log_timer_update] answers 1 exactly when the duration of the
    timer has passed since the reading it keeps, and only then replaces
    that reading by the new one; a failed reading of the clock answers -1
    and changes nothing. *)
Theorem log_timer_update_elapsed now self :
  (timespec_wf (prev self) → timespec_wf now → normalized (dur self) →
   log_timer_update (Some now) self =
   Ret (if decide (to_ns (dur self) ≤ to_ns now - to_ns (prev self))
        then (1, {| prev := now; dur := dur self |})
        else (0, self))) ∧
  log_timer_update None self = Ret (-1, self).
Proof.
  split; [|done]. intros Hp Hn Hd. unfold log_timer_update.
  destruct (time_diff_normalized (prev self) now Hp Hn) as (d & -> & Hdn & Hdns).
  simpl. rewrite <-Hdns.
  destruct (time_ge_ns d (dur self) Hdn Hd) as [H1 H2].
  repeat case_decide; first [done | tauto].
Qed.

Lemma log_timer_update_elapsed_witness :
  log_timer_update (Some {| tv_sec := 112; tv_nsec := 5 |})
    {| prev := {| tv_sec := 100; tv_nsec := 900000000 |};
       dur := {| tv_sec := 10; tv_nsec := 0 |} |} =
  Ret (1, {| prev := {| tv_sec := 112; tv_nsec := 5 |};
             dur := {| tv_sec := 10; tv_nsec := 0 |} |}).
Proof.
  apply (proj1 (log_timer_update_elapsed {| tv_sec := 112; tv_nsec := 5 |}
           {| prev := {| tv_sec := 100; tv_nsec := 900000000 |};
              dur := {| tv_sec := 10; tv_nsec := 0 |} |}));
    unfold_wf; lia.
Defined.

(** ** args.c and main *)

Lemma char_inj c1 c2 : char c1 = char c2 → c1 = c2.
Proof.
  unfold char. intros H. apply N2Z.inj in H.
  by rewrite <-(ascii_N_embedding c1), <-(ascii_N_embedding c2), H.
Qed.

Lemma char_zero c : char c = 0 → c = zero.
Proof. intros H. by apply char_inj. Qed.

(** Compared over more characters than the second string has, two C strings
    are equal exactly when [strncmp] is zero. *)
Lemma strncmp_eq s2 : ∀ s1 n,
  c_string s1 → c_string s2 → (String.length s2 < n)%nat →
  strncmp s1 s2 n = 0 ↔ s1 = s2.
Proof.
  induction s2 as [|c2 s2 IH]; intros s1 n H1 H2 Hn;
    (destruct n as [|n]; [simpl in Hn; lia|]).
  - destruct s1 as [|c1 s1]; simpl; [done|].
    destruct H1 as [Hc1 _]. split; [|done].
    intros H. destruct Hc1. apply char_zero. lia.
  - destruct H2 as [Hc2 H2]. destruct s1 as [|c1 s1]; simpl.
    + split; [|done]. intros H. destruct Hc2. apply char_zero. lia.
    + destruct H1 as [Hc1 H1]. case_decide as Hc.
      * subst c2. rewrite IH by (done || simpl in Hn; lia).
        split; [by intros ->|by intros [= ->]].
      * split; [|by intros [= -> _]].
        intros H. destruct Hc. apply char_inj. lia.
Qed.

(** X20. [parse_algo_arg] accepts the five names of the rules and no other
    string, neither a prefix nor a longer one, and stores the value of the
    rule in [enum ALGO]; on any other string it returns 1 and stores
    nothing. *)
Theorem parse_algo_arg_names arg algo :
  c_string arg →
  parse_algo_arg arg algo =
    if decide (arg = "left-riemann") then (0, LEFT_RIEMANN)
    else if decide (arg = "mid-riemann") then (0, MID_RIEMANN)
    else if decide (arg = "right-riemann") then (0, RIGHT_RIEMANN)
    else if decide (arg = "trapezoidal") then (0, TRAPEZOIDAL)
    else if decide (arg = "simpsons") then (0, SIMPSONS)
    else (1, algo).
Proof.
  intros Harg. unfold parse_algo_arg.
  assert (∀ lit n, c_string lit → (String.length lit < n)%nat →
            ∀ A (x y : A),
              (if decide (strncmp arg lit n = 0) then x else y) =
              (if decide (arg = lit) then x else y)) as Hcase.
  { intros lit n Hlit Hn A x y.
    pose proof (strncmp_eq lit arg n Harg Hlit Hn) as Hiff.
    repeat case_decide; first [done | tauto]. }
  rewrite !Hcase; first [done | simpl; lia | by vm_compute].
Qed.

Lemma parse_algo_arg_names_witness :
  parse_algo_arg "simpsons" 0 = (0, SIMPSONS) ∧
  parse_algo_arg "simpson" 0 = (1, 0) ∧
  parse_algo_arg "simpsons2" 0 = (1, 0).
Proof.
  split_and!.
  - apply (parse_algo_arg_names "simpsons" 0). by vm_compute.
  - apply (parse_algo_arg_names "simpson" 0). by vm_compute.
  - apply (parse_algo_arg_names "simpsons2" 0). by vm_compute.
Defined.

Section args_properties.
Context (strtol : string → Z → Z * string * Z).

Lemma parse_l_cases str errno :
  ∀ value endptr errno', strtol str errno = (value, endptr, errno') →
  parse_l strtol str errno =
    (if decide (endptr = EmptyString ∧ errno' ≠ EINVAL ∧
                ¬ (value = LONG_MAX ∧ errno' = ERANGE))
     then 0 else -1, value, errno').
Proof.
  intros value endptr errno' H. unfold parse_l. rewrite H.
  repeat case_decide; first [done | tauto].
Qed.

Lemma parse_range_cases (parsed old : Z) (errno' : Z) (r : Z) :
  (if decide (r ≠ 0) then (1, old, errno')
   else if decide (parsed > INT32_MAX ∨ parsed < 1) then (1, old, errno')
   else (0, to_int32 parsed, errno')) =
  if decide (r = 0 ∧ 1 ≤ parsed ≤ INT32_MAX) then (0, parsed, errno')
  else (1, old, errno').
Proof.
  repeat case_decide; try done; try lia; try tauto.
  rewrite to_int32_id; [done|]. unfold INT32_MIN. lia.
Qed.

Lemma parse_count_cases str old errno :
  ∀ value endptr errno', strtol str errno = (value, endptr, errno') →
  (let '(r, parsed, errno) := parse_l strtol str errno in
   if decide (r ≠ 0) then (1, old, errno)
   else if decide (parsed > INT32_MAX ∨ parsed < 1) then (1, old, errno)
   else (0, to_int32 parsed, errno)) =
  if decide (endptr = EmptyString ∧ errno' ≠ EINVAL ∧ 1 ≤ value ≤ INT32_MAX)
  then (0, value, errno') else (1, old, errno').
Proof.
  intros value endptr errno' H. rewrite (parse_l_cases _ _ _ _ _ H).
  rewrite parse_range_cases.
  unfold LONG_MAX, INT64_MAX, INT32_MAX.
  repeat case_decide; first [done | lia | tauto | (exfalso; intuition lia)].
Qed.

(** X21. [parse_threads_arg], [parse_step_arg] and [parse_iterations_arg]
    accept exactly when [strtol] consumed the whole string, [errno] is not
    [EINVAL] after it and the value is from 1 to [INT32_MAX]; they then
    store that value.  Otherwise they return 1 and store nothing. *)
Theorem parse_count_args arg old errno :
  let '(value, endptr, errno') := strtol arg errno in
  let result :=
    if decide (endptr = EmptyString ∧ errno' ≠ EINVAL ∧ 1 ≤ value ≤ INT32_MAX)
    then (0, value, errno') else (1, old, errno') in
  parse_threads_arg strtol arg old errno = result ∧
  parse_step_arg strtol arg old errno = result ∧
  parse_iterations_arg strtol arg old errno = result.
Proof.
  destruct (strtol arg errno) as [[value endptr] errno'] eqn:H.
  unfold parse_threads_arg, parse_step_arg, parse_iterations_arg.
  by rewrite (parse_count_cases _ _ _ _ _ _ H).
Qed.

Lemma app_args_option_wf g self errno :
  app_args_wf self →
  match app_args_option strtol g self errno with
  | inl self' => app_args_wf self'
  | inr (self', _) => app_args_wf self'
  end.
Proof.
  intros Hwf.
  assert (match handle_threads strtol self (optarg g) errno with
          | inl a => app_args_wf a | inr (a, _) => app_args_wf a end) as Ht.
  { unfold handle_threads, parse_threads_arg.
    destruct (strtol (optarg g) errno) as [[value endptr] errno'] eqn:Hs.
    rewrite (parse_count_cases _ _ _ _ _ _ Hs).
    destruct Hwf as (? & ? & ? & ? & ?).
    case_decide; simpl; repeat split; simpl; first [done | lia]. }
  assert (match handle_step strtol self (optarg g) errno with
          | inl a => app_args_wf a | inr (a, _) => app_args_wf a end) as Hst.
  { unfold handle_step, parse_step_arg.
    destruct (strtol (optarg g) errno) as [[value endptr] errno'] eqn:Hs.
    rewrite (parse_count_cases _ _ _ _ _ _ Hs).
    destruct Hwf as (? & ? & ? & ? & ?).
    case_decide; simpl; repeat split; simpl; first [done | lia]. }
  assert (match handle_iterations strtol self (optarg g) errno with
          | inl a => app_args_wf a | inr (a, _) => app_args_wf a end) as Hit.
  { unfold handle_iterations, parse_iterations_arg.
    destruct (strtol (optarg g) errno) as [[value endptr] errno'] eqn:Hs.
    rewrite (parse_count_cases _ _ _ _ _ _ Hs).
    destruct Hwf as (? & ? & ? & ? & ?).
    case_decide; simpl; repeat split; simpl; first [done | lia]. }
  assert (match handle_algo self (optarg g) errno with
          | inl a => app_args_wf a | inr (a, _) => app_args_wf a end) as Ha.
  { unfold handle_algo, parse_algo_arg.
    destruct Hwf as (? & ? & ? & ? & ?).
    repeat case_decide; repeat split; simpl; first [done | lia]. }
  unfold app_args_option. repeat case_decide; done.
Qed.

Lemma app_args_loop_wf results : ∀ self errno,
  app_args_wf self →
  let '(r, self') := app_args_loop strtol results self errno in
  (r = 0 ∨ r = 1) ∧ app_args_wf self'.
Proof.
  induction results as [|g results IH]; intros self errno Hwf; simpl.
  { split; [by left|done]. }
  case_decide; [split; [by left|done]|].
  pose proof (app_args_option_wf g self errno Hwf) as Hopt.
  destruct (app_args_option strtol g self errno) as [self'|[self' errno']].
  - split; [by right|done].
  - by apply IH.
Qed.

(** X22. Whatever the command line and whatever [strtol] does,
    [app_args_init] returns 0 or 1 and leaves a configuration within the
    ranges the pipelines rely on: threads, step and iterations from 1 to
    [INT32_MAX] and a rule of [enum ALGO].  It never sets [file_path]: the
    [PATH] argument the help text announces is not read. *)
Theorem app_args_init_valid results errno :
  let '(r, self) := app_args_init strtol results errno in
  (r = 0 ∨ r = 1) ∧ file_path self = None ∧ args_wf (sim self).
Proof.
  unfold app_args_init. apply app_args_loop_wf.
  unfold app_args_wf, args_wf, INT32_MAX. simpl. split; [done|lia].
Qed.

(** X23. [main] runs nothing and returns 1 when [app_args_init] rejects the
    command line.  Otherwise, on a well-formed table with every system call
    succeeding and short of the counter overflow of [simpsons], it returns
    0 with the memory as it found it and prints a velocity and a position
    that, in exact arithmetic (doubles as exact rationals), depend on the
    rule and the step alone, not on the number of threads or of benchmark
    iterations. *)
Theorem main_result results errno w accel_lut (m : mem) acc :
  m !! lut accel_lut = Some acc → Z.of_nat (length acc) = len accel_lut →
  1 ≤ len accel_lut ≤ INT32_MAX → os_ok w →
  let '(r, self) := app_args_init strtol results errno in
  (r ≠ 0 → main strtol results errno w accel_lut m = Ret (1, m, None)) ∧
  (r = 0 → no_overflow (sim self) accel_lut → os_wf w (sim self) accel_lut →
   main strtol results errno w accel_lut m =
   Ret (0, m, Some {| velocity := final_velocity (algo (sim self)) (step (sim self)) acc;
                      position := final_position (algo (sim self)) (step (sim self)) acc |})).
Proof.
  intros Hacc Hlen Hl Hok. unfold main.
  pose proof (app_args_init_valid results errno) as Hv.
  destruct (app_args_init strtol results errno) as [r self].
  destruct Hv as (_ & _ & Hwf). split.
  - intros Hr. by rewrite decide_True.
  - intros -> Hov Hos. destruct (decide (0 ≠ 0)) as [?|_]; [done|]. case_decide.
    + by rewrite (run_sim_spec w (sim self) accel_lut m acc Hacc Hlen Hl Hwf Hov Hok).
    + by rewrite (run_sim_openmp_spec w (sim self) accel_lut m acc
                    Hacc Hlen Hl Hwf Hov Hok Hos).
Qed.
End args_properties.

Lemma parse_count_args_witness :
  parse_threads_arg example_strtol "8" 1 0 = (0, 8, 0) ∧
  parse_step_arg example_strtol "100" 10 0 = (0, 100, 0) ∧
  parse_iterations_arg example_strtol "ten" 1 0 = (1, 1, 0).
Proof.
  split_and!.
  - exact (proj1 (parse_count_args example_strtol "8" 1 0)).
  - exact (proj1 (proj2 (parse_count_args example_strtol "100" 10 0))).
  - exact (proj2 (proj2 (parse_count_args example_strtol "ten" 1 0))).
Defined.

Lemma app_args_init_valid_witness :
  (0 = 0 ∨ 0 = 1) ∧
  file_path {| file_path := None;
               sim := {| threads := 8; algo := TRAPEZOIDAL; step := 100;
                         iterations := 1 |} |} = None ∧
  args_wf {| threads := 8; algo := TRAPEZOIDAL; step := 100; iterations := 1 |}.
Proof. exact (app_args_init_valid example_strtol example_getopt 0). Defined.


Lemma main_result_witness :
  main example_strtol example_getopt 0 example_os example_lut example_mem =
  Ret (0, example_mem,
       Some {| velocity := final_velocity TRAPEZOIDAL 100 (Qc_of_Z <$> [0; 1; 2; 3]);
               position := final_position TRAPEZOIDAL 100 (Qc_of_Z <$> [0; 1; 2; 3]) |}).
Proof.
  assert (app_args_init example_strtol example_getopt 0 =
          (0, {| file_path := None;
                 sim := {| threads := 8; algo := TRAPEZOIDAL; step := 100;
                           iterations := 1 |} |})) as Hinit by (by vm_compute).
  assert (example_mem !! lut example_lut = Some (Qc_of_Z <$> [0; 1; 2; 3])) as Hacc
    by done.
  assert (Z.of_nat (length (Qc_of_Z <$> [0; 1; 2; 3])) = len example_lut) as Hlen
    by (by vm_compute).
  assert (1 ≤ len example_lut ≤ INT32_MAX) as Hl by (unfold INT32_MAX; simpl; lia).
  assert (os_ok example_os) as Hok by done.
  pose proof (main_result example_strtol example_getopt 0 example_os example_lut
                example_mem _ Hacc Hlen Hl Hok) as H.
  rewrite Hinit in H. apply (proj2 H); [done|by right|].
  intros c k. split; [by vm_compute|]. by apply (bool_decide_unpack _).
Defined.
